(** * Brief: the entry database (src/scripts/database.js)

    A shallow embedding of [Database] and [Query] of the Brief feed reader,
    together with the fragment of JavaScript and of the IndexedDB object
    store semantics the code relies on.

    - JavaScript numbers are modelled on the fragment the code uses:
      integers, [NaN] and [+Infinity]. Fractional numbers are outside the
      model: where a statement is about an offset or a limit that is a
      number, the number is whole, [NaN] or [+Infinity].
    - Scalar fields of entries and feeds hold JavaScript primitives; only
      the [tags] field may additionally hold an array of strings.
    - An object store is an association list from keys to records (last
      write wins) with the key generator of [autoIncrement: true]. *)

From Stdlib Require Import ZArith List String Ascii Bool Lia Permutation.
Import ListNotations.
Local Open Scope Z_scope.

(** ** The JavaScript fragment *)

Module JS.

(** Numbers: integers, NaN and +Infinity ([Number('Infinity')]). *)
Inductive num : Type :=
| NaN
| Fin (z : Z)
| PInf.

(** Primitive values. *)
Inductive prim : Type :=
| PUndef
| PNull
| PBool (b : bool)
| PNum (n : num)
| PStr (s : string).

(** Values: primitives and arrays of strings. *)
Inductive value : Type :=
| VPrim (p : prim)
| VArr (a : list string).

Definition num_eqb (a b : num) : bool :=
  match a, b with
  | NaN, NaN => true
  | Fin x, Fin y => Z.eqb x y
  | PInf, PInf => true
  | _, _ => false
  end.

(** [a === b] on numbers: NaN differs from everything, itself included. *)
Definition num_strict_eq (a b : num) : bool :=
  match a, b with
  | Fin x, Fin y => Z.eqb x y
  | PInf, PInf => true
  | _, _ => false
  end.

(** [a === b] on primitives. *)
Definition strict_eq (a b : prim) : bool :=
  match a, b with
  | PUndef, PUndef => true
  | PNull, PNull => true
  | PBool x, PBool y => Bool.eqb x y
  | PNum x, PNum y => num_strict_eq x y
  | PStr x, PStr y => String.eqb x y
  | _, _ => false
  end.

(** SameValueZero, the comparison of [Array.prototype.includes] and of
    [Map] keys: like [===] but NaN equals NaN. *)
Definition same_value_zero (a b : prim) : bool :=
  match a, b with
  | PUndef, PUndef => true
  | PNull, PNull => true
  | PBool x, PBool y => Bool.eqb x y
  | PNum x, PNum y => num_eqb x y
  | PStr x, PStr y => String.eqb x y
  | _, _ => false
  end.

(** [arr.includes(x)]. *)
Definition includes (arr : list prim) (x : prim) : bool :=
  existsb (fun y => same_value_zero y x) arr.

Definition includes_str (arr : list string) (x : string) : bool :=
  existsb (fun y => String.eqb y x) arr.

(** ToBoolean. *)
Definition truthy (p : prim) : bool :=
  match p with
  | PUndef | PNull => false
  | PBool b => b
  | PNum NaN => false
  | PNum (Fin z) => negb (Z.eqb z 0)
  | PNum PInf => true
  | PStr s => negb (String.eqb s "")
  end.

(** Flags a caller passes for [read] and [deleted]: the unary plus of the
    code is ToNumber, given here on undefined, null, booleans and numbers. *)
Inductive flag : Type :=
| FUndef
| FNull
| FBool (b : bool)
| FNum (n : num).

Definition to_number (f : flag) : num :=
  match f with
  | FUndef => NaN
  | FNull => Fin 0
  | FBool true => Fin 1
  | FBool false => Fin 0
  | FNum n => n
  end.

(** [a <= b], [a >= b] and [a > b] on numbers; NaN compares false. *)
Definition num_leb (a b : num) : bool :=
  match a, b with
  | NaN, _ | _, NaN => false
  | Fin x, Fin y => Z.leb x y
  | _, PInf => true
  | PInf, Fin _ => false
  end.

Definition num_ltb (a b : num) : bool :=
  match a, b with
  | NaN, _ | _, NaN => false
  | Fin x, Fin y => Z.ltb x y
  | PInf, _ => false
  | Fin _, PInf => true
  end.

(** [n - 1]. *)
Definition num_pred (n : num) : num :=
  match n with
  | NaN => NaN
  | Fin z => Fin (z - 1)
  | PInf => PInf
  end.

(** [s.split(', ')]: cut at every occurrence of comma-space, left to
    right; the empty string gives one empty piece. [cur] is the piece read
    so far, reversed. *)
Fixpoint rev_string (acc s : string) : string :=
  match s with
  | EmptyString => acc
  | String c s' => rev_string (String c acc) s'
  end.

Fixpoint split_go (cur : string) (s : string) : list string :=
  match s with
  | EmptyString => [rev_string EmptyString cur]
  | String c s' =>
      match s' with
      | String c' rest =>
          if (Ascii.eqb c ","%char && Ascii.eqb c' " "%char)%bool
          then rev_string EmptyString cur :: split_go EmptyString rest
          else split_go (String c cur) s'
      | EmptyString => [rev_string EmptyString (String c cur)]
      end
  end.

Definition split_comma_space (s : string) : list string :=
  split_go EmptyString s.

End JS.

Import JS.

(** ** Records *)

(** The object [_putEntry] receives: the union of [ENTRY_FIELDS] and
    [REVISION_FIELDS], and [bookmarkID]. A missing property reads as
    [PUndef]. *)
Module Orig.
Record t : Type := mk {
  id : prim;
  feedID : prim;
  read : prim;
  markedUnreadOnUpdate : prim;
  starred : prim;
  tags : value;
  deleted : prim;
  providedID : prim;
  entryURL : prim;
  primaryHash : prim;
  secondaryHash : prim;
  date : prim;
  authors : prim;
  title : prim;
  content : prim;
  updated : prim;
  bookmarkID : prim
}.
End Orig.

(** A record of the [entries] store, as [_putEntry] builds it. *)
Module Entry.
Record t : Type := mk {
  id : prim;
  feedID : prim;
  read : prim;
  markedUnreadOnUpdate : prim;
  starred : prim;
  tags : list string;
  deleted : prim;
  providedID : prim;
  entryURL : prim;
  primaryHash : prim;
  secondaryHash : prim;
  date : prim;
  revisions : list prim;
  bookmarked : bool
}.

Definition set_id (e : t) (k : prim) : t :=
  mk k (feedID e) (read e) (markedUnreadOnUpdate e) (starred e) (tags e)
     (deleted e) (providedID e) (entryURL e) (primaryHash e)
     (secondaryHash e) (date e) (revisions e) (bookmarked e).

Definition set_read (e : t) (r : prim) : t :=
  mk (id e) (feedID e) r (markedUnreadOnUpdate e) (starred e) (tags e)
     (deleted e) (providedID e) (entryURL e) (primaryHash e)
     (secondaryHash e) (date e) (revisions e) (bookmarked e).
End Entry.

(** A record of the [revisions] store. *)
Module Revision.
Record t : Type := mk {
  id : prim;
  authors : prim;
  title : prim;
  content : prim;
  updated : prim
}.

Definition set_id (r : t) (k : prim) : t :=
  mk k (authors r) (title r) (content r) (updated r).
End Revision.

(** A record of the [feeds] store and of the in-memory feed list. *)
Module Feed.
Record t : Type := mk {
  feedID : prim;
  parent : prim;
  hidden : prim;
  omitInUnread : prim;
  title : prim;
  url : prim;
  favicon : prim
}.

Definition set_feedID (f : t) (k : prim) : t :=
  mk k (parent f) (hidden f) (omitInUnread f) (title f) (url f) (favicon f).
End Feed.

(** ** Object stores *)

Module Store.

(** Valid keys among the primitives: numbers other than NaN, and strings.
    Numbers sort before strings. *)
Inductive key : Type :=
| KInt (z : Z)
| KInf
| KStr (s : string).

Definition to_key (p : prim) : option key :=
  match p with
  | PNum (Fin z) => Some (KInt z)
  | PNum PInf => Some KInf
  | PStr s => Some (KStr s)
  | _ => None
  end.

Definition of_key (k : key) : prim :=
  match k with
  | KInt z => PNum (Fin z)
  | KInf => PNum PInf
  | KStr s => PStr s
  end.

Definition key_compare (a b : key) : comparison :=
  match a, b with
  | KInt x, KInt y => Z.compare x y
  | KInt _, _ => Lt
  | KInf, KInt _ => Gt
  | KInf, KInf => Eq
  | KInf, KStr _ => Lt
  | KStr x, KStr y => String.compare x y
  | KStr _, _ => Gt
  end.

Definition key_eqb (a b : key) : bool :=
  match key_compare a b with Eq => true | _ => false end.

Section WithRecord.
Variable R : Type.

(** The records in key order, and the current number of the key
    generator (it starts at 1). *)
Record t : Type := mk {
  records : list (key * R);
  keygen : Z
}.

Definition empty : t := mk [] 1.

Fixpoint insert (k : key) (r : R) (l : list (key * R)) : list (key * R) :=
  match l with
  | [] => [(k, r)]
  | (k', r') :: rest =>
      match key_compare k k' with
      | Lt => (k, r) :: l
      | Eq => (k, r) :: rest
      | Gt => (k', r') :: insert k r rest
      end
  end.

Fixpoint lookup (k : key) (l : list (key * R)) : option R :=
  match l with
  | [] => None
  | (k', r') :: rest => if key_eqb k k' then Some r' else lookup k rest
  end.

(** [store.get(k)]. *)
Definition get (k : key) (s : t) : option R := lookup k (records s).

(** [store.getAll()] and [store.getAllKeys()]. *)
Definition getAll (s : t) : list R := map snd (records s).
Definition getAllKeys (s : t) : list key := map fst (records s).

(** [store.clear()]: the records go, the key generator stays. *)
Definition clear (s : t) : t := mk [] (keygen s).

(** The largest number the key generator hands out. *)
Definition max_generated : Z := 2 ^ 53.

(** [store.put(r)] on a store with a key path and [autoIncrement: true].
    [get_key] reads the key path, [set_key] writes the generated key.
    A record reads [PUndef] at its key path both when it has no such
    property and when it has one whose value is undefined; [own] tells
    the two apart: it says that the records handed to this [put] carry
    the property as an own property.
    - key path undefined, no such property ([own] false): the generator's
      number becomes the key; [None] when the generator is exhausted
      (ConstraintError);
    - key path undefined, the property is there ([own] true): refused
      when [put] is called (DataError);
    - a valid key: upsert, and a numeric key at or above the generator's
      number moves the generator past it;
    - anything else is refused when [put] is called (DataError), see
      [put_accepts]. *)
Definition bump (k : key) (g : Z) : Z :=
  match k with
  | KInt z => if g <=? z then Z.min z max_generated + 1 else g
  | KInf => max_generated + 1
  | KStr _ => g
  end.

Definition put_accepts (own : bool) (get_key : R -> prim) (r : R) : bool :=
  match get_key r with
  | PUndef => negb own
  | p => match to_key p with Some _ => true | None => false end
  end.

Definition put (own : bool) (get_key : R -> prim) (set_key : R -> prim -> R)
    (r : R) (s : t) : option t :=
  match get_key r with
  | PUndef =>
      if own then None
      else if keygen s <=? max_generated
      then Some (mk (insert (KInt (keygen s))
                            (set_key r (PNum (Fin (keygen s)))) (records s))
                    (keygen s + 1))
      else None
  | p =>
      match to_key p with
      | Some k => Some (mk (insert k r (records s)) (bump k (keygen s)))
      | None => None
      end
  end.

End WithRecord.

Arguments mk {R}.
Arguments records {R}.
Arguments keygen {R}.
Arguments empty {R}.
Arguments insert {R}.
Arguments lookup {R}.
Arguments get {R}.
Arguments getAll {R}.
Arguments getAllKeys {R}.
Arguments clear {R}.
Arguments put_accepts {R}.
Arguments put {R}.

End Store.

(** ** The database *)

(** The stores of the [brief] database and the indices of its [entries]
    store. A store that was never created is [None]. *)
Record DB : Type := mkDB {
  version : Z;
  revisions : option (Store.t Revision.t);
  entries : option (Store.t Entry.t);
  feeds : option (Store.t Feed.t);
  indices : list string
}.

Definition fresh_disk : DB := mkDB 0 None None None [].

Inductive exn : Type :=
| TypeError
| DataError
| NotFoundError
| ConstraintError
| VersionError
| BackendError
| InvalidSortOrder
| AscNotSupported.

(** *** Schema migration: [upgrade] *)

Inductive step : Type :=
| CreateEntryStores   (* case 0 *)
| CreateFeedStore     (* case 10 *)
| IndexAndRewrite.    (* case 20 *)

(** The [case] labels of the [switch], in source order. *)
Definition cases : list (Z * step) :=
  [(0, CreateEntryStores); (10, CreateFeedStore); (20, IndexAndRewrite)].

(** [switch (v) { case l1: s1 case l2: s2 ... }] without [break] and
    without [default]: jump to the first label equal to [v] and run
    everything from there; no label equal, nothing runs. *)
Fixpoint switch_from (v : Z) (cs : list (Z * step)) : list step :=
  match cs with
  | [] => []
  | (label, s) :: rest =>
      if v =? label then s :: map snd rest else switch_from v rest
  end.

Definition upgrade_steps (oldVersion : Z) : list step :=
  switch_from oldVersion cases.

(** [value.read = value.read ? 1 : 0]. *)
Definition rewrite_read (e : Entry.t) : Entry.t :=
  Entry.set_read e (PNum (Fin (if truthy (Entry.read e) then 1 else 0))).

(** The cursor of case 20: every record is replaced, under its key, by
    its rewritten value. *)
Definition rewrite_store (s : Store.t Entry.t) : Store.t Entry.t :=
  Store.mk (map (fun kr => (fst kr, rewrite_read (snd kr))) (Store.records s))
           (Store.keygen s).

Definition entry_indices_v0 : list string :=
  ["date"; "feedID_date"; "primaryHash"; "bookmarkID"; "entryURL"; "tagName"]%string.

Definition composite_index : string := "deleted_read_feedID_date".

Definition has_index (name : string) (db : DB) : bool :=
  existsb (String.eqb name) (indices db).

(** One step on the database; [inr] is the exception that aborts the
    upgrade ([createObjectStore] and [createIndex] refuse a name that
    exists, [objectStore] one that does not). *)
Definition run_step (s : step) (db : DB) : DB + exn :=
  match s with
  | CreateEntryStores =>
      match revisions db, entries db with
      | None, None =>
          inl (mkDB (version db) (Some Store.empty) (Some Store.empty)
                    (feeds db) entry_indices_v0)
      | _, _ => inr ConstraintError
      end
  | CreateFeedStore =>
      match feeds db with
      | None =>
          inl (mkDB (version db) (revisions db) (entries db)
                    (Some Store.empty) (indices db))
      | Some _ => inr ConstraintError
      end
  | IndexAndRewrite =>
      match entries db with
      | None => inr NotFoundError
      | Some es =>
          if has_index composite_index db then inr ConstraintError
          else inl (mkDB (version db) (revisions db)
                         (Some (rewrite_store es)) (feeds db)
                         (indices db ++ [composite_index]))
      end
  end.

Fixpoint run_steps (ss : list step) (db : DB) : DB + exn :=
  match ss with
  | [] => inl db
  | s :: rest =>
      match run_step s db with
      | inl db' => run_steps rest db'
      | inr e => inr e
      end
  end.

Definition upgrade (oldVersion : Z) (db : DB) : DB + exn :=
  run_steps (upgrade_steps oldVersion) db.

Definition target_version : Z := 30.

(** [indexedDB.open("brief", {version: 30})]: [upgrade] runs when the
    version on disk is lower, and the version is then 30; a failed upgrade
    or a newer database on disk fails the open. *)
Definition open_db (disk : DB) : DB + exn :=
  if version disk <? target_version then
    match upgrade (version disk) disk with
    | inl db => inl (mkDB target_version (revisions db) (entries db)
                          (feeds db) (indices db))
    | inr e => inr e
    end
  else if version disk =? target_version then inl disk
  else inr VersionError.

(** *** Writing entries: [_putEntry] and [putEntries] *)

(** [(entry.tags || '').split(', ')]: only strings have [split]; a truthy
    value of another type, an array included, raises a TypeError. *)
Definition tags_split (t : value) : option (list string) :=
  match t with
  | VPrim p =>
      if truthy p then
        match p with
        | PStr s => Some (split_comma_space s)
        | _ => None
        end
      else Some (split_comma_space "")
  | VArr _ => None
  end.

Definition entry_of (o : Orig.t) (tags : list string) : Entry.t :=
  Entry.mk (Orig.id o) (Orig.feedID o) (Orig.read o)
           (Orig.markedUnreadOnUpdate o) (Orig.starred o) tags
           (Orig.deleted o) (Orig.providedID o) (Orig.entryURL o)
           (Orig.primaryHash o) (Orig.secondaryHash o) (Orig.date o)
           [Orig.id o]
           (negb (strict_eq (Orig.bookmarkID o) (PNum (Fin (-1))))).

Definition revision_of (o : Orig.t) : Revision.t :=
  Revision.mk (Orig.id o) (Orig.authors o) (Orig.title o) (Orig.content o)
              (Orig.updated o).

(** A write placed on a transaction. *)
Inductive request : Type :=
| PutRevision (r : Revision.t)
| PutEntry (e : Entry.t).

(** A transaction is the queue of the writes placed on it. *)
Definition transaction : Type := list request.

(** [_putEntry(origEntry, tx)]: the transaction afterwards, and the
    exception if one is raised. *)
Definition _putEntry (origEntry : Orig.t) (tx : transaction)
  : transaction * option exn :=
  match tags_split (Orig.tags origEntry) with
  | None => (tx, Some TypeError)
  | Some tags =>
      let entry := entry_of origEntry tags in
      let revision := revision_of origEntry in
      if Store.put_accepts true Revision.id revision then
        let tx1 := tx ++ [PutRevision revision] in
        if Store.put_accepts true Entry.id entry
        then (tx1 ++ [PutEntry entry], None)
        else (tx1, Some DataError)
      else (tx, Some DataError)
  end.

(** [for(let entry of entries) this._putEntry(entry, tx)]: an exception
    leaves the loop. *)
Fixpoint put_loop (es : list Orig.t) (tx : transaction)
  : transaction * option exn :=
  match es with
  | [] => (tx, None)
  | e :: rest =>
      match _putEntry e tx with
      | (tx', None) => put_loop rest tx'
      | (tx', Some x) => (tx', Some x)
      end
  end.

(** The two stores a [readwrite] transaction of [putEntries] covers. *)
Definition stores : Type := (Store.t Revision.t * Store.t Entry.t)%type.

Definition apply_request (q : request) (st : stores) : option stores :=
  match q with
  | PutRevision r =>
      option_map (fun s => (s, snd st))
                 (Store.put true Revision.id Revision.set_id r (fst st))
  | PutEntry e =>
      option_map (fun s => (fst st, s))
                 (Store.put true Entry.id Entry.set_id e (snd st))
  end.

(** The backend runs the queue in order. [io_fail] is the position of a
    write the backend fails to carry out, if any. A failed write aborts
    the transaction: [None]. *)
Fixpoint run_queue (tx : transaction) (n : nat) (io_fail : option nat)
    (st : stores) : option stores :=
  match tx with
  | [] => Some st
  | q :: rest =>
      if match io_fail with Some k => Nat.eqb k n | None => false end
      then None
      else match apply_request q st with
           | Some st' => run_queue rest (S n) io_fail st'
           | None => None
           end
  end.

(** What the caller of an [async] method observes, and the stores once
    the transaction is over. *)
Record outcome : Type := mkOutcome {
  rejected : option exn;
  after : stores
}.

(** [putEntries(entries)]. The writes are queued by the loop; the
    transaction then commits what was queued, or aborts on a failed
    write. Nothing aborts it when the loop is left by an exception. *)
Definition putEntries (es : list Orig.t) (io_fail : option nat)
    (st : stores) : outcome :=
  let '(tx, raised) := put_loop es [] in
  match run_queue tx 0 io_fail st with
  | Some st' => mkOutcome raised st'
  | None =>
      mkOutcome (match raised with Some x => Some x | None => Some BackendError end)
                st
  end.

(** *** The feed list: [loadFeeds], [saveFeeds], [_saveFeedBackups] *)

(** What the code does to its surroundings, in the order it does it. *)
Inductive event : Type :=
| EvPreferenceGet                 (* browser.storage.local.get({storage}) *)
| EvOpenDatabase                  (* indexedDB.open *)
| EvUpgradeReadEntry (k : Store.key) (* cursor.value in the upgrade *)
| EvFeedsGetAll                   (* feeds.getAll() *)
| EvLocalGet                      (* browser.storage.local.get({feeds}) *)
| EvSyncGet                       (* browser.storage.sync.get({feeds}) *)
| EvFeedsSave                     (* the readwrite transaction of saveFeeds *)
| EvBackupsSet                    (* storage.local.set and storage.sync.set *)
| EvEntriesGetAllKeys             (* entries.getAllKeys() *)
| EvIndexCursorOpen               (* index(...).openCursor(...) *)
| EvCursorReadEntry (k : Store.key). (* cursor.value in count *)

(** The [Database] object and what it reaches: the database on disk,
    whether [_db] is set, the feed list [_feeds], the two backups of the
    feed list, and the trace of events. The asynchronous methods are
    modelled in program order, each call running to its end. *)
Record World : Type := mkWorld {
  disk : DB;
  opened : bool;
  _feeds : list Feed.t;
  local_backup : list Feed.t;
  sync_backup : list Feed.t;
  log : list event
}.

Definition emit (ev : list event) (w : World) : World :=
  mkWorld (disk w) (opened w) (_feeds w) (local_backup w) (sync_backup w)
          (log w ++ ev).

Definition set_disk (d : DB) (w : World) : World :=
  mkWorld d (opened w) (_feeds w) (local_backup w) (sync_backup w) (log w).

Definition set_feeds (fs : list Feed.t) (w : World) : World :=
  mkWorld (disk w) (opened w) fs (local_backup w) (sync_backup w) (log w).

Definition set_backups (fs : list Feed.t) (w : World) : World :=
  mkWorld (disk w) (opened w) (_feeds w) fs fs (log w).

Definition set_feed_store (s : Store.t Feed.t) (d : DB) : DB :=
  mkDB (version d) (revisions d) (entries d) (Some s) (indices d).

(** [delete minimized[key]] for a null-valued property. *)
Definition drop_null (p : prim) : prim :=
  match p with PNull => PUndef | _ => p end.

(** One feed of [_saveFeedBackups]: no favicon, no null-valued field. *)
Definition minimize (f : Feed.t) : Feed.t :=
  Feed.mk (drop_null (Feed.feedID f)) (drop_null (Feed.parent f))
          (drop_null (Feed.hidden f)) (drop_null (Feed.omitInUnread f))
          (drop_null (Feed.title f)) (drop_null (Feed.url f)) PUndef.

(** [_saveFeedBackups(feeds)]: the minimized list goes to both backups. *)
Definition _saveFeedBackups (fs : list Feed.t) (w : World) : World :=
  set_backups (map minimize fs) (emit [EvBackupsSet] w).

(** The loop of [saveFeeds]: the feeds queued before [put] refuses one. *)
Fixpoint save_queue (fs : list Feed.t) : list Feed.t * option exn :=
  match fs with
  | [] => ([], None)
  | f :: rest =>
      if Store.put_accepts false Feed.feedID f then
        let '(q, x) := save_queue rest in (f :: q, x)
      else ([], Some DataError)
  end.

Fixpoint run_feed_queue (q : list Feed.t) (s : Store.t Feed.t)
  : option (Store.t Feed.t) :=
  match q with
  | [] => Some s
  | f :: rest =>
      match Store.put false Feed.feedID Feed.set_feedID f s with
      | Some s' => run_feed_queue rest s'
      | None => None
      end
  end.

(** [saveFeeds(feeds)]. *)
Definition saveFeeds (fs : list Feed.t) (w : World) : World * option exn :=
  if negb (opened w) then (w, None)
  else
    match feeds (disk w) with
    | None => (w, Some NotFoundError)
    | Some s =>
        let w := emit [EvFeedsSave] w in
        let '(q, raised) := save_queue fs in
        match run_feed_queue q (Store.clear s) with
        | None => (w, Some BackendError)
        | Some s' =>
            let w := set_disk (set_feed_store s' (disk w)) w in
            match raised with
            | Some x => (w, Some x)
            | None => (_saveFeedBackups fs w, None)
            end
        end
    end.

(** [loadFeeds()]. The result of [saveFeeds], which is not awaited, is
    dropped. *)
Definition loadFeeds (w : World) : World * option exn :=
  if negb (opened w) then (w, Some TypeError)
  else
    match feeds (disk w) with
    | None => (w, Some NotFoundError)
    | Some s =>
        let w := emit [EvFeedsGetAll] w in
        let fs := Store.getAll s in
        if (List.length fs =? 0)%nat then
          let w := emit [EvLocalGet] w in
          let fs := local_backup w in
          if (List.length fs =? 0)%nat then
            let w := emit [EvSyncGet] w in
            let fs := sync_backup w in
            (set_feeds fs (fst (saveFeeds fs w)), None)
          else (set_feeds fs (fst (saveFeeds fs w)), None)
        else (set_feeds fs w, None)
    end.

(** *** [init] *)

(** The records the cursor of [upgrade]'s case 20 reads. *)
Definition upgrade_reads (d : DB) : list event :=
  if existsb (fun s => match s with IndexAndRewrite => true | _ => false end)
             (upgrade_steps (version d))
  then match run_steps (removelast (upgrade_steps (version d))) d with
       | inl d' =>
           match entries d' with
           | Some es => map EvUpgradeReadEntry (Store.getAllKeys es)
           | None => []
           end
       | inr _ => []
       end
  else [].

Definition set_opened (w : World) : World :=
  mkWorld (disk w) true (_feeds w) (local_backup w) (sync_backup w) (log w).

(** [loadFeeds()] called by a caller that does not await it. It runs
    until it waits for the feed list; the caller goes on, and [ev] are the
    events of what the caller issues meanwhile; then the feed list
    arrives and [loadFeeds] goes on as above. *)
Definition loadFeeds_during (ev : list event) (w : World) : World * option exn :=
  if negb (opened w) then (emit ev w, Some TypeError)
  else
    match feeds (disk w) with
    | None => (emit ev w, Some NotFoundError)
    | Some s =>
        let w := emit (EvFeedsGetAll :: ev) w in
        let fs := Store.getAll s in
        if (List.length fs =? 0)%nat then
          let w := emit [EvLocalGet] w in
          let fs := local_backup w in
          if (List.length fs =? 0)%nat then
            let w := emit [EvSyncGet] w in
            let fs := sync_backup w in
            (set_feeds fs (fst (saveFeeds fs w)), None)
          else (set_feeds fs (fst (saveFeeds fs w)), None)
        else (set_feeds fs w, None)
    end.

(** [init()]. [_db] is set as soon as the database is open; [loadFeeds]
    is called and not awaited, and its outcome is dropped; then the keys
    of the entries are listed, which fails when the database has no entry
    store ([transaction(['entries'])] raises NotFoundError), with [_db]
    already set. The world returned is the one in which [init] and the
    [loadFeeds] it started are both over. *)
Definition init (w : World) : World * option exn :=
  if opened w then (w, None)
  else
    let w := emit [EvPreferenceGet; EvOpenDatabase] w in
    match open_db (disk w) with
    | inr e => (w, Some e)
    | inl d =>
        let w := emit (if version (disk w) <? target_version
                       then upgrade_reads (disk w) else []) w in
        let w := set_opened (set_disk d w) in
        match entries d with
        | Some _ => (fst (loadFeeds_during [EvEntriesGetAllKeys] w), None)
        | None => (fst (loadFeeds_during [] w), Some NotFoundError)
        end
    end.

(** ** Queries *)

(** A [Query] object: the properties [_filters] reads, after
    [Object.assign(this, filters)] over the prototype's defaults. The
    bounds of the date range, [limit] and [offset] are undefined ([None])
    or numbers. *)
Record Query : Type := mkQuery {
  q_feeds : option (list prim);
  q_folders : option (list prim);
  q_tags : option (list string);
  q_read : flag;
  q_starred : prim;
  q_deleted : flag;
  q_searchString : prim;
  q_startDate : option num;
  q_endDate : option num;
  q_limit : option num;
  q_offset : option num;
  q_sortOrder : prim;
  q_sortDirection : prim;
  q_includeHiddenFeeds : bool;
  q_includeFeedsExcludedFromGlobalViews : bool
}.

(** [Database.query({})]: the prototype's values. *)
Definition default_query : Query :=
  mkQuery None None None FUndef PUndef FUndef PUndef None None None
          (Some (Fin 0)) PUndef (PStr "desc") false true.

Definition set_folders (fs : option (list prim)) (q : Query) : Query :=
  mkQuery (q_feeds q) fs (q_tags q) (q_read q) (q_starred q) (q_deleted q)
          (q_searchString q) (q_startDate q) (q_endDate q) (q_limit q)
          (q_offset q) (q_sortOrder q) (q_sortDirection q)
          (q_includeHiddenFeeds q) (q_includeFeedsExcludedFromGlobalViews q).

(** What [_filters] returns. *)
Record EntryFilter : Type := mkEntryFilter {
  f_read : prim;
  f_starred : prim;
  f_deleted : prim;
  f_tags : option (list string)
}.

Record SortFilter : Type := mkSortFilter {
  direction : prim;
  limit : option num;
  offset : option num;
  start : option num;
  end_ : option num
}.

Record Filters : Type := mkFilters {
  fl_feeds : list prim;
  entry : EntryFilter;
  fullTextSearch : prim;
  sort : SortFilter
}.

(** *** The folder expansion of [_filters] *)

(** The [Map] from a parent to the ids of its children. *)
Definition children_map : Type := list (prim * list prim).

Fixpoint map_get (k : prim) (m : children_map) : option (list prim) :=
  match m with
  | [] => None
  | (k', v) :: rest => if same_value_zero k' k then Some v else map_get k rest
  end.

Fixpoint map_set (k : prim) (v : list prim) (m : children_map) : children_map :=
  match m with
  | [] => [(k, v)]
  | (k', v') :: rest =>
      if same_value_zero k' k then (k', v) :: rest
      else (k', v') :: map_set k v rest
  end.

(** [childrenMap.get(k) || []]. *)
Definition get_or_empty (k : prim) (m : children_map) : list prim :=
  match map_get k m with Some v => v | None => [] end.

(** [for(let node of Database.feeds) { ... }]. *)
Definition build_children_map (fs : list Feed.t) : children_map :=
  fold_left
    (fun m node =>
       map_set (Feed.parent node)
               (get_or_empty (Feed.parent node) m ++ [Feed.feedID node]) m)
    fs [].

(** [while(new_nodes.length > 0) { ... }]: [pop] takes the last element,
    [push] appends. [None] when the fuel runs out. *)
Fixpoint traverse (fuel : nat) (m : children_map) (new_nodes nodes : list prim)
  : option (list prim) :=
  match fuel with
  | O => None
  | S fuel' =>
      match rev new_nodes with
      | [] => Some nodes
      | node :: below =>
          traverse fuel' m (rev below ++ get_or_empty node m) (nodes ++ [node])
      end
  end.

(** *** [_filters] *)

(** [_filters()] on the feed list [Database.feeds]. The result is [None]
    when the fuel of the folder loop runs out; otherwise the exception or
    the filters, and the query as the call leaves it: [new_nodes] is the
    array [folders] itself, which the loop empties. *)
Definition _filters (fuel : nat) (q : Query) (all_feeds : list Feed.t)
  : option ((Filters + exn) * Query) :=
  let folder_stage :=
    match q_folders q with
    | None => Some (all_feeds, q)
    | Some folders =>
        match traverse fuel (build_children_map all_feeds) folders [] with
        | None => None
        | Some nodes =>
            Some (filter (fun feed => includes nodes (Feed.feedID feed)) all_feeds,
                  set_folders (Some []) q)
        end
    end in
  match folder_stage with
  | None => None
  | Some (active_feeds, q') =>
      let '(active_feeds, includeHiddenFeeds) :=
        match q_feeds q with
        | None => (active_feeds, q_includeHiddenFeeds q)
        | Some feeds =>
            (filter (fun feed => includes feeds (Feed.feedID feed)) active_feeds,
             true)
        end in
      let active_feeds :=
        if negb includeHiddenFeeds
        then filter (fun feed => negb (truthy (Feed.hidden feed))) active_feeds
        else active_feeds in
      let active_feeds :=
        if negb (q_includeFeedsExcludedFromGlobalViews q)
        then filter (fun feed => negb (truthy (Feed.omitInUnread feed))) active_feeds
        else active_feeds in
      if (negb (strict_eq (q_sortOrder q) PUndef)
          && negb (strict_eq (q_sortOrder q) (PStr "date")))%bool
      then Some (inr InvalidSortOrder, q')
      else
        Some (inl (mkFilters
                     (map Feed.feedID active_feeds)
                     (mkEntryFilter (PNum (to_number (q_read q)))
                                    (q_starred q)
                                    (PNum (to_number (q_deleted q)))
                                    (q_tags q))
                     (q_searchString q)
                     (mkSortFilter (q_sortDirection q) (q_limit q) (q_offset q)
                                   (q_startDate q) (q_endDate q))),
              q')
  end.

(** *** [_searchEngine], the index and [count] *)

Section Engine.

(** The conversion of a string to a number by the JavaScript runtime,
    which the comparison of a string-valued [date] with a number goes
    through. *)
Variable string_to_number : string -> num.

(** ToNumber on primitives. *)
Definition prim_to_number (p : prim) : num :=
  match p with
  | PUndef => NaN
  | PNull => Fin 0
  | PBool true => Fin 1
  | PBool false => Fin 0
  | PNum n => n
  | PStr s => string_to_number s
  end.

(** The clauses of [filterFunction], in source order. *)
Definition clause_feeds (filters : Filters) (e : Entry.t) : bool :=
  includes (fl_feeds filters) (Entry.feedID e).

Definition clause_read (filters : Filters) (e : Entry.t) : bool :=
  strict_eq (f_read (entry filters)) PUndef
  || strict_eq (f_read (entry filters)) (Entry.read e).

Definition clause_starred (filters : Filters) (e : Entry.t) : bool :=
  strict_eq (f_starred (entry filters)) PUndef
  || strict_eq (f_starred (entry filters)) (Entry.starred e).

Definition clause_deleted (filters : Filters) (e : Entry.t) : bool :=
  strict_eq (f_deleted (entry filters)) PUndef
  || strict_eq (f_deleted (entry filters)) (Entry.deleted e).

Definition clause_tags (filters : Filters) (e : Entry.t) : bool :=
  match f_tags (entry filters) with
  | None => true
  | Some tags => existsb (fun tag => includes_str (Entry.tags e) tag) tags
  end.

Definition clause_start (filters : Filters) (e : Entry.t) : bool :=
  match start (sort filters) with
  | None => true
  | Some s => num_leb s (prim_to_number (Entry.date e))
  end.

Definition clause_end (filters : Filters) (e : Entry.t) : bool :=
  match end_ (sort filters) with
  | None => true
  | Some s => num_leb (prim_to_number (Entry.date e)) s
  end.

Definition filterFunction (filters : Filters) (e : Entry.t) : bool :=
  clause_feeds filters e && clause_read filters e && clause_starred filters e
  && clause_deleted filters e && clause_tags filters e
  && clause_start filters e && clause_end filters e.

(** [_searchEngine(filters)]: the index name and the filter function, or
    the exception. The one range is [undefined]: the whole index. *)
Definition _searchEngine (filters : Filters)
  : (string * (Entry.t -> bool)) + exn :=
  if negb (strict_eq (direction (sort filters)) (PStr "desc"))
  then inr AscNotSupported
  else inl (composite_index, filterFunction filters).

(** The key of a record in the index on
    [['deleted', 'read', 'feedID', 'date']]: a record with a field that is
    not a valid key has no entry in the index. *)
Definition index_key (e : Entry.t) : option (list Store.key) :=
  match Store.to_key (Entry.deleted e), Store.to_key (Entry.read e),
        Store.to_key (Entry.feedID e), Store.to_key (Entry.date e) with
  | Some d, Some r, Some f, Some t => Some [d; r; f; t]
  | _, _, _, _ => None
  end.

(** Array keys compare element by element. *)
Fixpoint keys_compare (a b : list Store.key) : comparison :=
  match a, b with
  | [], [] => Eq
  | [], _ :: _ => Lt
  | _ :: _, [] => Gt
  | x :: a', y :: b' =>
      match Store.key_compare x y with
      | Eq => keys_compare a' b'
      | c => c
      end
  end.

Definition index_entry : Type := (list Store.key * (Store.key * Entry.t))%type.

(** Insertion behind the entries that are not greater: entries with equal
    index keys stay in the order of their primary keys. *)
Fixpoint index_insert (x : index_entry) (l : list index_entry) : list index_entry :=
  match l with
  | [] => [x]
  | y :: rest =>
      match keys_compare (fst x) (fst y) with
      | Lt => x :: l
      | _ => y :: index_insert x rest
      end
  end.

Fixpoint index_of (rs : list (Store.key * Entry.t)) : list index_entry :=
  match rs with
  | [] => []
  | (k, e) :: rest =>
      match index_key e with
      | Some ik => index_insert (ik, (k, e)) (index_of rest)
      | None => index_of rest
      end
  end.

(** The records a cursor over the whole index visits, in its order. *)
Definition index_records (s : Store.t Entry.t) : list (Store.key * Entry.t) :=
  map snd (index_of (rev (Store.records s))).

(** The state of the scan of [count]. *)
Record Scan : Type := mkScan {
  sc_offset : num;
  sc_limit : num;
  answer : Z;
  totalCallbacks : nat;
  read_keys : list Store.key
}.

(** The [onsuccess] callback over the records the cursor still has to
    give: with [limit <= 0] it returns without [cursor.continue()], and
    the remaining records are never visited. *)
Fixpoint scan (f : Entry.t -> bool) (rs : list (Store.key * Entry.t))
    (s : Scan) : Scan :=
  match rs with
  | [] => s
  | (k, e) :: rest =>
      let calls := S (totalCallbacks s) in
      if num_leb (sc_limit s) (Fin 0)
      then mkScan (sc_offset s) (sc_limit s) (answer s) calls (read_keys s)
      else
        let reads := read_keys s ++ [k] in
        if f e then
          if num_ltb (Fin 0) (sc_offset s)
          then scan f rest (mkScan (num_pred (sc_offset s)) (sc_limit s)
                                   (answer s) calls reads)
          else scan f rest (mkScan (sc_offset s) (num_pred (sc_limit s))
                                   (answer s + 1) calls reads)
        else scan f rest (mkScan (sc_offset s) (sc_limit s) (answer s) calls reads)
  end.

(** [filters.sort.offset || 0]. *)
Definition initial_offset (o : option num) : num :=
  match o with
  | Some n => if truthy (PNum n) then n else Fin 0
  | None => Fin 0
  end.

(** [(filters.sort.limit === undefined) ? Number('Infinity') : filters.sort.limit]. *)
Definition initial_limit (l : option num) : num :=
  match l with
  | Some n => n
  | None => PInf
  end.

Definition initial_scan (filters : Filters) : Scan :=
  mkScan (initial_offset (offset (sort filters)))
         (initial_limit (limit (sort filters))) 0 0 [].

(** [count()]: the world and the query afterwards, and the answer or the
    exception the promise is rejected with. [None] when the fuel of the
    folder loop of [_filters] runs out. *)
Definition count (fuel : nat) (q : Query) (w : World)
  : option (World * Query * (Z + exn)) :=
  match init w with
  | (w1, Some x) => Some (w1, q, inr x)
  | (w1, None) =>
      match _filters fuel q (_feeds w1) with
      | None => None
      | Some (inr x, q') => Some (w1, q', inr x)
      | Some (inl filters, q') =>
          match _searchEngine filters with
          | inr x => Some (w1, q', inr x)
          | inl (indexName, f) =>
              match entries (disk w1) with
              | None => Some (w1, q', inr NotFoundError)
              | Some es =>
                  if negb (has_index indexName (disk w1))
                  then Some (w1, q', inr NotFoundError)
                  else
                    let s := scan f (index_records es) (initial_scan filters) in
                    Some (emit (EvIndexCursorOpen
                                  :: map EvCursorReadEntry (read_keys s)) w1,
                          q', inl (answer s))
              end
          end
      end
  end.

End Engine.

(** ** Definitions used in the statements *)

(** A record of the [entries] store for the examples. *)
Definition sample_entry (i : Z) (rd : prim) : Entry.t :=
  Entry.mk (PNum (Fin i)) (PNum (Fin 1)) rd PUndef PUndef [""%string]
           (PNum (Fin 0)) PUndef PUndef PUndef PUndef (PNum (Fin 100))
           [PNum (Fin i)] false.

(** The steps the claim expects for a version on disk: those whose label
    is not below it. *)
Definition steps_not_below (v : Z) : list step :=
  map snd (filter (fun c => v <=? fst c) cases).

(** The fixed fields of a stored entry equal those of the input,
    [ENTRY_FIELDS] one by one. *)
Definition entry_fields_equal (o : Orig.t) (e : Entry.t) : Prop :=
  Entry.id e = Orig.id o /\ Entry.feedID e = Orig.feedID o
  /\ Entry.read e = Orig.read o
  /\ Entry.markedUnreadOnUpdate e = Orig.markedUnreadOnUpdate o
  /\ Entry.starred e = Orig.starred o
  /\ VArr (Entry.tags e) = Orig.tags o
  /\ Entry.deleted e = Orig.deleted o
  /\ Entry.providedID e = Orig.providedID o
  /\ Entry.entryURL e = Orig.entryURL o
  /\ Entry.primaryHash e = Orig.primaryHash o
  /\ Entry.secondaryHash e = Orig.secondaryHash o
  /\ Entry.date e = Orig.date o.

(** The same without [tags]. *)
Definition entry_fields_equal_but_tags (o : Orig.t) (e : Entry.t) : Prop :=
  Entry.id e = Orig.id o /\ Entry.feedID e = Orig.feedID o
  /\ Entry.read e = Orig.read o
  /\ Entry.markedUnreadOnUpdate e = Orig.markedUnreadOnUpdate o
  /\ Entry.starred e = Orig.starred o
  /\ Entry.deleted e = Orig.deleted o
  /\ Entry.providedID e = Orig.providedID o
  /\ Entry.entryURL e = Orig.entryURL o
  /\ Entry.primaryHash e = Orig.primaryHash o
  /\ Entry.secondaryHash e = Orig.secondaryHash o
  /\ Entry.date e = Orig.date o.

(** [REVISION_FIELDS] one by one. *)
Definition revision_fields_equal (o : Orig.t) (r : Revision.t) : Prop :=
  Revision.id r = Orig.id o /\ Revision.authors r = Orig.authors o
  /\ Revision.title r = Orig.title o /\ Revision.content r = Orig.content o
  /\ Revision.updated r = Orig.updated o.

(** An input entry for the examples: id, tags, and the rest fixed. *)
Definition sample_orig (i : prim) (tags : value) : Orig.t :=
  Orig.mk i (PNum (Fin 1)) (PNum (Fin 0)) (PBool false) (PBool false) tags
          (PNum (Fin 0)) (PStr "guid") (PStr "http://example.org/1")
          (PStr "h1") (PStr "h2") (PNum (Fin 100))
          (PStr "author") (PStr "title") (PStr "content") (PNum (Fin 100))
          (PNum (Fin (-1))).

Definition empty_stores : stores := (Store.empty, Store.empty).

(** A key the generator of a store at number [g] will not hand out. *)
Definition safe (k : Store.key) (g : Z) : Prop :=
  match k with
  | Store.KInt z => z < g \/ Store.max_generated < z
  | _ => True
  end.

(** The writes [_putEntry] queues for an entry it accepts. *)
Definition queued (o : Orig.t) : list request :=
  match tags_split (Orig.tags o) with
  | Some tags => [PutRevision (revision_of o); PutEntry (entry_of o tags)]
  | None => []
  end.

(** The key path of the record of a write. *)
Definition request_id (q : request) : prim :=
  match q with
  | PutRevision r => Revision.id r
  | PutEntry e => Entry.id e
  end.

(** A batch whose second entry carries its tags as an array, the form in
    which a stored record holds them. *)
Definition batch_with_array_tags : list Orig.t :=
  [sample_orig (PNum (Fin 1)) (VPrim (PStr "a"));
   sample_orig (PNum (Fin 2)) (VArr ["x"%string])].

(** A batch whose second entry has [id: null], which is not a valid key. *)
Definition batch_with_null_id : list Orig.t :=
  [sample_orig (PNum (Fin 1)) (VPrim (PStr "a"));
   sample_orig PNull (VPrim (PStr "b"))].

(** Filters of a query for undeleted unread entries of feed 1 with one of
    the given tags. *)
Definition filters_with_tags (tags : list string) : Filters :=
  mkFilters [PNum (Fin 1)]
            (mkEntryFilter (PNum (Fin 0)) PUndef (PNum (Fin 0)) (Some tags))
            PUndef
            (mkSortFilter (PStr "desc") None (Some (Fin 0)) None None).

(** A feed with the given id and parent, and nothing else. *)
Definition sample_feed (i parent : prim) : Feed.t :=
  Feed.mk i parent PUndef PUndef PUndef PUndef PUndef.

(** The database at version 30 with the given contents. *)
Definition db_v30 (rs : Store.t Revision.t) (es : Store.t Entry.t)
    (fs : Store.t Feed.t) : DB :=
  mkDB target_version (Some rs) (Some es) (Some fs)
       (entry_indices_v0 ++ [composite_index]).

(** The backup restore scenario: an open database with an empty feed
    store, [{feedID: 5}] in the local backup, [{feedID: 9}] in the synced
    one. *)
Definition restore_scenario : World :=
  mkWorld (db_v30 Store.empty Store.empty Store.empty) true []
          [sample_feed (PNum (Fin 5)) PUndef]
          [sample_feed (PNum (Fin 9)) PUndef] [].

(** The feeds reachable from folder nodes along parent to child: a folder
    node itself, and every feed whose parent is reachable. *)
Inductive reachable (fs : list Feed.t) (roots : list prim) : prim -> Prop :=
| reach_root (n : prim) : In n roots -> reachable fs roots n
| reach_child (f : Feed.t) :
    In f fs -> reachable fs roots (Feed.parent f) ->
    reachable fs roots (Feed.feedID f).

(** The filters of [_filters] on feeds other than the folder expansion:
    the explicit feed list and the two visibility rules. *)
Definition passes_feed_filters (q : Query) (f : Feed.t) : bool :=
  match q_feeds q with
  | Some feeds => includes feeds (Feed.feedID f)
  | None => q_includeHiddenFeeds q || negb (truthy (Feed.hidden f))
  end
  && (q_includeFeedsExcludedFromGlobalViews q
      || negb (truthy (Feed.omitInUnread f))).

(** The feed tree A -> B -> C of the folder scenario: ids 1, 2 and 3. *)
Definition feed_chain : list Feed.t :=
  [sample_feed (PNum (Fin 1)) PNull;
   sample_feed (PNum (Fin 2)) (PNum (Fin 1));
   sample_feed (PNum (Fin 3)) (PNum (Fin 2))].

Definition chain_rank (p : prim) : nat :=
  match p with
  | PNum (Fin 3) => 0
  | PNum (Fin 2) => 1
  | PNum (Fin 1) => 2
  | _ => 3
  end.

(** A query by folders that shows hidden feeds too. *)
Definition folder_query (folders : list prim) : Query :=
  mkQuery None (Some folders) None FUndef PUndef FUndef PUndef None None None
          (Some (Fin 0)) PUndef (PStr "desc") true true.

(** The loop of the folder expansion, started with [top] on top of
    [stack], pops all of [top] and what it pushes, and comes back to
    [stack] having appended [visited] to [nodes]; [visited] is what is
    reachable from [top]. *)
Definition unwinds (fs : list Feed.t) (top : list prim) : Prop :=
  forall stack acc,
  exists k visited,
    (forall fuel,
        traverse (k + fuel) (build_children_map fs) (stack ++ top) acc
        = traverse fuel (build_children_map fs) stack (acc ++ visited))
    /\ (forall x, In x visited <-> reachable fs top x).

(** The sample scenario of the specification: one feed, an unread entry 1
    and a read entry 2, both undeleted, stored with the 0/1 encoding; the
    database is at version 30 and not yet opened. *)
Definition scenario_entries : Store.t Entry.t :=
  Store.mk [(Store.KInt 1, sample_entry 1 (PNum (Fin 0)));
            (Store.KInt 2, sample_entry 2 (PNum (Fin 1)))] 3.

Definition scenario_feeds : Store.t Feed.t :=
  Store.mk [(Store.KInt 1, sample_feed (PNum (Fin 1)) PNull)] 2.

Definition scenario : World :=
  mkWorld (db_v30 Store.empty scenario_entries scenario_feeds) false [] [] [] [].

(** Queries of the scenario: [{read: false}], [{}] and
    [{read: false, deleted: false}]. *)
Definition query_unread : Query :=
  mkQuery None None None (FBool false) PUndef FUndef PUndef None None None
          (Some (Fin 0)) PUndef (PStr "desc") false true.

Definition query_unread_undeleted : Query :=
  mkQuery None None None (FBool false) PUndef (FBool false) PUndef None None
          None (Some (Fin 0)) PUndef (PStr "desc") false true.

(** [{sortOrder: 'title'}]. *)
Definition query_by_title : Query :=
  mkQuery None None None FUndef PUndef FUndef PUndef None None None
          (Some (Fin 0)) (PStr "title") (PStr "desc") false true.

(** The sort of a query is one [count] refuses. *)
Definition bad_sort (q : Query) : Prop :=
  (q_sortOrder q <> PUndef /\ q_sortOrder q <> PStr "date")
  \/ q_sortDirection q <> PStr "desc".

(** An event that opens an index cursor or reads an entry record. *)
Definition reads_entries (ev : event) : bool :=
  match ev with
  | EvUpgradeReadEntry _ | EvIndexCursorOpen | EvCursorReadEntry _ => true
  | _ => false
  end.

(** A database left at version 10 (entry stores, no feed store) holding
    one entry whose [read] is still a boolean; not yet opened. *)
Definition disk_v10 : DB :=
  mkDB 10 (Some Store.empty)
       (Some (Store.mk [(Store.KInt 1, sample_entry 1 (PBool false))] 2))
       None entry_indices_v0.

Definition world_v10 : World := mkWorld disk_v10 false [] [] [] [].

(** No conversion of strings to numbers is needed where no date is a
    string. *)
Definition no_string_dates : string -> num := fun _ => NaN.

(** The number of records among [rs] that the filter function accepts. *)
Definition matching (f : Entry.t -> bool) (rs : list (Store.key * Entry.t)) : Z :=
  Z.of_nat (List.length (filter (fun r => f (snd r)) rs)).

(** An open database whose one entry has no date: unread, undeleted, in
    feed 1. *)
Definition undated_entry : Entry.t :=
  Entry.mk (PNum (Fin 1)) (PNum (Fin 1)) (PNum (Fin 0)) PUndef PUndef
           [""%string] (PNum (Fin 0)) PUndef PUndef PUndef PUndef PUndef
           [PNum (Fin 1)] false.

Definition world_undated : World :=
  mkWorld (db_v30 Store.empty (Store.mk [(Store.KInt 1, undated_entry)] 2)
                  scenario_feeds)
          true [sample_feed (PNum (Fin 1)) PNull] [] [] [].

(** [{read: false, deleted: false, limit: 10}]. *)
Definition query_limit_10 : Query :=
  mkQuery None None None (FBool false) PUndef (FBool false) PUndef None None
          (Some (Fin 10)) (Some (Fin 0)) PUndef (PStr "desc") false true.

(** The scenario database, already open, and a page of it:
    [{read: 0, deleted: false, limit: 1, offset: 0}]. *)
Definition scenario_open : World :=
  mkWorld (db_v30 Store.empty scenario_entries scenario_feeds) true
          [sample_feed (PNum (Fin 1)) PNull] [] [] [].

Definition query_page : Query :=
  mkQuery None None None (FNum (Fin 0)) PUndef (FBool false) PUndef None None
          (Some (Fin 1)) (Some (Fin 0)) PUndef (PStr "desc") false true.

(** An open database whose entry stores hold what [putEntries] wrote for
    one entry without tags, and the query
    [{read: false, deleted: false, tags: ['']}]. *)
Definition world_untagged : World :=
  let st := after (putEntries [sample_orig (PNum (Fin 1)) (VPrim PUndef)]
                              None empty_stores) in
  mkWorld (db_v30 (fst st) (snd st) scenario_feeds) true
          [sample_feed (PNum (Fin 1)) PNull] [] [] [].

Definition query_untagged : Query :=
  mkQuery None None (Some [""%string]) (FBool false) PUndef (FBool false)
          PUndef None None None (Some (Fin 0)) PUndef (PStr "desc") false true.

(** ** The other methods of [Database] *)

(** [store.delete(k)]: the record under [k] goes, if there is one. *)
Definition delete_key {R : Type} (k : Store.key) (s : Store.t R) : Store.t R :=
  Store.mk (filter (fun kr => negb (Store.key_eqb k (fst kr))) (Store.records s))
           (Store.keygen s).

(** A deletion placed on a transaction. *)
Inductive del_request : Type :=
| DelRevision (k : Store.key)
| DelEntry (k : Store.key).

(** [for(let entry of entries) { revisions.delete(entry);
    entries.delete(entry) }]: [delete] refuses what is not a valid key
    (DataError), which leaves the loop. *)
Fixpoint delete_loop (ids : list prim) (tx : list del_request)
  : list del_request * option exn :=
  match ids with
  | [] => (tx, None)
  | i :: rest =>
      match Store.to_key i with
      | Some k => delete_loop rest (tx ++ [DelRevision k; DelEntry k])
      | None => (tx, Some DataError)
      end
  end.

Definition apply_del (q : del_request) (st : stores) : stores :=
  match q with
  | DelRevision k => (delete_key k (fst st), snd st)
  | DelEntry k => (fst st, delete_key k (snd st))
  end.

(** The backend runs the deletions in order; [io_fail] as in
    [run_queue]. *)
Fixpoint run_del_queue (tx : list del_request) (n : nat) (io_fail : option nat)
    (st : stores) : option stores :=
  match tx with
  | [] => Some st
  | q :: rest =>
      if match io_fail with Some k => Nat.eqb k n | None => false end
      then None
      else run_del_queue rest (S n) io_fail (apply_del q st)
  end.

(** [deleteEntries(entries)]: the argument is the list of ids. *)
Definition deleteEntries (ids : list prim) (io_fail : option nat)
    (st : stores) : outcome :=
  let '(tx, raised) := delete_loop ids [] in
  match run_del_queue tx 0 io_fail st with
  | Some st' => mkOutcome raised st'
  | None =>
      mkOutcome (match raised with Some x => Some x | None => Some BackendError end)
                st
  end.

(** [clearEntries()]: two [clear] requests on one transaction. *)
Definition clearEntries (io_fail : option nat) (st : stores) : outcome :=
  if match io_fail with Some k => Nat.ltb k 2 | None => false end
  then mkOutcome (Some BackendError) st
  else mkOutcome None (Store.clear (fst st), Store.clear (snd st)).

(** [listEntries()]: the keys of the entry store, in key order. *)
Definition listEntries (st : stores) : list prim :=
  map Store.of_key (Store.getAllKeys (snd st)).

(** [pieces.join(', ')]. *)
Fixpoint join_comma_space (pieces : list string) : string :=
  match pieces with
  | [] => EmptyString
  | [p] => p
  | p :: rest => (p ++ ", " ++ join_comma_space rest)%string
  end.

(** The pair of deletions [deleteEntries] queues for a key. *)
Definition del_pair (k : Store.key) : list del_request :=
  [DelRevision k; DelEntry k].

(** The database on disk with another version number. *)
Definition set_version (v : Z) (d : DB) : DB :=
  mkDB v (revisions d) (entries d) (feeds d) (indices d).

(** A feed field that is not [null]. *)
Definition no_null_field (f : Feed.t) : Prop :=
  Feed.feedID f <> PNull /\ Feed.parent f <> PNull /\ Feed.hidden f <> PNull
  /\ Feed.omitInUnread f <> PNull /\ Feed.title f <> PNull
  /\ Feed.url f <> PNull /\ Feed.favicon f <> PNull.

(** The exception [_putEntry] raises on an entry it does not accept. *)
Definition raised_by (o : Orig.t) : exn :=
  match tags_split (Orig.tags o) with
  | None => TypeError
  | Some _ => DataError
  end.

(** What the scan of [count] makes of an offset and of a limit: passing
    records are skipped while [offset > 0], so an offset that is NaN or
    not positive skips none and an infinite one skips all; the scan stops
    on [limit <= 0], so a limit that is NaN never stops it. [None] is
    "without bound". *)
Definition effective_offset (o : num) : option Z :=
  match o with
  | NaN => Some 0
  | Fin z => Some (Z.max 0 z)
  | PInf => None
  end.

Definition effective_limit (l : num) : option Z :=
  match l with
  | NaN => None
  | Fin z => Some (Z.max 0 z)
  | PInf => None
  end.

(** The size of the page of [m] passing records. *)
Definition paged (o l : option Z) (m : Z) : Z :=
  match o, l with
  | None, _ => 0
  | Some o, None => Z.max 0 (m - o)
  | Some o, Some l => Z.min l (Z.max 0 (m - o))
  end.

(** The records a queue writes to the revision store and to the entry
    store, in order. *)
Fixpoint revisions_of (tx : transaction) : list Revision.t :=
  match tx with
  | [] => []
  | PutRevision r :: rest => r :: revisions_of rest
  | PutEntry _ :: rest => revisions_of rest
  end.

Fixpoint entries_of (tx : transaction) : list Entry.t :=
  match tx with
  | [] => []
  | PutRevision _ :: rest => entries_of rest
  | PutEntry e :: rest => e :: entries_of rest
  end.

(** [put] of a list of records, one after the other. *)
Fixpoint put_all {R : Type} (own : bool) (get_key : R -> prim)
    (set_key : R -> prim -> R)
    (rs : list R) (s : Store.t R) : option (Store.t R) :=
  match rs with
  | [] => Some s
  | r :: rest =>
      match Store.put own get_key set_key r s with
      | Some s' => put_all own get_key set_key rest s'
      | None => None
      end
  end.

(** One of the records has the key [k]. *)
Definition writes_key {R : Type} (get_key : R -> prim) (k : Store.key)
    (rs : list R) : bool :=
  existsb (fun r => match Store.to_key (get_key r) with
                    | Some k' => Store.key_eqb k k'
                    | None => false
                    end) rs.

(** The backup restore scenario with nothing in the local backup: the
    list is recovered from the synced backup, [{feedID: 9}]. *)
Definition restore_scenario_sync : World :=
  mkWorld (db_v30 Store.empty Store.empty Store.empty) true []
          [] [sample_feed (PNum (Fin 9)) PUndef] [].

(** An entry of the feed [f]: unread, undeleted, dated 100, untagged. *)
Definition entry_in_feed (i f : Z) : Entry.t :=
  Entry.mk (PNum (Fin i)) (PNum (Fin f)) (PNum (Fin 0)) PUndef PUndef
           [""%string] (PNum (Fin 0)) PUndef PUndef PUndef PUndef
           (PNum (Fin 100)) [PNum (Fin i)] false.

(** The folder scenario as a database: the feed tree A -> B -> C (ids 1,
    2, 3) with one entry in each feed; open, the feed list loaded. *)
Definition tree_entries : Store.t Entry.t :=
  Store.mk [(Store.KInt 1, entry_in_feed 1 1);
            (Store.KInt 2, entry_in_feed 2 2);
            (Store.KInt 3, entry_in_feed 3 3)] 4.

Definition tree_feeds : Store.t Feed.t :=
  Store.mk [(Store.KInt 1, sample_feed (PNum (Fin 1)) PNull);
            (Store.KInt 2, sample_feed (PNum (Fin 2)) (PNum (Fin 1)));
            (Store.KInt 3, sample_feed (PNum (Fin 3)) (PNum (Fin 2)))] 4.

Definition world_tree : World :=
  mkWorld (db_v30 Store.empty tree_entries tree_feeds) true feed_chain
          [] [] [].

(** [{folders: [...], read: false, deleted: false}]. *)
Definition folder_query_flags (folders : list prim) : Query :=
  mkQuery None (Some folders) None (FBool false) PUndef (FBool false) PUndef
          None None None (Some (Fin 0)) PUndef (PStr "desc") true true.

(** * Properties *)

(** ** [split] *)

Example split_empty : JS.split_comma_space "" = [""%string].
Proof. reflexivity. Qed.

Example split_two : JS.split_comma_space "a, bc,d, " = ["a"; "bc,d"; ""]%string.
Proof. reflexivity. Qed.

(** ** Keys and stores *)

Lemma string_compare_refl (s : string) : String.compare s s = Eq.
Proof.
  pose proof (String.compare_antisym s s) as H.
  destruct (String.compare s s); simpl in H; congruence.
Qed.

Lemma key_compare_refl (k : Store.key) : Store.key_compare k k = Eq.
Proof.
  destruct k; simpl; auto using Z.compare_refl, string_compare_refl.
Qed.

Lemma key_compare_eq (a b : Store.key) : Store.key_compare a b = Eq -> a = b.
Proof.
  destruct a, b; simpl; try discriminate; auto.
  - intros H. apply Z.compare_eq in H. now subst.
  - intros H. apply String.compare_eq_iff in H. now subst.
Qed.

Lemma key_eqb_refl (k : Store.key) : Store.key_eqb k k = true.
Proof. unfold Store.key_eqb. now rewrite key_compare_refl. Qed.

Lemma key_eqb_eq (a b : Store.key) : Store.key_eqb a b = true <-> a = b.
Proof.
  unfold Store.key_eqb. split.
  - destruct (Store.key_compare a b) eqn:E; try discriminate.
    intros _. now apply key_compare_eq.
  - intros ->. now rewrite key_compare_refl.
Qed.

Lemma key_eqb_neq (a b : Store.key) : Store.key_eqb a b = false <-> a <> b.
Proof.
  split.
  - intros H E. apply key_eqb_eq in E. congruence.
  - intros H. destruct (Store.key_eqb a b) eqn:E; auto.
    apply key_eqb_eq in E. contradiction.
Qed.

Lemma to_key_of_key (k : Store.key) : Store.to_key (Store.of_key k) = Some k.
Proof. now destruct k. Qed.

Lemma of_key_to_key (p : prim) (k : Store.key) :
  Store.to_key p = Some k -> Store.of_key k = p.
Proof.
  destruct p as [| |b|[]|]; simpl; intros H; inversion H; reflexivity.
Qed.

Section StoreFacts.
Context {R : Type}.

Lemma lookup_insert_same (k : Store.key) (r : R) (l : list (Store.key * R)) :
  Store.lookup k (Store.insert k r l) = Some r.
Proof.
  induction l as [|[k' r'] l IH]; simpl.
  - now rewrite key_eqb_refl.
  - destruct (Store.key_compare k k') eqn:E; simpl.
    + now rewrite key_eqb_refl.
    + now rewrite key_eqb_refl.
    + unfold Store.key_eqb at 1. now rewrite E.
Qed.

Lemma lookup_insert_other (k k0 : Store.key) (r : R) (l : list (Store.key * R)) :
  k <> k0 -> Store.lookup k (Store.insert k0 r l) = Store.lookup k l.
Proof.
  intros Hne. induction l as [|[k' r'] l IH]; simpl.
  - apply key_eqb_neq in Hne. now rewrite Hne.
  - destruct (Store.key_compare k0 k') eqn:E; simpl.
    + apply key_compare_eq in E. subst k'.
      apply key_eqb_neq in Hne. now rewrite Hne.
    + apply key_eqb_neq in Hne. now rewrite Hne.
    + now rewrite IH.
Qed.

Lemma in_insert (x : Store.key * R) (k : Store.key) (r : R)
    (l : list (Store.key * R)) :
  In x (Store.insert k r l) -> x = (k, r) \/ In x l.
Proof.
  induction l as [|[k' r'] l IH]; simpl.
  - intros [H|[]]; auto.
  - destruct (Store.key_compare k k'); simpl.
    + intros [H|H]; auto.
    + intros [H|[H|H]]; auto.
    + intros [H|H]; auto. destruct (IH H); auto.
Qed.

End StoreFacts.

(** ** Schema migration *)

Lemma set_read_same (e : Entry.t) : Entry.set_read e (Entry.read e) = e.
Proof. now destruct e. Qed.

Lemma rewrite_read_twice (e : Entry.t) :
  rewrite_read (rewrite_read e) = rewrite_read e.
Proof.
  unfold rewrite_read. destruct e; simpl.
  destruct (truthy read); reflexivity.
Qed.

(** C9. The rewrite of the [read] field in the migration is idempotent:
    an entry whose [read] is already 0 or 1 is left as it is, and running
    the rewrite over a store a second time gives exactly the records of
    the first run. *)
Theorem read_rewrite_idempotent (s : Store.t Entry.t) (e : Entry.t)
    (H : Entry.read e = PNum (Fin 0) \/ Entry.read e = PNum (Fin 1)) :
  rewrite_read e = e
  /\ rewrite_store (rewrite_store s) = rewrite_store s.
Proof.
  split.
  - unfold rewrite_read.
    destruct H as [H|H]; rewrite H; simpl; rewrite <- H; apply set_read_same.
  - unfold rewrite_store; simpl. f_equal.
    rewrite map_map. apply map_ext. intros [k r]; simpl.
    now rewrite rewrite_read_twice.
Qed.

Lemma read_rewrite_idempotent_witness :
  rewrite_read (sample_entry 1 (PNum (Fin 1))) = sample_entry 1 (PNum (Fin 1))
  /\ rewrite_store (rewrite_store
       (Store.mk [(Store.KInt 1, sample_entry 1 (PBool true))] 2))
     = rewrite_store (Store.mk [(Store.KInt 1, sample_entry 1 (PBool true))] 2).
Proof.
  apply (read_rewrite_idempotent
           (Store.mk [(Store.KInt 1, sample_entry 1 (PBool true))] 2)
           (sample_entry 1 (PNum (Fin 1)))).
  right. reflexivity.
Defined.

(** C2, as stated, fails: from version 5 no step runs, although the
    labels 10 and 20 are not below 5. *)
Lemma upgrade_steps_version_5 :
  ~ (forall v, 0 <= v < target_version -> upgrade_steps v = steps_not_below v).
Proof.
  intros H. assert (E : 0 <= 5 < target_version) by (unfold target_version; lia).
  specialize (H 5 E). discriminate H.
Qed.

(** C2, amended. When the version on disk is one of the labels 0, 10 and
    20, [upgrade] runs exactly the steps whose label is not below it, in
    increasing order; for any other version it runs no step. *)
Theorem upgrade_steps_fallthrough (v : Z) :
  (v = 0 \/ v = 10 \/ v = 20 -> upgrade_steps v = steps_not_below v)
  /\ (v <> 0 -> v <> 10 -> v <> 20 -> upgrade_steps v = []).
Proof.
  split.
  - intros [->|[->| ->]]; reflexivity.
  - intros H0 H10 H20. unfold upgrade_steps, cases; simpl.
    apply Z.eqb_neq in H0, H10, H20. now rewrite H0, H10, H20.
Qed.

Lemma upgrade_steps_fallthrough_witness :
  upgrade_steps 10 = [CreateFeedStore; IndexAndRewrite]
  /\ upgrade_steps 7 = [].
Proof.
  split.
  - rewrite (proj1 (upgrade_steps_fallthrough 10)); [reflexivity|].
    right; left; reflexivity.
  - apply (proj2 (upgrade_steps_fallthrough 7)); discriminate.
Defined.

(** ** Writing entries *)

Lemma split_go_nonempty (s cur : string) : split_go cur s <> [].
Proof.
  revert cur. induction s as [|c s IH]; intros cur; simpl.
  - discriminate.
  - destruct s as [|c' rest]; [discriminate|].
    destruct (Ascii.eqb c "," && Ascii.eqb c' " ")%bool; [discriminate|].
    apply IH.
Qed.

Lemma tags_split_nonempty (v : value) (tags : list string) :
  tags_split v = Some tags -> tags <> [].
Proof.
  unfold tags_split, split_comma_space. destruct v as [p|a]; [|discriminate].
  destruct (truthy p).
  - destruct p; try discriminate. intros H; inversion H.
    apply split_go_nonempty.
  - intros H; inversion H. discriminate.
Qed.

Lemma _putEntry_queue (o : Orig.t) (tx tx' : transaction) (x : option exn) :
  _putEntry o tx = (tx', x) ->
  forall q, In q tx' ->
    In q tx \/ q = PutRevision (revision_of o)
    \/ exists tags, tags_split (Orig.tags o) = Some tags
                    /\ q = PutEntry (entry_of o tags).
Proof.
  unfold _putEntry. destruct (tags_split (Orig.tags o)) as [tags|] eqn:Et.
  - destruct (Store.put_accepts true Revision.id (revision_of o)).
    + destruct (Store.put_accepts true Entry.id (entry_of o tags));
        intros H; inversion H; subst; intros q Hq;
        repeat (apply in_app_or in Hq; destruct Hq as [Hq|Hq]); auto;
        destruct Hq as [Hq|[]]; subst; eauto.
    + intros H; inversion H; subst; auto.
  - intros H; inversion H; subst; auto.
Qed.

Lemma put_loop_tags (es : list Orig.t) :
  forall tx tx' x,
    put_loop es tx = (tx', x) ->
    (forall e, In (PutEntry e) tx -> Entry.tags e <> []) ->
    forall e, In (PutEntry e) tx' -> Entry.tags e <> [].
Proof.
  induction es as [|o es IH]; simpl; intros tx tx' x H Htx e He.
  - inversion H; subst. auto.
  - destruct (_putEntry o tx) as [tx1 [y|]] eqn:Ep.
    + inversion H; subst.
      destruct (_putEntry_queue _ _ _ _ Ep _ He) as [Hq|[Hq|[tags [Ht Hq]]]];
        [auto | discriminate |].
      inversion Hq; subst; simpl. eapply tags_split_nonempty; eauto.
    + eapply IH; eauto. intros e' He'.
      destruct (_putEntry_queue _ _ _ _ Ep _ He') as [Hq|[Hq|[tags [Ht Hq]]]];
        [auto | discriminate |].
      inversion Hq; subst; simpl. eapply tags_split_nonempty; eauto.
Qed.

Lemma put_entry_records (e : Entry.t) (s s' : Store.t Entry.t) :
  Store.put true Entry.id Entry.set_id e s = Some s' ->
  forall k r, In (k, r) (Store.records s') ->
    In (k, r) (Store.records s) \/ Entry.tags r = Entry.tags e.
Proof.
  unfold Store.put. intros H k r Hin.
  destruct (Entry.id e) eqn:Ei.
  - discriminate.
  - discriminate.
  - discriminate.
  - destruct (Store.to_key (PNum n)); [|discriminate].
    inversion H; subst; simpl in Hin.
    apply in_insert in Hin. destruct Hin as [Hin|Hin]; auto.
    inversion Hin; subst. now right.
  - destruct (Store.to_key (PStr s0)); [|discriminate].
    inversion H; subst; simpl in Hin.
    apply in_insert in Hin. destruct Hin as [Hin|Hin]; auto.
    inversion Hin; subst. now right.
Qed.

Lemma run_queue_records (tx : transaction) :
  forall n io st st',
    run_queue tx n io st = Some st' ->
    forall k r, In (k, r) (Store.records (snd st')) ->
      In (k, r) (Store.records (snd st))
      \/ exists e, In (PutEntry e) tx /\ Entry.tags r = Entry.tags e.
Proof.
  induction tx as [|q tx IH]; simpl; intros n io st st' H k r Hin.
  - inversion H; subst. auto.
  - destruct (match io with Some k0 => Nat.eqb k0 n | None => false end);
      [discriminate|].
    destruct (apply_request q st) as [st1|] eqn:Ea; [|discriminate].
    destruct (IH _ _ _ _ H _ _ Hin) as [Hin1|[e [He Ht]]].
    + destruct q as [rv|e]; simpl in Ea.
      * destruct (Store.put true Revision.id Revision.set_id rv (fst st));
          [|discriminate].
        inversion Ea; subst; simpl in Hin1. auto.
      * destruct (Store.put true Entry.id Entry.set_id e (snd st)) as [s1|] eqn:Ep;
          [|discriminate].
        inversion Ea; subst; simpl in Hin1.
        destruct (put_entry_records _ _ _ Ep _ _ Hin1); eauto.
    + right. exists e. auto.
Qed.

Lemma max_generated_eq : Store.max_generated = 9007199254740992.
Proof. reflexivity. Qed.

Section PutFacts.
Context {R : Type}.
Variable own : bool.
Variable get_key : R -> prim.
Variable set_key : R -> prim -> R.

Lemma put_explicit (r : R) (s : Store.t R) (k : Store.key) :
  Store.to_key (get_key r) = Some k ->
  exists s', Store.put own get_key set_key r s = Some s'
             /\ Store.get k s' = Some r /\ safe k (Store.keygen s').
Proof.
  intros Hk. unfold Store.put.
  destruct (get_key r) eqn:Eg; try discriminate; rewrite Hk;
    eexists; (split; [reflexivity|]);
    unfold Store.get; simpl; (split; [apply lookup_insert_same|]).
  - destruct n; inversion Hk; subst; simpl; auto.
    destruct (Store.keygen s <=? z) eqn:El.
    + destruct (Z.min_spec z Store.max_generated) as [[? ->]|[? ->]]; lia.
    + apply Z.leb_gt in El. lia.
  - inversion Hk; subst; simpl; auto.
Qed.

Lemma safe_bump (k k' : Store.key) (g : Z) :
  safe k g -> safe k (Store.bump k' g).
Proof.
  destruct k as [z| |]; simpl; auto.
  intros Hs. destruct k' as [z'| |]; simpl; auto.
  - destruct (g <=? z') eqn:El; auto.
    apply Z.leb_le in El.
    destruct (Z.min_spec z' Store.max_generated) as [[? ->]|[? ->]]; lia.
  - pose proof max_generated_eq. lia.
Qed.

Lemma put_other (r : R) (s s' : Store.t R) (k : Store.key) :
  Store.put own get_key set_key r s = Some s' ->
  safe k (Store.keygen s) ->
  Store.to_key (get_key r) <> Some k ->
  Store.get k s' = Store.get k s /\ safe k (Store.keygen s').
Proof.
  unfold Store.put, Store.get. intros Hp Hs Hne.
  destruct (get_key r) eqn:Eg.
  - destruct own; [discriminate|].
    destruct (Store.keygen s <=? Store.max_generated) eqn:El; [|discriminate].
    apply Z.leb_le in El. inversion Hp; subst; simpl. split.
    + apply lookup_insert_other. intros ->. simpl in Hs. lia.
    + destruct k; simpl in *; auto. lia.
  - discriminate.
  - discriminate.
  - destruct (Store.to_key (PNum n)) as [k'|] eqn:Ek; [|discriminate].
    inversion Hp; subst; simpl. split.
    + apply lookup_insert_other. congruence.
    + now apply safe_bump.
  - destruct (Store.to_key (PStr s0)) as [k'|] eqn:Ek; [|discriminate].
    inversion Hp; subst; simpl. split.
    + apply lookup_insert_other. congruence.
    + now apply safe_bump.
Qed.

End PutFacts.

Lemma run_queue_app (a b : transaction) :
  forall n st,
    run_queue (a ++ b) n None st
    = match run_queue a n None st with
      | Some st' => run_queue b (n + List.length a) None st'
      | None => None
      end.
Proof.
  induction a as [|q a IH]; simpl; intros n st.
  - now rewrite Nat.add_0_r.
  - destruct (apply_request q st) as [st1|]; auto.
    rewrite IH. now rewrite Nat.add_succ_r.
Qed.

Lemma _putEntry_ok (o : Orig.t) (tx tx' : transaction) :
  _putEntry o tx = (tx', None) -> tx' = tx ++ queued o.
Proof.
  unfold _putEntry, queued.
  destruct (tags_split (Orig.tags o)) as [tags|]; [|discriminate].
  destruct (Store.put_accepts true Revision.id (revision_of o)); [|discriminate].
  destruct (Store.put_accepts true Entry.id (entry_of o tags)); [|discriminate].
  intros H; inversion H. now rewrite <- app_assoc.
Qed.

Lemma put_loop_ok (es : list Orig.t) :
  forall tx tx',
    put_loop es tx = (tx', None) -> tx' = tx ++ flat_map queued es.
Proof.
  induction es as [|o es IH]; simpl; intros tx tx' H.
  - inversion H. now rewrite app_nil_r.
  - destruct (_putEntry o tx) as [tx1 [x|]] eqn:Ep; [discriminate|].
    apply _putEntry_ok in Ep. subst tx1.
    rewrite (IH _ _ H). now rewrite <- app_assoc.
Qed.

(** Both records of an entry stay in place while the writes that follow
    go to other keys. *)
Lemma run_queue_keeps (k : Store.key) (r : Revision.t) (e : Entry.t)
    (tx : transaction) :
  forall n st st',
    (forall q, In q tx -> Store.to_key (request_id q) <> Some k) ->
    run_queue tx n None st = Some st' ->
    Store.get k (fst st) = Some r -> safe k (Store.keygen (fst st)) ->
    Store.get k (snd st) = Some e -> safe k (Store.keygen (snd st)) ->
    Store.get k (fst st') = Some r /\ Store.get k (snd st') = Some e.
Proof.
  induction tx as [|q tx IH]; simpl; intros n st st' Hne H Hr Hsr He Hse.
  - inversion H; subst. auto.
  - destruct (apply_request q st) as [st1|] eqn:Ea; [|discriminate].
    assert (Hq : Store.to_key (request_id q) <> Some k) by (apply Hne; auto).
    destruct q as [r'|e']; simpl in Ea, Hq.
    + destruct (Store.put true Revision.id Revision.set_id r' (fst st)) as [s1|] eqn:Ep;
        [|discriminate].
      inversion Ea; subst.
      destruct (put_other _ _ _ _ _ _ k Ep Hsr Hq) as [Hg Hs'].
      eapply IH; eauto; simpl; congruence.
    + destruct (Store.put true Entry.id Entry.set_id e' (snd st)) as [s1|] eqn:Ep;
        [|discriminate].
      inversion Ea; subst.
      destruct (put_other _ _ _ _ _ _ k Ep Hse Hq) as [Hg Hs'].
      eapply IH; eauto; simpl; congruence.
Qed.

Lemma queued_ids (o : Orig.t) (q : request) :
  In q (queued o) -> request_id q = Orig.id o.
Proof.
  unfold queued. destruct (tags_split (Orig.tags o)); [|intros []].
  intros [<-|[<-|[]]]; reflexivity.
Qed.

Lemma put_loop_accepts (es : list Orig.t) :
  forall tx tx',
    put_loop es tx = (tx', None) ->
    forall o, In o es -> exists tags, tags_split (Orig.tags o) = Some tags.
Proof.
  induction es as [|o0 es IH]; simpl; intros tx tx' H o Ho; [contradiction|].
  destruct (_putEntry o0 tx) as [tx1 [x|]] eqn:Ep; [discriminate|].
  destruct Ho as [->|Ho]; [|eauto].
  unfold _putEntry in Ep.
  destruct (tags_split (Orig.tags o)) as [tags|]; [eauto|discriminate].
Qed.

(** C3, as stated, fails: the [tags] field read back is the array made by
    [split], never the value that was given. *)
Lemma putEntries_tags_differ :
  ~ (forall (es : list Orig.t) (st : stores) (o : Orig.t) (k : Store.key),
        In o es -> Store.to_key (Orig.id o) = Some k ->
        rejected (putEntries es None st) = None ->
        exists e r,
          Store.get k (snd (after (putEntries es None st))) = Some e
          /\ Store.get k (fst (after (putEntries es None st))) = Some r
          /\ entry_fields_equal o e /\ revision_fields_equal o r).
Proof.
  intros H.
  destruct (H [sample_orig (PNum (Fin 1)) (VPrim (PStr "a, b"))] empty_stores
              (sample_orig (PNum (Fin 1)) (VPrim (PStr "a, b")))
              (Store.KInt 1) (or_introl eq_refl) eq_refl eq_refl)
    as (e & r & _ & _ & He & _).
  destruct He as (_ & _ & _ & _ & _ & Ht & _). discriminate Ht.
Qed.

(** C3, amended. When [putEntries] resolves, an entry of the batch whose
    id is a valid key, and is not the id of a later entry of the batch, is
    read back by that id as the records [_putEntry] built: the Revision
    record has the [REVISION_FIELDS] of the input, the Entry record has
    the [ENTRY_FIELDS] of the input except [tags], and its [tags] is the
    array [(tags || '').split(', ')]. *)
Theorem put_get_roundtrip (before later : list Orig.t) (o : Orig.t)
    (k : Store.key) (st : stores) :
  rejected (putEntries (before ++ o :: later) None st) = None ->
  Store.to_key (Orig.id o) = Some k ->
  (forall o', In o' later -> Orig.id o' <> Orig.id o) ->
  exists tags e r,
    tags_split (Orig.tags o) = Some tags
    /\ Store.get k (snd (after (putEntries (before ++ o :: later) None st)))
       = Some e
    /\ Store.get k (fst (after (putEntries (before ++ o :: later) None st)))
       = Some r
    /\ entry_fields_equal_but_tags o e /\ Entry.tags e = tags
    /\ revision_fields_equal o r.
Proof.
  intros Hres Hk Hlater. unfold putEntries in *.
  destruct (put_loop (before ++ o :: later) []) as [tx raised] eqn:El.
  destruct (run_queue tx 0 None st) as [st'|] eqn:Er;
    [|destruct raised; discriminate].
  simpl in Hres. subst raised. simpl.
  destruct (put_loop_accepts _ _ _ El o) as [tags Ht];
    [apply in_or_app; right; left; reflexivity|].
  apply put_loop_ok in El. simpl in El. subst tx.
  rewrite flat_map_app in Er. simpl in Er.
  rewrite run_queue_app in Er.
  destruct (run_queue (flat_map queued before) 0 None st) as [st1|];
    [|discriminate].
  unfold queued at 1 in Er. rewrite Ht in Er.
  cbn [app run_queue apply_request] in Er.
  destruct (put_explicit true Revision.id Revision.set_id (revision_of o)
                         (fst st1) k Hk) as (s2 & Hp2 & Hg2 & Hs2).
  rewrite Hp2 in Er. cbn [option_map fst snd] in Er.
  destruct (put_explicit true Entry.id Entry.set_id (entry_of o tags)
                         (snd st1) k Hk) as (s3 & Hp3 & Hg3 & Hs3).
  rewrite Hp3 in Er. cbn [option_map fst snd] in Er.
  exists tags, (entry_of o tags), (revision_of o).
  assert (Hne : forall q, In q (flat_map queued later) ->
                          Store.to_key (request_id q) <> Some k).
  { intros q Hq. apply in_flat_map in Hq. destruct Hq as (o' & Ho' & Hq).
    rewrite (queued_ids _ _ Hq). intros Hc.
    apply (Hlater o' Ho').
    apply of_key_to_key in Hc. apply of_key_to_key in Hk. congruence. }
  destruct (run_queue_keeps k (revision_of o) (entry_of o tags) _ _ _ _
                            Hne Er Hg2 Hs2 Hg3 Hs3) as [Hr He].
  repeat split; auto.
Qed.

Lemma put_get_roundtrip_witness :
  exists tags e r,
    tags_split (VPrim (PStr "a, b")) = Some tags
    /\ Store.get (Store.KInt 1)
         (snd (after (putEntries
            ([] ++ sample_orig (PNum (Fin 1)) (VPrim (PStr "a, b"))
                :: [sample_orig (PNum (Fin 2)) (VPrim PUndef)]) None empty_stores)))
       = Some e
    /\ Store.get (Store.KInt 1)
         (fst (after (putEntries
            ([] ++ sample_orig (PNum (Fin 1)) (VPrim (PStr "a, b"))
                :: [sample_orig (PNum (Fin 2)) (VPrim PUndef)]) None empty_stores)))
       = Some r
    /\ entry_fields_equal_but_tags
         (sample_orig (PNum (Fin 1)) (VPrim (PStr "a, b"))) e
    /\ Entry.tags e = tags
    /\ revision_fields_equal
         (sample_orig (PNum (Fin 1)) (VPrim (PStr "a, b"))) r.
Proof.
  apply (put_get_roundtrip [] [sample_orig (PNum (Fin 2)) (VPrim PUndef)]
           (sample_orig (PNum (Fin 1)) (VPrim (PStr "a, b")))
           (Store.KInt 1) empty_stores).
  - reflexivity.
  - reflexivity.
  - intros o' [<-|[]]. discriminate.
Defined.

(** When the loop of [putEntries] raises nothing, the batch is all or
    nothing: either every queued write is applied, or a write the backend
    fails aborts the transaction and the stores are what they were. *)
Lemma putEntries_without_exception (es : list Orig.t) (io : option nat)
    (st : stores) :
  snd (put_loop es []) = None ->
  (rejected (putEntries es io st) = None
   /\ run_queue (flat_map queued es) 0 io st
      = Some (after (putEntries es io st)))
  \/ (rejected (putEntries es io st) = Some BackendError
      /\ after (putEntries es io st) = st).
Proof.
  unfold putEntries. destruct (put_loop es []) as [tx raised] eqn:El.
  simpl. intros ->. apply put_loop_ok in El. simpl in El. subst tx.
  destruct (run_queue (flat_map queued es) 0 io st); simpl; auto.
Qed.

(** C8 on a batch whose second entry makes [_putEntry] raise: the call is
    rejected, yet both records of the first entry are written and none of
    the second, so part of the batch is visible. The same happens when
    [put] refuses the key of the second entry. *)
Theorem putEntries_partial_batch :
  rejected (putEntries batch_with_array_tags None empty_stores) = Some TypeError
  /\ Store.get (Store.KInt 1)
       (snd (after (putEntries batch_with_array_tags None empty_stores)))
     = Some (entry_of (sample_orig (PNum (Fin 1)) (VPrim (PStr "a"))) ["a"%string])
  /\ Store.get (Store.KInt 1)
       (fst (after (putEntries batch_with_array_tags None empty_stores)))
     = Some (revision_of (sample_orig (PNum (Fin 1)) (VPrim (PStr "a"))))
  /\ Store.get (Store.KInt 2)
       (snd (after (putEntries batch_with_array_tags None empty_stores)))
     = None
  /\ after (putEntries batch_with_array_tags None empty_stores) <> empty_stores
  /\ rejected (putEntries batch_with_null_id None empty_stores) = Some DataError
  /\ after (putEntries batch_with_null_id None empty_stores) <> empty_stores.
Proof.
  repeat split; try reflexivity; compute; discriminate.
Qed.

(** What [putEntries] leaves under the id of an entry of the batch that
    no later entry of the batch overwrites. *)
Lemma putEntries_reads_back (before later : list Orig.t) (o : Orig.t)
    (k : Store.key) (st : stores) :
  rejected (putEntries (before ++ o :: later) None st) = None ->
  Store.to_key (Orig.id o) = Some k ->
  (forall o', In o' later -> Orig.id o' <> Orig.id o) ->
  exists tags,
    tags_split (Orig.tags o) = Some tags
    /\ Store.get k (snd (after (putEntries (before ++ o :: later) None st)))
       = Some (entry_of o tags)
    /\ Store.get k (fst (after (putEntries (before ++ o :: later) None st)))
       = Some (revision_of o).
Proof.
  intros Hres Hk Hlater. unfold putEntries in *.
  destruct (put_loop (before ++ o :: later) []) as [tx raised] eqn:El.
  destruct (run_queue tx 0 None st) as [st'|] eqn:Er;
    [|destruct raised; discriminate].
  simpl in Hres. subst raised. simpl.
  destruct (put_loop_accepts _ _ _ El o) as [tags Ht];
    [apply in_or_app; right; left; reflexivity|].
  apply put_loop_ok in El. simpl in El. subst tx.
  rewrite flat_map_app in Er. simpl in Er.
  rewrite run_queue_app in Er.
  destruct (run_queue (flat_map queued before) 0 None st) as [st1|];
    [|discriminate].
  unfold queued at 1 in Er. rewrite Ht in Er.
  cbn [app run_queue apply_request] in Er.
  destruct (put_explicit true Revision.id Revision.set_id (revision_of o)
                         (fst st1) k Hk) as (s2 & Hp2 & Hg2 & Hs2).
  rewrite Hp2 in Er. cbn [option_map fst snd] in Er.
  destruct (put_explicit true Entry.id Entry.set_id (entry_of o tags)
                         (snd st1) k Hk) as (s3 & Hp3 & Hg3 & Hs3).
  rewrite Hp3 in Er. cbn [option_map fst snd] in Er.
  exists tags.
  assert (Hne : forall q, In q (flat_map queued later) ->
                          Store.to_key (request_id q) <> Some k).
  { intros q Hq. apply in_flat_map in Hq. destruct Hq as (o' & Ho' & Hq).
    rewrite (queued_ids _ _ Hq). intros Hc.
    apply (Hlater o' Ho').
    apply of_key_to_key in Hc. apply of_key_to_key in Hk. congruence. }
  destruct (run_queue_keeps k (revision_of o) (entry_of o tags) _ _ _ _
                            Hne Er Hg2 Hs2 Hg3 Hs3) as [Hr He].
  auto.
Qed.

(** C10. Every entry record that [putEntries] writes has a non-empty
    [tags] array. When [putEntries] resolves, an entry of the batch whose
    [tags] is undefined, null or the empty string (and whose id is not
    the id of a later entry of the batch) is read back by its id with
    [tags] equal to [['']]. For such a stored entry the tags clause of
    the filter function holds whenever the tag list of the filter
    contains ['']: the filter function accepts the entry as soon as its
    other clauses do. *)
Theorem stored_tags_nonempty (s2n : string -> num) (before later : list Orig.t)
    (o : Orig.t) (k : Store.key) (st : stores) :
  (forall es io k' r,
      In (k', r) (Store.records (snd (after (putEntries es io st)))) ->
      In (k', r) (Store.records (snd st)) \/ Entry.tags r <> [])
  /\ (rejected (putEntries (before ++ o :: later) None st) = None ->
      Store.to_key (Orig.id o) = Some k ->
      (forall o', In o' later -> Orig.id o' <> Orig.id o) ->
      Orig.tags o = VPrim PUndef \/ Orig.tags o = VPrim PNull
      \/ Orig.tags o = VPrim (PStr "") ->
      exists e,
        Store.get k (snd (after (putEntries (before ++ o :: later) None st)))
        = Some e
        /\ Entry.tags e = [""%string]
        /\ forall filters tags,
             f_tags (entry filters) = Some tags -> In ""%string tags ->
             clause_tags filters e = true
             /\ (clause_feeds filters e && clause_read filters e
                 && clause_starred filters e && clause_deleted filters e
                 && clause_start s2n filters e && clause_end s2n filters e
                 = true ->
                 filterFunction s2n filters e = true)).
Proof.
  split.
  - intros es io k' r Hin. unfold putEntries in Hin.
    destruct (put_loop es []) as [tx raised] eqn:El.
    destruct (run_queue tx 0 io st) as [st'|] eqn:Er; simpl in Hin; auto.
    destruct (run_queue_records _ _ _ _ _ Er _ _ Hin) as [H|[e [He Ht]]]; auto.
    right. rewrite Ht.
    eapply put_loop_tags; eauto; intros e' [].
  - intros Hres Hk Hlater Htags.
    destruct (putEntries_reads_back before later o k st Hres Hk Hlater)
      as (tags & Ht & He & _).
    assert (Es : tags_split (Orig.tags o) = Some [""%string])
      by (destruct Htags as [E|[E|E]]; rewrite E; reflexivity).
    assert (tags = [""%string]) by congruence. subst tags.
    exists (entry_of o [""%string]). split; [exact He|]. split; [reflexivity|].
    intros filters tags Hf Hin.
    assert (Hc : clause_tags filters (entry_of o [""%string]) = true).
    { unfold clause_tags. rewrite Hf.
      apply existsb_exists. exists ""%string. split; auto. }
    split; [exact Hc|].
    intros Hothers. unfold filterFunction.
    repeat (apply andb_true_iff in Hothers; destruct Hothers as [Hothers ?]).
    repeat (apply andb_true_iff; split); assumption.
Qed.

Lemma stored_tags_nonempty_witness :
  exists e,
    Store.get (Store.KInt 1)
      (snd (after (putEntries
                     ([] ++ sample_orig (PNum (Fin 1)) (VPrim PNull) :: [])
                     None empty_stores))) = Some e
    /\ Entry.tags e = [""%string]
    /\ filterFunction no_string_dates (filters_with_tags ["news"; ""]%string) e
       = true.
Proof.
  destruct (proj2 (stored_tags_nonempty no_string_dates [] []
                     (sample_orig (PNum (Fin 1)) (VPrim PNull))
                     (Store.KInt 1) empty_stores))
    as (e & He & Ht & Hf).
  - reflexivity.
  - reflexivity.
  - intros o' [].
  - right. left. reflexivity.
  - exists e. split; [exact He|]. split; [exact Ht|].
    destruct (Hf (filters_with_tags ["news"; ""]%string) ["news"; ""]%string
                 eq_refl (or_intror (or_introl eq_refl))) as [_ H].
    apply H. vm_compute in He. inversion He. reflexivity.
Defined.

(** ** The feed list *)

Lemma put_explicit_other {R : Type} (own : bool) (get_key : R -> prim)
    (set_key : R -> prim -> R) (r : R) (s s' : Store.t R) (k k' : Store.key) :
  Store.to_key (get_key r) = Some k' -> k <> k' ->
  Store.put own get_key set_key r s = Some s' ->
  Store.get k s' = Store.get k s.
Proof.
  unfold Store.put, Store.get. intros Hk Hne Hp.
  destruct (get_key r) eqn:Eg; try discriminate;
    rewrite Hk in Hp; inversion Hp; subst; simpl;
    now apply lookup_insert_other.
Qed.

Lemma put_explicit_records {R : Type} (own : bool) (get_key : R -> prim)
    (set_key : R -> prim -> R) (r : R) (s s' : Store.t R) (k' : Store.key) :
  Store.to_key (get_key r) = Some k' ->
  Store.put own get_key set_key r s = Some s' ->
  forall x, In x (Store.records s') -> x = (k', r) \/ In x (Store.records s).
Proof.
  unfold Store.put. intros Hk Hp x Hx.
  destruct (get_key r) eqn:Eg; try discriminate;
    rewrite Hk in Hp; inversion Hp; subst; simpl in Hx;
    now apply in_insert in Hx.
Qed.

Lemma save_queue_all (fs : list Feed.t) :
  (forall f, In f fs -> Store.to_key (Feed.feedID f) <> None) ->
  save_queue fs = (fs, None).
Proof.
  induction fs as [|f fs IH]; simpl; intros H; auto.
  assert (Hf : Store.to_key (Feed.feedID f) <> None) by (apply H; auto).
  assert (Ha : Store.put_accepts false Feed.feedID f = true).
  { unfold Store.put_accepts.
    destruct (Feed.feedID f) as [| |b|[]|]; simpl in *; congruence. }
  rewrite Ha, IH; auto.
Qed.

Lemma run_feed_queue_spec (q : list Feed.t) :
  forall s,
    (forall f, In f q -> Store.to_key (Feed.feedID f) <> None) ->
    NoDup (map Feed.feedID q) ->
    exists s',
      run_feed_queue q s = Some s'
      /\ (forall f, In f q ->
            exists k, Store.to_key (Feed.feedID f) = Some k
                      /\ Store.get k s' = Some f)
      /\ (forall k, (forall f, In f q -> Store.to_key (Feed.feedID f) <> Some k) ->
            Store.get k s' = Store.get k s)
      /\ (forall k f, In (k, f) (Store.records s') ->
            In (k, f) (Store.records s) \/ In f q).
Proof.
  induction q as [|f q IH]; simpl; intros s Hv Hnd.
  - exists s. repeat split; auto. intros f [].
  - assert (Hf : Store.to_key (Feed.feedID f) <> None) by (apply Hv; auto).
    destruct (Store.to_key (Feed.feedID f)) as [k|] eqn:Ek; [clear Hf|congruence].
    destruct (put_explicit false Feed.feedID Feed.set_feedID f s k Ek)
      as (s1 & Hp & Hg & _).
    rewrite Hp. inversion Hnd as [|? ? Hnotin Hnd']; subst.
    destruct (IH s1 (fun g Hg' => Hv g (or_intror Hg')) Hnd')
      as (s' & Hrun & Hget & Hother & Hrec).
    exists s'. split; [exact Hrun|]. split; [|split].
    + intros g [Heq|Hg'].
      * subst g. exists k. split; auto. rewrite Hother; auto.
        intros h Hh Hc. apply Hnotin.
        apply of_key_to_key in Hc. apply of_key_to_key in Ek.
        replace (Feed.feedID f) with (Feed.feedID h) by congruence.
        now apply in_map.
      * auto.
    + intros k0 Hk0. rewrite Hother by (intros g Hg'; apply Hk0; auto).
      eapply put_explicit_other; eauto.
      intros ->. apply (Hk0 f); auto.
    + intros k0 g Hin. destruct (Hrec _ _ Hin) as [Hin1|Hin1]; auto.
      destruct (put_explicit_records _ _ _ _ _ _ _ Ek Hp _ Hin1) as [Hx|Hx]; auto.
      inversion Hx; subst. auto.
Qed.

Lemma length_eqb_nonempty {A : Type} (l : list A) :
  l <> [] -> (List.length l =? 0)%nat = false.
Proof. destruct l; [congruence|reflexivity]. Qed.

(** C6. [loadFeeds] on an empty feed store. With a non-empty local
    backup (of feeds with distinct valid ids) the feed list becomes the
    local backup, the synced backup is not read, and the feed store
    afterwards holds exactly the feeds of the local backup, each under
    its id. With an empty local backup the synced backup is read and
    becomes the feed list; when it is not empty (and its feeds have
    distinct valid ids) it is re-saved in the same way: the feed store
    afterwards holds exactly its feeds. *)
Theorem loadFeeds_restores_backup (w : World) (s : Store.t Feed.t) :
  opened w = true -> feeds (disk w) = Some s -> Store.records s = [] ->
  (local_backup w <> [] ->
   (forall f, In f (local_backup w) -> Store.to_key (Feed.feedID f) <> None) ->
   NoDup (map Feed.feedID (local_backup w)) ->
   _feeds (fst (loadFeeds w)) = local_backup w
   /\ snd (loadFeeds w) = None
   /\ log (fst (loadFeeds w))
      = log w ++ [EvFeedsGetAll; EvLocalGet; EvFeedsSave; EvBackupsSet]
   /\ exists s',
       feeds (disk (fst (loadFeeds w))) = Some s'
       /\ (forall f, In f (local_backup w) ->
             exists k, Store.to_key (Feed.feedID f) = Some k
                       /\ Store.get k s' = Some f)
       /\ (forall k f, In (k, f) (Store.records s') -> In f (local_backup w)))
  /\ (local_backup w = [] ->
      _feeds (fst (loadFeeds w)) = sync_backup w
      /\ In EvSyncGet (log (fst (loadFeeds w))))
  /\ (local_backup w = [] -> sync_backup w <> [] ->
      (forall f, In f (sync_backup w) -> Store.to_key (Feed.feedID f) <> None) ->
      NoDup (map Feed.feedID (sync_backup w)) ->
      _feeds (fst (loadFeeds w)) = sync_backup w
      /\ snd (loadFeeds w) = None
      /\ log (fst (loadFeeds w))
         = log w ++ [EvFeedsGetAll; EvLocalGet; EvSyncGet; EvFeedsSave;
                     EvBackupsSet]
      /\ exists s',
          feeds (disk (fst (loadFeeds w))) = Some s'
          /\ (forall f, In f (sync_backup w) ->
                exists k, Store.to_key (Feed.feedID f) = Some k
                          /\ Store.get k s' = Some f)
          /\ (forall k f, In (k, f) (Store.records s') ->
                In f (sync_backup w))).
Proof.
  intros Ho Hf Hs. split; [|split].
  - intros Hne Hvalid Hnd.
    destruct (run_feed_queue_spec (local_backup w) (Store.clear s) Hvalid Hnd)
      as (s' & Hrun & Hget & _ & Hrec).
    unfold loadFeeds. rewrite Ho, Hf. cbn [negb].
    unfold Store.getAll. rewrite Hs. cbn [map List.length Nat.eqb].
    cbn [emit local_backup]. rewrite (length_eqb_nonempty _ Hne).
    unfold saveFeeds. cbn [emit opened disk negb]. rewrite Ho, Hf. cbn [negb].
    rewrite (save_queue_all _ Hvalid). rewrite Hrun.
    cbn. rewrite <- !app_assoc. cbn.
    repeat split; auto.
    exists s'. repeat split; auto.
    intros k f Hin. destruct (Hrec _ _ Hin) as [[]|H]; auto.
  - intros He. unfold loadFeeds. rewrite Ho, Hf. cbn [negb].
    unfold Store.getAll. rewrite Hs. cbn [map List.length Nat.eqb].
    cbn [emit local_backup]. rewrite He. cbn [List.length Nat.eqb].
    cbn [set_feeds _feeds]. split; [reflexivity|].
    unfold saveFeeds. cbn [emit opened disk negb sync_backup log].
    rewrite Ho, Hf. cbn [negb].
    destruct (save_queue (sync_backup w)) as [q raised].
    destruct (run_feed_queue q (Store.clear s)); [destruct raised|];
      cbn; rewrite <- ?app_assoc; apply in_or_app; right; cbn; auto.
  - intros He Hne Hvalid Hnd.
    destruct (run_feed_queue_spec (sync_backup w) (Store.clear s) Hvalid Hnd)
      as (s' & Hrun & Hget & _ & Hrec).
    unfold loadFeeds. rewrite Ho, Hf. cbn [negb].
    unfold Store.getAll. rewrite Hs. cbn [map List.length Nat.eqb].
    cbn [emit local_backup]. rewrite He. cbn [List.length Nat.eqb].
    cbn [emit sync_backup].
    unfold saveFeeds. cbn [emit opened disk negb]. rewrite Ho, Hf. cbn [negb].
    rewrite (save_queue_all _ Hvalid). rewrite Hrun.
    cbn. rewrite <- !app_assoc. cbn.
    repeat split; auto.
    exists s'. repeat split; auto.
    intros k f Hin. destruct (Hrec _ _ Hin) as [[]|H]; auto.
Qed.

Lemma loadFeeds_restores_backup_witness :
  (_feeds (fst (loadFeeds restore_scenario)) = [sample_feed (PNum (Fin 5)) PUndef]
   /\ exists s',
       feeds (disk (fst (loadFeeds restore_scenario))) = Some s'
       /\ Store.getAll s' = [sample_feed (PNum (Fin 5)) PUndef])
  /\ (_feeds (fst (loadFeeds restore_scenario_sync))
      = [sample_feed (PNum (Fin 9)) PUndef]
      /\ exists s',
          feeds (disk (fst (loadFeeds restore_scenario_sync))) = Some s'
          /\ Store.getAll s' = [sample_feed (PNum (Fin 9)) PUndef]).
Proof.
  split.
  - destruct (proj1 (loadFeeds_restores_backup restore_scenario Store.empty
                       eq_refl eq_refl eq_refl))
      as (Hfeeds & _ & _ & s' & Hs' & _).
    + discriminate.
    + intros f [<-|[]]. discriminate.
    + repeat constructor. intros [].
    + split; [exact Hfeeds|]. exists s'. split; [exact Hs'|].
      vm_compute in Hs'. inversion Hs'. reflexivity.
  - destruct (proj2 (proj2 (loadFeeds_restores_backup restore_scenario_sync
                              Store.empty eq_refl eq_refl eq_refl)))
      as (Hfeeds & _ & _ & s' & Hs' & _).
    + reflexivity.
    + discriminate.
    + intros f [<-|[]]. discriminate.
    + repeat constructor. intros [].
    + split; [exact Hfeeds|]. exists s'. split; [exact Hs'|].
      vm_compute in Hs'. inversion Hs'. reflexivity.
Defined.

(** ** Folder expansion *)

Lemma num_eqb_eq (a b : num) : num_eqb a b = true <-> a = b.
Proof.
  destruct a, b; simpl; split; intros H; try discriminate; auto.
  - apply Z.eqb_eq in H. now subst.
  - inversion H. apply Z.eqb_refl.
Qed.

Lemma same_value_zero_eq (a b : prim) : same_value_zero a b = true <-> a = b.
Proof.
  destruct a, b; simpl; split; intros H; try discriminate; auto.
  - apply Bool.eqb_prop in H. now subst.
  - inversion H. apply Bool.eqb_reflx.
  - apply num_eqb_eq in H. now subst.
  - inversion H. now apply num_eqb_eq.
  - apply String.eqb_eq in H. now subst.
  - inversion H. apply String.eqb_refl.
Qed.

Lemma same_value_zero_neq (a b : prim) : same_value_zero a b = false <-> a <> b.
Proof.
  split.
  - intros H E. apply same_value_zero_eq in E. congruence.
  - intros H. destruct (same_value_zero a b) eqn:E; auto.
    apply same_value_zero_eq in E. contradiction.
Qed.

Lemma includes_In (l : list prim) (x : prim) : includes l x = true <-> In x l.
Proof.
  unfold includes. rewrite existsb_exists. split.
  - intros (y & Hy & E). apply same_value_zero_eq in E. now subst.
  - intros H. exists x. split; auto. now apply same_value_zero_eq.
Qed.

Lemma map_get_set_same (k : prim) (v : list prim) (m : children_map) :
  map_get k (map_set k v m) = Some v.
Proof.
  induction m as [|[k' v'] m IH]; simpl.
  - now rewrite (proj2 (same_value_zero_eq k k) eq_refl).
  - destruct (same_value_zero k' k) eqn:E; simpl; now rewrite E.
Qed.

Lemma map_get_set_other (k k0 : prim) (v : list prim) (m : children_map) :
  k <> k0 -> map_get k (map_set k0 v m) = map_get k m.
Proof.
  intros Hne. induction m as [|[k' v'] m IH]; simpl.
  - assert (E : same_value_zero k0 k = false)
      by (apply same_value_zero_neq; congruence).
    now rewrite E.
  - destruct (same_value_zero k' k0) eqn:E0; simpl.
    + apply same_value_zero_eq in E0. subst k'.
      assert (E : same_value_zero k0 k = false)
        by (apply same_value_zero_neq; congruence).
      now rewrite E.
    + now rewrite IH.
Qed.

(** The children of a node, as the feed list gives them. *)
Lemma children_map_fold (n : prim) (fs : list Feed.t) :
  forall m,
    get_or_empty n
      (fold_left
         (fun m node =>
            map_set (Feed.parent node)
                    (get_or_empty (Feed.parent node) m ++ [Feed.feedID node]) m)
         fs m)
    = get_or_empty n m
      ++ map Feed.feedID
           (filter (fun f => same_value_zero (Feed.parent f) n) fs).
Proof.
  induction fs as [|f fs IH]; simpl; intros m.
  - now rewrite app_nil_r.
  - rewrite IH. destruct (same_value_zero (Feed.parent f) n) eqn:E.
    + apply same_value_zero_eq in E. subst n.
      unfold get_or_empty at 1. rewrite map_get_set_same.
      simpl. now rewrite <- app_assoc.
    + apply same_value_zero_neq in E.
      unfold get_or_empty at 1.
      rewrite map_get_set_other by congruence. reflexivity.
Qed.

Lemma children_spec (fs : list Feed.t) (n c : prim) :
  In c (get_or_empty n (build_children_map fs))
  <-> exists f, In f fs /\ Feed.parent f = n /\ Feed.feedID f = c.
Proof.
  unfold build_children_map. rewrite children_map_fold. simpl.
  rewrite in_map_iff. split.
  - intros (f & Hc & Hf). apply filter_In in Hf. destruct Hf as [Hf E].
    apply same_value_zero_eq in E. eauto.
  - intros (f & Hf & Hp & Hc). exists f. split; auto.
    apply filter_In. split; auto. now apply same_value_zero_eq.
Qed.

Lemma reachable_app (fs : list Feed.t) (a b : list prim) (x : prim) :
  reachable fs (a ++ b) x <-> reachable fs a x \/ reachable fs b x.
Proof.
  split.
  - induction 1 as [n Hn|f Hf Hp IH].
    + apply in_app_or in Hn. destruct Hn; [left|right]; now apply reach_root.
    + destruct IH; [left|right]; now apply reach_child.
  - intros [H|H]; induction H as [n Hn|f Hf Hp IH].
    + apply reach_root. apply in_or_app. auto.
    + now apply reach_child.
    + apply reach_root. apply in_or_app. auto.
    + now apply reach_child.
Qed.

Lemma reachable_node (fs : list Feed.t) (n x : prim) :
  reachable fs [n] x
  <-> x = n \/ reachable fs (get_or_empty n (build_children_map fs)) x.
Proof.
  split.
  - induction 1 as [m Hm|f Hf Hp IH].
    + destruct Hm as [<-|[]]. auto.
    + right. destruct IH as [E|IH].
      * apply reach_root. apply children_spec. eauto.
      * now apply reach_child.
  - intros [->|H].
    + apply reach_root. simpl; auto.
    + induction H as [c Hc|f Hf Hp IH].
      * apply children_spec in Hc. destruct Hc as (f & Hf & Hp & <-).
        apply reach_child; auto. rewrite Hp. apply reach_root. simpl; auto.
      * now apply reach_child.
Qed.

Section Traversal.
Variable fs : list Feed.t.

(** The feed list has no cycle: some rank drops from parent to child. *)
Variable rank : prim -> nat.
Hypothesis rank_drops :
  forall f, In f fs -> (rank (Feed.feedID f) < rank (Feed.parent f))%nat.

Lemma unwinds_nil : unwinds fs [].
Proof.
  intros stack acc. exists 0%nat, []. split.
  - intros fuel. now rewrite !app_nil_r.
  - intros x. split; [intros []|].
    induction 1 as [n []|f Hf Hp IH]; auto.
Qed.

Lemma unwinds_snoc (top : list prim) (n : prim) :
  unwinds fs top -> unwinds fs [n] -> unwinds fs (top ++ [n]).
Proof.
  intros Htop Hn stack acc.
  destruct (Hn (stack ++ top) acc) as (k1 & v1 & Hk1 & Hv1).
  destruct (Htop stack (acc ++ v1)) as (k2 & v2 & Hk2 & Hv2).
  exists (k1 + k2)%nat, (v1 ++ v2). split.
  - intros fuel. rewrite app_assoc, <- Nat.add_assoc, Hk1, Hk2.
    now rewrite app_assoc.
  - intros x. rewrite in_app_iff, reachable_app, Hv1, Hv2. tauto.
Qed.

Lemma unwinds_list (top : list prim) :
  (forall n, In n top -> unwinds fs [n]) -> unwinds fs top.
Proof.
  induction top as [|n top IH] using rev_ind; intros H.
  - apply unwinds_nil.
  - apply unwinds_snoc.
    + apply IH. intros n' Hn'. apply H. apply in_or_app; auto.
    + apply H. apply in_or_app; right; simpl; auto.
Qed.

Lemma unwinds_node (r : nat) :
  forall n, (rank n < r)%nat -> unwinds fs [n].
Proof.
  induction r as [|r IH]; intros n Hr; [lia|].
  assert (Hc : unwinds fs (get_or_empty n (build_children_map fs))).
  { apply unwinds_list. intros c Hc. apply IH.
    apply children_spec in Hc. destruct Hc as (f & Hf & Hp & <-).
    specialize (rank_drops f Hf). rewrite Hp in rank_drops. lia. }
  intros stack acc.
  destruct (Hc stack (acc ++ [n])) as (k & v & Hk & Hv).
  exists (S k), (n :: v). split.
  - intros fuel. simpl. rewrite rev_unit, rev_involutive, Hk.
    now rewrite <- app_assoc.
  - intros x. rewrite reachable_node. simpl. rewrite Hv.
    split; intros [H|H]; auto.
Qed.

Lemma traverse_reachable (folders : list prim) :
  exists fuel nodes,
    traverse fuel (build_children_map fs) folders [] = Some nodes
    /\ (forall more,
          traverse (fuel + more) (build_children_map fs) folders []
          = Some nodes)
    /\ (forall x, In x nodes <-> reachable fs folders x).
Proof.
  assert (H : unwinds fs folders).
  { apply unwinds_list. intros n _. apply (unwinds_node (S (rank n))). lia. }
  destruct (H [] []) as (k & v & Hk & Hv).
  exists (k + 1)%nat, v. split; [|split]; [| |exact Hv].
  - pose proof (Hk 1%nat) as H1. simpl app in H1. now rewrite H1.
  - intros more. pose proof (Hk (1 + more)%nat) as H1. simpl app in H1.
    now rewrite <- Nat.add_assoc, H1.
Qed.

End Traversal.

(** X26. On a feed list without cycles, [_filters] of a query that gives
    folder ids returns, and the feed ids it selects are exactly the ids
    of the feeds reachable from the folder nodes along parent to child
    (the folder nodes included) that also pass the other feed filters of
    the query. The selection is a membership set, so the order in which
    the loop walks the tree does not matter. *)
Theorem folder_expansion (fs : list Feed.t) (rank : prim -> nat) (q : Query)
    (folders : list prim) :
  (forall f, In f fs -> (rank (Feed.feedID f) < rank (Feed.parent f))%nat) ->
  q_folders q = Some folders ->
  q_sortOrder q = PUndef \/ q_sortOrder q = PStr "date" ->
  exists fuel filters q',
    (forall more, _filters (fuel + more) q fs = Some (inl filters, q'))
    /\ (forall x,
          In x (fl_feeds filters)
          <-> exists f, In f fs /\ Feed.feedID f = x
                        /\ reachable fs folders x
                        /\ passes_feed_filters q f = true).
Proof.
  intros Hrank Hfolders Hsort.
  destruct (traverse_reachable fs rank Hrank folders)
    as (fuel & nodes & _ & Hfuel & Hnodes).
  assert (Hs : (negb (strict_eq (q_sortOrder q) PUndef)
                && negb (strict_eq (q_sortOrder q) (PStr "date")))%bool = false)
    by (destruct Hsort as [-> | ->]; reflexivity).
  unfold _filters. rewrite Hfolders.
  assert (Hin : forall f,
             includes nodes (Feed.feedID f) = true
             <-> reachable fs folders (Feed.feedID f)).
  { intros f. now rewrite includes_In, Hnodes. }
  unfold passes_feed_filters.
  destruct (q_feeds q) as [feeds|];
    destruct (q_includeHiddenFeeds q);
    destruct (q_includeFeedsExcludedFromGlobalViews q);
    cbn [negb orb andb];
    eexists fuel, _, _;
    (split; [intros more; rewrite Hfuel, Hs; reflexivity|]);
    intros x; cbn [fl_feeds]; rewrite in_map_iff;
    (split;
     [ intros (f & Hx & Hf);
       repeat (apply filter_In in Hf; destruct Hf as [Hf ?]);
       exists f; subst x; repeat split; auto;
       try (apply Hin; assumption);
       repeat (apply andb_true_iff; split); auto
     | intros (f & Hf & Hx & Hr & Hp);
       exists f; split; [assumption|];
       try (apply andb_true_iff in Hp; destruct Hp as [Hp ?]);
       repeat (apply filter_In; split); auto;
       apply Hin; subst x; assumption ]).
Qed.

Lemma folder_expansion_witness :
  exists fuel filters q',
    (forall more,
        _filters (fuel + more) (folder_query [PNum (Fin 2)]) feed_chain
        = Some (inl filters, q'))
    /\ (forall x,
          In x (fl_feeds filters)
          <-> exists f, In f feed_chain /\ Feed.feedID f = x
                        /\ reachable feed_chain [PNum (Fin 2)] x
                        /\ passes_feed_filters (folder_query [PNum (Fin 2)]) f
                           = true).
Proof.
  apply (folder_expansion feed_chain chain_rank (folder_query [PNum (Fin 2)])
                          [PNum (Fin 2)]).
  - intros f [<-|[<-|[<-|[]]]]; simpl; lia.
  - reflexivity.
  - left. reflexivity.
Defined.

(** The folder scenario on the tree A -> B -> C (ids 1, 2, 3), as far as
    the feed set goes: folder A selects the feeds 1, 2 and 3; folder B
    selects 2 and 3 and not 1. *)
Example folder_scenario :
  option_map (fun r => match fst r with inl fl => fl_feeds fl | inr _ => [] end)
             (_filters 10 (folder_query [PNum (Fin 1)]) feed_chain)
  = Some [PNum (Fin 1); PNum (Fin 2); PNum (Fin 3)]
  /\ option_map (fun r => match fst r with inl fl => fl_feeds fl | inr _ => [] end)
                (_filters 10 (folder_query [PNum (Fin 2)]) feed_chain)
     = Some [PNum (Fin 2); PNum (Fin 3)].
Proof. split; reflexivity. Qed.

(** ** Counting *)

(** The entry filters and the sort of the result of [_filters] are read
    off the query. *)
Lemma _filters_entry_sort (fuel : nat) (q q' : Query) (fs : list Feed.t)
    (filters : Filters) :
  _filters fuel q fs = Some (inl filters, q') ->
  entry filters
  = mkEntryFilter (PNum (to_number (q_read q))) (q_starred q)
                  (PNum (to_number (q_deleted q))) (q_tags q)
  /\ sort filters
     = mkSortFilter (q_sortDirection q) (q_limit q) (q_offset q)
                    (q_startDate q) (q_endDate q).
Proof.
  unfold _filters. intros H.
  destruct (match q_folders q with
            | Some folders => _
            | None => _
            end) as [[active q0]|]; [|discriminate].
  destruct (match q_feeds q with Some feeds => _ | None => _ end) as [a i].
  destruct (negb (strict_eq (q_sortOrder q) PUndef)
            && negb (strict_eq (q_sortOrder q) (PStr "date")))%bool;
    [discriminate|].
  inversion H; subst; clear H. split; reflexivity.
Qed.

(** With [read] or [deleted] left undefined, the unary plus of [_filters]
    makes the filter value NaN, which is neither [undefined] nor equal to
    anything: the filter function rejects every entry. *)
Lemma unspecified_flag_rejects_all (s2n : string -> num) (fuel : nat)
    (q q' : Query) (fs : list Feed.t) (filters : Filters) (e : Entry.t) :
  _filters fuel q fs = Some (inl filters, q') ->
  q_read q = FUndef \/ q_deleted q = FUndef ->
  filterFunction s2n filters e = false.
Proof.
  intros H Hq. destruct (_filters_entry_sort _ _ _ _ _ H) as [He _].
  unfold filterFunction. destruct Hq as [Hq|Hq].
  - assert (E : clause_read filters e = false).
    { unfold clause_read. rewrite He, Hq. cbn. now destruct (Entry.read e). }
    rewrite E. now rewrite !andb_false_r.
  - assert (E : clause_deleted filters e = false).
    { unfold clause_deleted. rewrite He, Hq. cbn.
      now destruct (Entry.deleted e). }
    rewrite E. now rewrite !andb_false_r.
Qed.

(** C7 on the folder scenario (the tree A -> B -> C with one entry in
    each feed). The feed set is expanded as claimed: folder A selects the
    feeds A, B and C, folder B selects B and C. But the query by folder
    leaves [read] and [deleted] undefined, which [_filters] turns into
    NaN, so the filter function rejects every entry: querying by folder A
    counts 0 entries, not the 3 of the feeds A, B and C, and querying by
    folder B counts 0, not 2. Only with [read] and [deleted] given as
    well are the entries of the selected feeds counted, 3 and 2. *)
Theorem folder_query_counts_nothing (s2n : string -> num) :
  option_map (fun r => match fst r with inl fl => fl_feeds fl | inr _ => [] end)
             (_filters 10 (folder_query [PNum (Fin 1)]) (_feeds world_tree))
  = Some [PNum (Fin 1); PNum (Fin 2); PNum (Fin 3)]
  /\ option_map snd (count s2n 10 (folder_query [PNum (Fin 1)]) world_tree)
     = Some (inl 0)
  /\ option_map snd (count s2n 10 (folder_query [PNum (Fin 2)]) world_tree)
     = Some (inl 0)
  /\ option_map snd (count s2n 10 (folder_query_flags [PNum (Fin 1)]) world_tree)
     = Some (inl 3)
  /\ option_map snd (count s2n 10 (folder_query_flags [PNum (Fin 2)]) world_tree)
     = Some (inl 2).
Proof. repeat split; reflexivity. Qed.

(** C1 on the sample scenario (feed 1; entry 1 unread, entry 2 read, both
    undeleted): the query [{read: false}] leaves [deleted] undefined and
    counts 0 entries, and so does the empty query [{}], although entry 1
    is unread; only with [deleted] given too, [{read: false, deleted:
    false}], is entry 1 counted. *)
Theorem count_unspecified_flag (s2n : string -> num) :
  option_map snd (count s2n 1 query_unread scenario) = Some (inl 0)
  /\ option_map snd (count s2n 1 default_query scenario) = Some (inl 0)
  /\ option_map snd (count s2n 1 query_unread_undeleted scenario)
     = Some (inl 1).
Proof. repeat split; reflexivity. Qed.

Lemma strict_eq_undef (p : prim) : strict_eq p PUndef = false <-> p <> PUndef.
Proof. destruct p; simpl; split; congruence. Qed.

Lemma strict_eq_str (p : prim) (s : string) :
  strict_eq p (PStr s) = false <-> p <> PStr s.
Proof.
  destruct p; simpl; split; try congruence.
  - intros H E. inversion E; subst. rewrite String.eqb_refl in H. discriminate.
  - intros H. apply String.eqb_neq. congruence.
Qed.

Lemma _filters_bad_order (fuel : nat) (q q' : Query) (fs : list Feed.t)
    (r : Filters + exn) :
  q_sortOrder q <> PUndef -> q_sortOrder q <> PStr "date" ->
  _filters fuel q fs = Some (r, q') -> r = inr InvalidSortOrder.
Proof.
  intros H1 H2. apply strict_eq_undef in H1. apply strict_eq_str in H2.
  unfold _filters.
  destruct (match q_folders q with
            | Some folders => _
            | None => _
            end) as [[active q0]|]; [|discriminate].
  destruct (match q_feeds q with Some feeds => _ | None => _ end) as [a i].
  rewrite H1, H2. cbn. intros H; inversion H; reflexivity.
Qed.

Lemma _filters_without_folders (fuel : nat) (q : Query) (fs : list Feed.t) :
  q_folders q = None -> _filters fuel q fs <> None.
Proof.
  intros H. unfold _filters. rewrite H.
  destruct (match q_feeds q with Some feeds => _ | None => _ end) as [a i].
  destruct (negb (strict_eq (q_sortOrder q) PUndef)
            && negb (strict_eq (q_sortOrder q) (PStr "date")))%bool;
    discriminate.
Qed.

Lemma _searchEngine_bad_direction (s2n : string -> num) (filters : Filters) :
  direction (sort filters) <> PStr "desc" ->
  _searchEngine s2n filters = inr AscNotSupported.
Proof.
  intros H. apply strict_eq_str in H. unfold _searchEngine. now rewrite H.
Qed.

(** C5, as stated, fails: on a database still at version 10, [count] of a
    query sorted by title first runs [init], whose upgrade reads every
    entry record, and only then raises the error. *)
Lemma count_bad_sort_after_init :
  ~ (forall (s2n : string -> num) (fuel : nat) (q q' : Query) (w w' : World)
            (r : Z + exn),
        bad_sort q -> count s2n fuel q w = Some (w', q', r) ->
        (r = inr InvalidSortOrder \/ r = inr AscNotSupported)
        /\ (forall ev, In ev (log w') -> reads_entries ev = true ->
                       In ev (log w))).
Proof.
  intros H.
  destruct (H no_string_dates 1%nat query_by_title query_by_title world_v10
              (fst (init world_v10)) (inr InvalidSortOrder))
    as [_ Hlog].
  - left. split; discriminate.
  - reflexivity.
  - apply (Hlog (EvUpgradeReadEntry (Store.KInt 1))).
    + vm_compute. auto.
    + reflexivity.
Qed.

(** C5, amended. For a query whose [sortOrder] is defined and not
    ['date'], or whose [sortDirection] is not ['desc'], [count] first
    awaits [init]; whenever it returns it is rejected, and the world is
    then the one [init] left: no index cursor is opened and no entry is
    read by the query. If [init] failed, the rejection is its error;
    otherwise it is the configuration error. On a database that is
    already open [init] does nothing, so the configuration error comes
    before any access to storage. Without folders in the query [count]
    does return. *)
Theorem count_rejects_bad_sort (s2n : string -> num) (fuel : nat) (q : Query)
    (w : World) :
  bad_sort q ->
  (forall w' q' r,
      count s2n fuel q w = Some (w', q', r) ->
      w' = fst (init w)
      /\ ((snd (init w) = None
           /\ (r = inr InvalidSortOrder \/ r = inr AscNotSupported))
          \/ (exists x, snd (init w) = Some x /\ r = inr x))
      /\ (opened w = true ->
          w' = w /\ (r = inr InvalidSortOrder \/ r = inr AscNotSupported)))
  /\ (q_folders q = None -> count s2n fuel q w <> None).
Proof.
  intros Hbad. split.
  - intros w' q' r Hc.
    assert (Hopen : opened w = true -> init w = (w, None))
      by (intros Ho; unfold init; now rewrite Ho).
    unfold count in Hc. destruct (init w) as [w1 [x|]] eqn:Ei; cbn [fst snd].
    + inversion Hc; subst. split; [reflexivity|]. split; [eauto|].
      intros Ho. specialize (Hopen Ho). discriminate.
    + assert (Hr : w' = w1
                   /\ (r = inr InvalidSortOrder \/ r = inr AscNotSupported)).
      { destruct (_filters fuel q (_feeds w1)) as [[[filters|x] q1]|] eqn:Ef;
          [| |discriminate].
        - destruct Hbad as [[H1 H2]|Hd].
          + pose proof (_filters_bad_order _ _ _ _ _ H1 H2 Ef). discriminate.
          + destruct (_filters_entry_sort _ _ _ _ _ Ef) as [_ Hs].
            rewrite (_searchEngine_bad_direction s2n filters) in Hc
              by (rewrite Hs; exact Hd).
            inversion Hc; subst. auto.
        - inversion Hc; subst. split; auto.
          destruct Hbad as [[H1 H2]|Hd].
          + pose proof (_filters_bad_order _ _ _ _ _ H1 H2 Ef) as E.
            inversion E. auto.
          + unfold _filters in Ef.
            destruct (match q_folders q with
                      | Some folders => _
                      | None => _
                      end) as [[active q0]|]; [|discriminate].
            destruct (match q_feeds q with Some feeds => _ | None => _ end)
              as [a i].
            destruct (negb (strict_eq (q_sortOrder q) PUndef)
                      && negb (strict_eq (q_sortOrder q) (PStr "date")))%bool;
              inversion Ef; auto. }
      destruct Hr as [-> Hr]. split; [reflexivity|]. split; [auto|].
      intros Ho. specialize (Hopen Ho). inversion Hopen; subst. auto.
  - intros Hf Hc. unfold count in Hc.
    destruct (init w) as [w1 [x|]]; [discriminate|].
    pose proof (_filters_without_folders fuel q (_feeds w1) Hf) as Hn.
    destruct (_filters fuel q (_feeds w1)) as [[[filters|x] q1]|];
      [|discriminate|congruence].
    destruct (_searchEngine s2n filters) as [[name f]|x]; [|discriminate].
    destruct (entries (disk w1)); [|discriminate].
    destruct (negb (has_index name (disk w1))); discriminate.
Qed.

Lemma count_rejects_bad_sort_witness :
  count no_string_dates 1 query_by_title (set_opened scenario)
  = Some (set_opened scenario, query_by_title, inr InvalidSortOrder)
  /\ count no_string_dates 1 query_by_title (set_opened scenario) <> None.
Proof.
  assert (Hbad : bad_sort query_by_title) by (left; split; discriminate).
  destruct (count_rejects_bad_sort no_string_dates 1 query_by_title
              (set_opened scenario) Hbad) as [H1 H2].
  split; [|apply H2; reflexivity].
  destruct (count no_string_dates 1 query_by_title (set_opened scenario))
    as [[[w' q'] r]|] eqn:Ec; [|discriminate].
  destruct (H1 w' q' r eq_refl) as (_ & _ & Ho).
  destruct (Ho eq_refl) as [-> _].
  vm_compute in Ec. inversion Ec. reflexivity.
Defined.

(** *** Pagination *)

Lemma matching_cons (f : Entry.t -> bool) (k : Store.key) (e : Entry.t)
    (rs : list (Store.key * Entry.t)) :
  matching f ((k, e) :: rs) = (if f e then 1 else 0) + matching f rs.
Proof.
  unfold matching. cbn [filter snd]. destruct (f e); cbn [List.length]; lia.
Qed.

Lemma matching_nonneg (f : Entry.t -> bool) (rs : list (Store.key * Entry.t)) :
  0 <= matching f rs.
Proof. unfold matching. lia. Qed.

Lemma scan_answer_fin (f : Entry.t -> bool) (rs : list (Store.key * Entry.t)) :
  forall o l a c rk,
    0 <= o -> 0 <= l ->
    answer (scan f rs (mkScan (Fin o) (Fin l) a c rk))
    = a + Z.min l (Z.max 0 (matching f rs - o)).
Proof.
  induction rs as [|[k e] rs IH]; intros o l a c rk Ho Hl.
  - cbn. lia.
  - rewrite matching_cons. pose proof (matching_nonneg f rs) as Hm.
    cbn [scan sc_limit sc_offset answer num_leb num_ltb num_pred].
    destruct (l <=? 0) eqn:El.
    + apply Z.leb_le in El. cbn [answer]. lia.
    + apply Z.leb_gt in El. destruct (f e).
      * destruct (0 <? o) eqn:Eo.
        -- apply Z.ltb_lt in Eo. rewrite IH by lia. lia.
        -- apply Z.ltb_ge in Eo. rewrite IH by lia. lia.
      * rewrite IH by lia. lia.
Qed.

Lemma scan_answer_inf (f : Entry.t -> bool) (rs : list (Store.key * Entry.t)) :
  forall o a c rk,
    0 <= o ->
    answer (scan f rs (mkScan (Fin o) PInf a c rk))
    = a + Z.max 0 (matching f rs - o).
Proof.
  induction rs as [|[k e] rs IH]; intros o a c rk Ho.
  - cbn. lia.
  - rewrite matching_cons. pose proof (matching_nonneg f rs) as Hm.
    cbn [scan sc_limit sc_offset answer num_leb num_ltb num_pred].
    destruct (f e).
    + destruct (0 <? o) eqn:Eo.
      * apply Z.ltb_lt in Eo. rewrite IH by lia. lia.
      * apply Z.ltb_ge in Eo. rewrite IH by lia. lia.
    + rewrite IH by lia. lia.
Qed.

(** With [limit <= 0] the callback returns at once: one more callback,
    no record read, no [cursor.continue()]. *)
Lemma scan_stopped (f : Entry.t -> bool) (rs : list (Store.key * Entry.t))
    (s : Scan) :
  num_leb (sc_limit s) (Fin 0) = true ->
  answer (scan f rs s) = answer s
  /\ sc_offset (scan f rs s) = sc_offset s
  /\ sc_limit (scan f rs s) = sc_limit s
  /\ read_keys (scan f rs s) = read_keys s
  /\ (totalCallbacks (scan f rs s) <= S (totalCallbacks s))%nat.
Proof.
  intros H. destruct rs as [|[k e] rs]; cbn [scan].
  - repeat split; auto.
  - rewrite H. cbn. repeat split; auto.
Qed.

(** Records the filter function rejects change neither the answer nor
    what is left of [offset] and [limit]. *)
Lemma scan_skips (f : Entry.t -> bool) (rs : list (Store.key * Entry.t)) :
  forall s1 s2,
    sc_offset s1 = sc_offset s2 -> sc_limit s1 = sc_limit s2 ->
    answer s1 = answer s2 ->
    answer (scan f rs s1)
    = answer (scan (fun _ => true) (filter (fun r => f (snd r)) rs) s2)
    /\ sc_offset (scan f rs s1)
       = sc_offset (scan (fun _ => true) (filter (fun r => f (snd r)) rs) s2)
    /\ sc_limit (scan f rs s1)
       = sc_limit (scan (fun _ => true) (filter (fun r => f (snd r)) rs) s2).
Proof.
  induction rs as [|[k e] rs IH]; intros s1 s2 Ho Hl Ha; cbn [scan filter snd].
  - auto.
  - destruct (f e) eqn:Ef.
    + cbn [scan]. rewrite <- Hl, <- Ho.
      destruct (num_leb (sc_limit s1) (Fin 0)); [cbn; auto|].
      destruct (num_ltb (Fin 0) (sc_offset s1)); apply IH; cbn; congruence.
    + destruct (num_leb (sc_limit s1) (Fin 0)) eqn:El.
      * assert (El2 : num_leb (sc_limit s2) (Fin 0) = true) by congruence.
        destruct (scan_stopped (fun _ => true)
                    (filter (fun r => f (snd r)) rs) s2 El2)
          as (E1 & E2 & E3 & _).
        rewrite E1, E2, E3. cbn. auto.
      * apply IH; cbn; auto.
Qed.

Lemma initial_offset_fin (o : Z) : initial_offset (Some (Fin o)) = Fin o.
Proof.
  unfold initial_offset, truthy. destruct (o =? 0) eqn:E; cbn; auto.
  apply Z.eqb_eq in E. now subst.
Qed.

(** C4, as stated, fails: [count] walks the index on
    [(deleted, read, feedID, date)], which has no record for an entry
    whose [date] is undefined, so a stored entry that satisfies the
    predicate is not counted. *)
Lemma count_misses_unindexed :
  ~ (forall (s2n : string -> num) (fuel : nat) (q q' : Query) (w w' : World)
            (es : Store.t Entry.t) (filters : Filters) (O L : Z) (r : Z + exn),
        opened w = true -> entries (disk w) = Some es ->
        _filters fuel q (_feeds w) = Some (inl filters, q') ->
        q_offset q = Some (Fin O) -> 0 <= O ->
        q_limit q = Some (Fin L) -> 0 <= L ->
        count s2n fuel q w = Some (w', q', r) ->
        r = inl (Z.min L
                   (Z.max 0 (matching (filterFunction s2n filters)
                                      (Store.records es) - O)))).
Proof.
  intros H.
  assert (H0 : (0 <= 0)%Z) by lia. assert (H10 : (0 <= 10)%Z) by lia.
  specialize (H no_string_dates 1%nat query_limit_10 _ world_undated _ _ _
                0 10 _ eq_refl eq_refl eq_refl eq_refl H0 eq_refl H10 eq_refl).
  vm_compute in H. discriminate H.
Qed.

(** C4, amended. On an open database, for a query with offset [O >= 0],
    let [M] be the number of records of the index on
    [(deleted, read, feedID, date)] (the stored entries whose four index
    fields are valid keys) that satisfy the compiled predicate. With
    limit [L >= 0], [count] returns [min L (max 0 (M - O))]; with no
    limit it returns [max 0 (M - O)]. Records failing the predicate
    consume neither offset nor limit: the scan gives the same answer and
    leaves the same offset and limit as a scan of the passing records
    alone. A callback that finds [limit <= 0] returns without reading the
    record and without advancing the cursor. *)
Theorem count_pagination (s2n : string -> num) (fuel : nat) (q q' : Query)
    (w : World) (es : Store.t Entry.t) (filters : Filters) (O : Z) :
  opened w = true -> entries (disk w) = Some es ->
  has_index composite_index (disk w) = true ->
  _filters fuel q (_feeds w) = Some (inl filters, q') ->
  q_sortDirection q = PStr "desc" ->
  q_offset q = Some (Fin O) -> 0 <= O ->
  (forall L, q_limit q = Some (Fin L) -> 0 <= L ->
     option_map snd (count s2n fuel q w)
     = Some (inl (Z.min L
                    (Z.max 0 (matching (filterFunction s2n filters)
                                       (index_records es) - O)))))
  /\ (q_limit q = None ->
      option_map snd (count s2n fuel q w)
      = Some (inl (Z.max 0 (matching (filterFunction s2n filters)
                                     (index_records es) - O))))
  /\ (forall rs s,
         answer (scan (filterFunction s2n filters) rs s)
         = answer (scan (fun _ => true)
                        (filter (fun r => filterFunction s2n filters (snd r)) rs) s)
         /\ sc_offset (scan (filterFunction s2n filters) rs s)
            = sc_offset (scan (fun _ => true)
                           (filter (fun r => filterFunction s2n filters (snd r)) rs) s)
         /\ sc_limit (scan (filterFunction s2n filters) rs s)
            = sc_limit (scan (fun _ => true)
                          (filter (fun r => filterFunction s2n filters (snd r)) rs) s))
  /\ (forall rs s,
         num_leb (sc_limit s) (Fin 0) = true ->
         answer (scan (filterFunction s2n filters) rs s) = answer s
         /\ read_keys (scan (filterFunction s2n filters) rs s) = read_keys s
         /\ (totalCallbacks (scan (filterFunction s2n filters) rs s)
             <= S (totalCallbacks s))%nat).
Proof.
  intros Ho He Hi Hf Hd Hoff HO.
  destruct (_filters_entry_sort _ _ _ _ _ Hf) as [_ Hs].
  assert (Hc : option_map snd (count s2n fuel q w)
               = Some (inl (answer (scan (filterFunction s2n filters)
                                         (index_records es)
                                         (mkScan (Fin O)
                                                 (initial_limit (q_limit q))
                                                 0 0 []))))).
  { unfold count, init. rewrite Ho, Hf. unfold _searchEngine.
    rewrite Hs. cbn [sort direction]. rewrite Hd. cbn [strict_eq negb].
    rewrite String.eqb_refl. cbn [negb]. rewrite He, Hi. cbn [negb].
    unfold initial_scan. rewrite Hs. cbn [sort offset limit].
    rewrite Hoff, initial_offset_fin. reflexivity. }
  split; [|split; [|split]].
  - intros L HL HL0. rewrite Hc, HL. cbn [initial_limit].
    rewrite scan_answer_fin by assumption. reflexivity.
  - intros HL. rewrite Hc, HL. cbn [initial_limit].
    rewrite scan_answer_inf by assumption. reflexivity.
  - intros rs s. now apply scan_skips.
  - intros rs s Hl.
    destruct (scan_stopped (filterFunction s2n filters) rs s Hl)
      as (E1 & _ & _ & E4 & E5). auto.
Qed.

Lemma count_pagination_witness :
  option_map snd (count no_string_dates 1 query_page scenario_open)
  = Some (inl 1).
Proof.
  assert (H0 : 0 <= 0) by lia. assert (H1 : 0 <= 1) by lia.
  destruct (count_pagination no_string_dates 1 query_page query_page
              scenario_open scenario_entries _ 0
              eq_refl eq_refl eq_refl eq_refl eq_refl eq_refl H0)
    as [Hlimit _].
  rewrite (Hlimit 1 eq_refl H1). vm_compute. reflexivity.
Defined.

(** ** Scenarios *)

(** Opening a fresh database runs the three steps and leaves the three
    stores, empty, with the seven indices of the entry store. *)
Example open_fresh_database :
  upgrade_steps 0 = [CreateEntryStores; CreateFeedStore; IndexAndRewrite]
  /\ open_db fresh_disk = inl (db_v30 Store.empty Store.empty Store.empty).
Proof. split; reflexivity. Qed.

(** Opening the version 10 database creates the feed store and rewrites
    the boolean [read] of its entry to 0. *)
Example open_version_10 :
  match open_db disk_v10 with
  | inl db => option_map Store.getAll (entries db)
              = Some [sample_entry 1 (PNum (Fin 0))]
              /\ option_map Store.getAll (feeds db) = Some []
  | inr _ => False
  end.
Proof. split; reflexivity. Qed.

(** An entry written without tags is counted by a query for the tag ['']. *)
Example count_untagged (s2n : string -> num) :
  option_map snd (count s2n 1 query_untagged world_untagged) = Some (inl 1).
Proof. reflexivity. Qed.

(** * Further properties of the code *)

(** ** [deleteEntries], [clearEntries], [listEntries] *)

Section DeleteFacts.
Context {R : Type}.

Lemma get_delete_same (k : Store.key) (s : Store.t R) :
  Store.get k (delete_key k s) = None.
Proof.
  unfold Store.get, delete_key; simpl.
  induction (Store.records s) as [|[k' r] l IH]; simpl; auto.
  destruct (Store.key_eqb k k') eqn:E; simpl; auto.
  now rewrite E.
Qed.

Lemma get_delete_other (k k0 : Store.key) (s : Store.t R) :
  k <> k0 -> Store.get k (delete_key k0 s) = Store.get k s.
Proof.
  intros Hne. unfold Store.get, delete_key; simpl.
  induction (Store.records s) as [|[k' r] l IH]; simpl; auto.
  destruct (Store.key_eqb k0 k') eqn:E; simpl.
  - apply key_eqb_eq in E. subst k'.
    apply key_eqb_neq in Hne. now rewrite Hne.
  - now rewrite IH.
Qed.

Lemma get_delete_none (k k0 : Store.key) (s : Store.t R) :
  Store.get k s = None -> Store.get k (delete_key k0 s) = None.
Proof.
  intros H. destruct (Store.key_eqb k k0) eqn:E.
  - apply key_eqb_eq in E. subst. apply get_delete_same.
  - apply key_eqb_neq in E. now rewrite get_delete_other.
Qed.

Lemma lookup_none_not_in (k : Store.key) (l : list (Store.key * R)) :
  Store.lookup k l = None -> ~ In k (map fst l).
Proof.
  induction l as [|[k' r] l IH]; simpl; auto.
  destruct (Store.key_eqb k k') eqn:E; [discriminate|].
  intros H [Hk|Hk]; [|now apply IH].
  subst k'. rewrite key_eqb_refl in E. discriminate.
Qed.

Lemma lookup_some_in (k : Store.key) (r : R) (l : list (Store.key * R)) :
  Store.lookup k l = Some r -> In (k, r) l.
Proof.
  induction l as [|[k' r'] l IH]; simpl; [discriminate|].
  destruct (Store.key_eqb k k') eqn:E; auto.
  intros H. inversion H; subst. apply key_eqb_eq in E. subst. auto.
Qed.

End DeleteFacts.

Lemma of_key_injective (a b : Store.key) :
  Store.of_key a = Store.of_key b -> a = b.
Proof.
  intros H. pose proof (to_key_of_key a) as Ha. rewrite H in Ha.
  rewrite to_key_of_key in Ha. congruence.
Qed.

Lemma delete_loop_app (ids : list prim) :
  forall tx, delete_loop ids tx
             = (tx ++ fst (delete_loop ids []), snd (delete_loop ids [])).
Proof.
  induction ids as [|i ids IH]; intros tx; simpl.
  - now rewrite app_nil_r.
  - destruct (Store.to_key i) as [k|]; simpl.
    + rewrite IH. rewrite (IH [DelRevision k; DelEntry k]). simpl.
      now rewrite <- app_assoc.
    + now rewrite app_nil_r.
Qed.

(** The queue of a loop that raised nothing: a pair of deletions for each
    id, all of them valid keys. *)
Lemma delete_loop_ok (ids : list prim) (tx : list del_request) :
  delete_loop ids [] = (tx, None) ->
  exists ks, map Store.to_key ids = map Some ks /\ tx = flat_map del_pair ks.
Proof.
  revert tx. induction ids as [|i ids IH]; simpl; intros tx H.
  - inversion H. exists []. auto.
  - destruct (Store.to_key i) as [k|] eqn:Ek; [|discriminate].
    rewrite delete_loop_app in H. simpl in H.
    destruct (delete_loop ids []) as [tx1 x] eqn:El. simpl in H.
    inversion H; subst.
    destruct (IH tx1 eq_refl) as (ks & Hks & Htx).
    exists (k :: ks). simpl. rewrite Hks, Htx. auto.
Qed.

(** Every deletion in the queue of the loop is for the key of one of the
    ids. *)
Lemma delete_loop_keys (ids : list prim) (tx : list del_request)
    (x : option exn) (q : del_request) :
  delete_loop ids [] = (tx, x) -> In q tx ->
  exists i k, In i ids /\ Store.to_key i = Some k
              /\ (q = DelRevision k \/ q = DelEntry k).
Proof.
  revert tx. induction ids as [|i ids IH]; simpl; intros tx H Hq.
  - inversion H; subst. contradiction.
  - destruct (Store.to_key i) as [k|] eqn:Ek.
    + rewrite delete_loop_app in H. simpl in H.
      destruct (delete_loop ids []) as [tx1 y] eqn:El. simpl in H.
      inversion H; subst.
      destruct Hq as [<-|[<-|Hq]]; [exists i, k; auto ..|].
      destruct (IH tx1 eq_refl Hq) as (i' & k' & Hi & Hk & Hq').
      exists i', k'. auto.
    + inversion H; subst. contradiction.
Qed.

Lemma run_del_queue_other (k : Store.key) (tx : list del_request) :
  forall n io st st',
    (forall q, In q tx -> q <> DelRevision k /\ q <> DelEntry k) ->
    run_del_queue tx n io st = Some st' ->
    Store.get k (fst st') = Store.get k (fst st)
    /\ Store.get k (snd st') = Store.get k (snd st).
Proof.
  induction tx as [|q tx IH]; simpl; intros n io st st' Hq H.
  - inversion H; subst. auto.
  - destruct (match io with Some k0 => Nat.eqb k0 n | None => false end);
      [discriminate|].
    destruct (IH _ _ _ _ (fun q' Hq' => Hq q' (or_intror Hq')) H) as [H1 H2].
    rewrite H1, H2. destruct (Hq q (or_introl eq_refl)) as [Hr He].
    destruct q as [k0|k0]; simpl; split; auto;
      apply get_delete_other; congruence.
Qed.

Lemma run_del_queue_gone (k : Store.key) (tx : list del_request) :
  forall n io st st',
    run_del_queue tx n io st = Some st' ->
    (In (DelRevision k) tx \/ Store.get k (fst st) = None ->
     Store.get k (fst st') = None)
    /\ (In (DelEntry k) tx \/ Store.get k (snd st) = None ->
        Store.get k (snd st') = None).
Proof.
  induction tx as [|q tx IH]; simpl; intros n io st st' H.
  - inversion H; subst. split; intros [[]|E]; auto.
  - destruct (match io with Some k0 => Nat.eqb k0 n | None => false end);
      [discriminate|].
    destruct (IH _ _ _ _ H) as [H1 H2]. split.
    + intros [[E|E]|E]; apply H1; auto; right.
      * subst q. simpl. apply get_delete_same.
      * destruct q; simpl; auto. now apply get_delete_none.
    + intros [[E|E]|E]; apply H2; auto; right.
      * subst q. simpl. apply get_delete_same.
      * destruct q; simpl; auto. now apply get_delete_none.
Qed.

(** X1. When [deleteEntries] resolves, every id it was given is a valid
    key, neither store has a record under it any more, and [listEntries]
    no longer lists it. *)
Theorem deleteEntries_removes (ids : list prim) (io : option nat) (st : stores) :
  rejected (deleteEntries ids io st) = None ->
  forall i, In i ids ->
    exists k,
      Store.to_key i = Some k
      /\ Store.get k (fst (after (deleteEntries ids io st))) = None
      /\ Store.get k (snd (after (deleteEntries ids io st))) = None
      /\ ~ In i (listEntries (after (deleteEntries ids io st))).
Proof.
  unfold deleteEntries. destruct (delete_loop ids []) as [tx raised] eqn:El.
  destruct (run_del_queue tx 0 io st) as [st'|] eqn:Er;
    [|destruct raised; discriminate].
  simpl. intros -> i Hi.
  destruct (delete_loop_ok _ _ El) as (ks & Hks & ->).
  assert (Hk : exists k, Store.to_key i = Some k /\ In k ks).
  { apply (in_map Store.to_key) in Hi. rewrite Hks in Hi.
    apply in_map_iff in Hi. destruct Hi as (k & Hk & Hin). eauto. }
  destruct Hk as (k & Hk & Hin). exists k.
  destruct (run_del_queue_gone k _ _ _ _ _ Er) as [H1 H2].
  assert (Hr : Store.get k (fst st') = None).
  { apply H1. left. apply in_flat_map. exists k. simpl; auto. }
  assert (He : Store.get k (snd st') = None).
  { apply H2. left. apply in_flat_map. exists k. simpl; auto. }
  repeat split; auto.
  unfold listEntries, Store.getAllKeys. rewrite in_map_iff.
  intros (k' & Hk' & Hin').
  rewrite <- Hk' in Hk. rewrite to_key_of_key in Hk. inversion Hk; subst k'.
  now apply (lookup_none_not_in k (Store.records (snd st'))).
Qed.

Lemma deleteEntries_removes_witness :
  exists k,
    Store.to_key (PNum (Fin 1)) = Some k
    /\ Store.get k (fst (after (deleteEntries [PNum (Fin 1)] None
                                  (Store.empty, scenario_entries)))) = None
    /\ Store.get k (snd (after (deleteEntries [PNum (Fin 1)] None
                                  (Store.empty, scenario_entries)))) = None
    /\ ~ In (PNum (Fin 1))
            (listEntries (after (deleteEntries [PNum (Fin 1)] None
                                   (Store.empty, scenario_entries)))).
Proof.
  apply (deleteEntries_removes [PNum (Fin 1)] None
           (Store.empty, scenario_entries)).
  - reflexivity.
  - left. reflexivity.
Defined.

(** X2. Whatever its outcome, [deleteEntries] leaves alone the records
    under every key that is not the key of one of the ids. *)
Theorem deleteEntries_keeps_others (ids : list prim) (io : option nat)
    (st : stores) (k : Store.key) :
  (forall i, In i ids -> Store.to_key i <> Some k) ->
  Store.get k (fst (after (deleteEntries ids io st))) = Store.get k (fst st)
  /\ Store.get k (snd (after (deleteEntries ids io st))) = Store.get k (snd st).
Proof.
  intros Hk. unfold deleteEntries.
  destruct (delete_loop ids []) as [tx raised] eqn:El.
  destruct (run_del_queue tx 0 io st) as [st'|] eqn:Er; simpl; auto.
  apply (run_del_queue_other k tx 0%nat io st st'); auto.
  intros q Hq.
  destruct (delete_loop_keys _ _ _ _ El Hq) as (i & k' & Hi & Hk' & Hq').
  assert (k' <> k) by (intros ->; now apply (Hk i)).
  destruct Hq' as [-> | ->]; split; congruence.
Qed.

Lemma deleteEntries_keeps_others_witness :
  Store.get (Store.KInt 2)
    (snd (after (deleteEntries [PNum (Fin 1)] None
                   (Store.empty, scenario_entries))))
  = Store.get (Store.KInt 2) scenario_entries.
Proof.
  apply (deleteEntries_keeps_others [PNum (Fin 1)] None
           (Store.empty, scenario_entries) (Store.KInt 2)).
  intros i [<-|[]]. discriminate.
Defined.

Lemma delete_loop_invalid (good rest : list prim) (bad : prim) :
  (forall i, In i good -> Store.to_key i <> None) ->
  Store.to_key bad = None ->
  delete_loop (good ++ bad :: rest) []
  = (fst (delete_loop good []), Some DataError)
  /\ snd (delete_loop good []) = None.
Proof.
  intros Hgood Hbad. induction good as [|i good IH]; simpl.
  - now rewrite Hbad.
  - destruct (Store.to_key i) as [k|] eqn:Ek;
      [|exfalso; apply (Hgood i); simpl; auto].
    destruct IH as [IH1 IH2]; [intros j Hj; apply Hgood; simpl; auto|].
    rewrite delete_loop_app, IH1.
    rewrite (delete_loop_app good [DelRevision k; DelEntry k]).
    simpl. auto.
Qed.

(** X3. When one of the ids is not a valid key, [deleteEntries] is
    rejected with a DataError, yet the ids before it are deleted: the
    stores are left as by [deleteEntries] of those ids alone, and no id
    after it is looked at. *)
Theorem deleteEntries_invalid_key (good rest : list prim) (bad : prim)
    (io : option nat) (st : stores) :
  (forall i, In i good -> Store.to_key i <> None) ->
  Store.to_key bad = None ->
  rejected (deleteEntries (good ++ bad :: rest) io st) = Some DataError
  /\ after (deleteEntries (good ++ bad :: rest) io st)
     = after (deleteEntries good io st).
Proof.
  intros Hgood Hbad.
  destruct (delete_loop_invalid good rest bad Hgood Hbad) as [H1 H2].
  unfold deleteEntries. rewrite H1.
  destruct (delete_loop good []) as [tx raised]. simpl in *. subst raised.
  destruct (run_del_queue tx 0 io st); simpl; auto.
Qed.

Lemma deleteEntries_invalid_key_witness :
  rejected (deleteEntries ([PNum (Fin 1)] ++ PUndef :: [PNum (Fin 2)]) None
              (Store.empty, scenario_entries)) = Some DataError
  /\ after (deleteEntries ([PNum (Fin 1)] ++ PUndef :: [PNum (Fin 2)]) None
              (Store.empty, scenario_entries))
     = after (deleteEntries [PNum (Fin 1)] None (Store.empty, scenario_entries)).
Proof.
  apply (deleteEntries_invalid_key [PNum (Fin 1)] [PNum (Fin 2)] PUndef None
           (Store.empty, scenario_entries)).
  - intros i [<-|[]]. discriminate.
  - reflexivity.
Defined.

(** [clearEntries] is all or nothing: either both stores lose every
    record while both key generators keep their number, or the backend
    fails and the stores are what they were. *)
Lemma clearEntries_all_or_nothing (io : option nat) (st : stores) :
  (rejected (clearEntries io st) = None
   /\ Store.records (fst (after (clearEntries io st))) = []
   /\ Store.records (snd (after (clearEntries io st))) = []
   /\ Store.keygen (fst (after (clearEntries io st))) = Store.keygen (fst st)
   /\ Store.keygen (snd (after (clearEntries io st))) = Store.keygen (snd st))
  \/ (rejected (clearEntries io st) = Some BackendError
      /\ after (clearEntries io st) = st).
Proof.
  unfold clearEntries.
  destruct (match io with Some k => Nat.ltb k 2 | None => false end);
    [right|left]; simpl; auto.
Qed.

(** X4. After a [clearEntries] that resolved, [listEntries] is empty and
    [count] of any query on the open database answers 0 whenever it
    answers; the key generators keep their numbers. *)
Theorem clearEntries_then_count (s2n : string -> num) (fuel : nat) (q : Query)
    (w : World) (io : option nat) (st : stores) (fs : Store.t Feed.t) :
  opened w = true ->
  rejected (clearEntries io st) = None ->
  disk w = db_v30 (fst (after (clearEntries io st)))
                  (snd (after (clearEntries io st))) fs ->
  listEntries (after (clearEntries io st)) = []
  /\ Store.keygen (snd (after (clearEntries io st))) = Store.keygen (snd st)
  /\ Store.keygen (fst (after (clearEntries io st))) = Store.keygen (fst st)
  /\ (forall w' q' n, count s2n fuel q w = Some (w', q', inl n) -> n = 0).
Proof.
  intros Ho Hr Hd.
  destruct (clearEntries_all_or_nothing io st)
    as [(_ & H1 & H2 & H3 & H4)|[Hx _]]; [|congruence].
  split; [unfold listEntries, Store.getAllKeys; now rewrite H2|].
  split; [assumption|]. split; [assumption|].
  intros w' q' n Hc. unfold count, init in Hc. rewrite Ho in Hc.
  destruct (_filters fuel q (_feeds w)) as [[[filters|x] q1]|];
    [|discriminate|discriminate].
  destruct (_searchEngine s2n filters) as [[name f]|x]; [|discriminate].
  rewrite Hd in Hc. cbn [entries db_v30] in Hc.
  destruct (negb (has_index name _)); [discriminate|].
  unfold index_records in Hc. rewrite H2 in Hc.
  cbn [rev index_of map scan initial_scan answer] in Hc.
  inversion Hc. reflexivity.
Qed.

Lemma clearEntries_then_count_witness :
  listEntries (after (clearEntries None (Store.empty, scenario_entries))) = []
  /\ option_map snd
       (count no_string_dates 1 query_unread_undeleted
              (mkWorld (db_v30 Store.empty (Store.clear scenario_entries)
                               scenario_feeds) true
                       [sample_feed (PNum (Fin 1)) PNull] [] [] []))
     = Some (inl 0).
Proof.
  destruct (clearEntries_then_count no_string_dates 1 query_unread_undeleted
              (mkWorld (db_v30 Store.empty (Store.clear scenario_entries)
                               scenario_feeds) true
                       [sample_feed (PNum (Fin 1)) PNull] [] [] [])
              None (Store.empty, scenario_entries) scenario_feeds
              eq_refl eq_refl eq_refl) as (H1 & _ & _ & H2).
  split; [exact H1|].
  destruct (count no_string_dates 1 query_unread_undeleted
              (mkWorld (db_v30 Store.empty (Store.clear scenario_entries)
                               scenario_feeds) true
                       [sample_feed (PNum (Fin 1)) PNull] [] [] []))
    as [[[w' q'] [n|x]]|] eqn:E; [|discriminate|discriminate].
  rewrite (H2 w' q' n eq_refl). reflexivity.
Defined.

(** ** More on [putEntries] *)

Lemma put_loop_app (a b : list Orig.t) :
  forall tx,
    put_loop (a ++ b) tx
    = match put_loop a tx with
      | (tx', None) => put_loop b tx'
      | (tx', Some x) => (tx', Some x)
      end.
Proof.
  induction a as [|o a IH]; simpl; intros tx; auto.
  destruct (_putEntry o tx) as [tx1 [x|]]; auto.
Qed.

Lemma _putEntry_raises (o : Orig.t) (tx : transaction) :
  tags_split (Orig.tags o) = None
  \/ Store.put_accepts true Revision.id (revision_of o) = false ->
  _putEntry o tx = (tx, Some (raised_by o)).
Proof.
  unfold _putEntry, raised_by. intros [H|H].
  - now rewrite H.
  - destruct (tags_split (Orig.tags o)); auto. now rewrite H.
Qed.

(** X5. When [_putEntry] raises on an entry of the batch (its tags are
    truthy and not a string, or its id is not a valid key, an undefined
    id included), [putEntries] is rejected with that exception and leaves the
    stores as [putEntries] of the entries before it alone: those are
    written, the entries after it are not looked at. *)
Theorem putEntries_stops_at_exception (good rest : list Orig.t) (bad : Orig.t)
    (io : option nat) (st : stores) :
  snd (put_loop good []) = None ->
  tags_split (Orig.tags bad) = None
  \/ Store.put_accepts true Revision.id (revision_of bad) = false ->
  rejected (putEntries (good ++ bad :: rest) io st) = Some (raised_by bad)
  /\ after (putEntries (good ++ bad :: rest) io st)
     = after (putEntries good io st).
Proof.
  intros Hgood Hbad. unfold putEntries. rewrite put_loop_app.
  destruct (put_loop good []) as [tx raised]. simpl in Hgood. subst raised.
  simpl. rewrite (_putEntry_raises bad tx Hbad).
  destruct (run_queue tx 0 io st); simpl; auto.
Qed.

Lemma putEntries_stops_at_exception_witness :
  rejected (putEntries
              ([sample_orig (PNum (Fin 1)) (VPrim (PStr "a"))]
                 ++ sample_orig (PNum (Fin 2)) (VPrim (PBool true))
                 :: [sample_orig (PNum (Fin 3)) (VPrim PUndef)])
              None empty_stores) = Some TypeError
  /\ after (putEntries
              ([sample_orig (PNum (Fin 1)) (VPrim (PStr "a"))]
                 ++ sample_orig (PNum (Fin 2)) (VPrim (PBool true))
                 :: [sample_orig (PNum (Fin 3)) (VPrim PUndef)])
              None empty_stores)
     = after (putEntries [sample_orig (PNum (Fin 1)) (VPrim (PStr "a"))]
                         None empty_stores).
Proof.
  apply (putEntries_stops_at_exception
           [sample_orig (PNum (Fin 1)) (VPrim (PStr "a"))]
           [sample_orig (PNum (Fin 3)) (VPrim PUndef)]
           (sample_orig (PNum (Fin 2)) (VPrim (PBool true)))
           None empty_stores).
  - reflexivity.
  - left. reflexivity.
Defined.

Lemma put_loop_queue (es : list Orig.t) :
  forall tx tx' x,
    put_loop es tx = (tx', x) ->
    forall q, In q tx' ->
      In q tx \/ exists o, In o es /\ request_id q = Orig.id o.
Proof.
  induction es as [|o es IH]; simpl; intros tx tx' x H q Hq.
  - inversion H; subst. auto.
  - assert (Hstep : forall tx1 y, _putEntry o tx = (tx1, y) ->
                      forall q', In q' tx1 ->
                        In q' tx \/ request_id q' = Orig.id o).
    { intros tx1 y Ep q' Hq'.
      destruct (_putEntry_queue _ _ _ _ Ep _ Hq') as [Hin|[->|(t & _ & ->)]];
        auto. }
    destruct (_putEntry o tx) as [tx1 [y|]] eqn:Ep.
    + inversion H; subst.
      destruct (Hstep _ _ eq_refl _ Hq); eauto.
    + destruct (IH _ _ _ H _ Hq) as [Hin|(o' & Ho' & E)]; eauto.
      destruct (Hstep _ _ eq_refl _ Hin); eauto.
Qed.

Lemma run_queue_other (k : Store.key) (tx : transaction) :
  forall n io st st',
    (forall q, In q tx ->
       exists k', Store.to_key (request_id q) = Some k' /\ k' <> k) ->
    run_queue tx n io st = Some st' ->
    Store.get k (fst st') = Store.get k (fst st)
    /\ Store.get k (snd st') = Store.get k (snd st).
Proof.
  induction tx as [|q tx IH]; simpl; intros n io st st' Hq H.
  - inversion H; subst. auto.
  - destruct (match io with Some k0 => Nat.eqb k0 n | None => false end);
      [discriminate|].
    destruct (apply_request q st) as [st1|] eqn:Ea; [|discriminate].
    destruct (IH _ _ _ _ (fun q' Hq' => Hq q' (or_intror Hq')) H) as [H1 H2].
    rewrite H1, H2.
    destruct (Hq q (or_introl eq_refl)) as (k' & Hk' & Hne).
    destruct q as [r|e]; simpl in Ea, Hk'.
    + destruct (Store.put true Revision.id Revision.set_id r (fst st)) as [s1|] eqn:Ep;
        [|discriminate].
      inversion Ea; subst; simpl. split; auto.
      eapply put_explicit_other; eauto.
    + destruct (Store.put true Entry.id Entry.set_id e (snd st)) as [s1|] eqn:Ep;
        [|discriminate].
      inversion Ea; subst; simpl. split; auto.
      eapply put_explicit_other; eauto.
Qed.

(** X6. Whatever its outcome, [putEntries] of entries whose ids are valid
    keys leaves alone the records under every other key, in both
    stores. *)
Theorem putEntries_keeps_others (es : list Orig.t) (io : option nat)
    (st : stores) (k : Store.key) :
  (forall o, In o es ->
     exists k', Store.to_key (Orig.id o) = Some k' /\ k' <> k) ->
  Store.get k (fst (after (putEntries es io st))) = Store.get k (fst st)
  /\ Store.get k (snd (after (putEntries es io st))) = Store.get k (snd st).
Proof.
  intros Hes. unfold putEntries.
  destruct (put_loop es []) as [tx raised] eqn:El.
  destruct (run_queue tx 0 io st) as [st'|] eqn:Er; simpl; auto.
  apply (run_queue_other k tx 0%nat io st st'); auto.
  intros q Hq.
  destruct (put_loop_queue _ _ _ _ El _ Hq) as [[]|(o & Ho & E)].
  rewrite E. auto.
Qed.

Lemma putEntries_keeps_others_witness :
  Store.get (Store.KInt 2)
    (snd (after (putEntries [sample_orig (PNum (Fin 1)) (VPrim (PStr "a"))]
                            None (Store.empty, scenario_entries))))
  = Store.get (Store.KInt 2) scenario_entries.
Proof.
  apply (putEntries_keeps_others
           [sample_orig (PNum (Fin 1)) (VPrim (PStr "a"))] None
           (Store.empty, scenario_entries) (Store.KInt 2)).
  intros o [<-|[]]. exists (Store.KInt 1). split; [reflexivity|discriminate].
Defined.

Lemma put_own_key {R : Type} (get_key : R -> prim) (set_key : R -> prim -> R)
    (r : R) (s s' : Store.t R) :
  Store.put true get_key set_key r s = Some s' ->
  exists k, Store.to_key (get_key r) = Some k.
Proof.
  unfold Store.put. destruct (get_key r) as [| |b|n|str]; try discriminate.
  - destruct (Store.to_key (PNum n)); [eauto|discriminate].
  - destruct (Store.to_key (PStr str)); [eauto|discriminate].
Qed.

Lemma run_queue_keys (tx : transaction) :
  forall n io st st',
    run_queue tx n io st = Some st' ->
    (forall k r, In (k, r) (Store.records (fst st')) ->
       In (k, r) (Store.records (fst st))
       \/ Store.to_key (Revision.id r) = Some k)
    /\ (forall k e, In (k, e) (Store.records (snd st')) ->
          In (k, e) (Store.records (snd st))
          \/ Store.to_key (Entry.id e) = Some k).
Proof.
  induction tx as [|q tx IH]; simpl; intros n io st st' H.
  - inversion H; subst. auto.
  - destruct (match io with Some k0 => Nat.eqb k0 n | None => false end);
      [discriminate|].
    destruct (apply_request q st) as [st1|] eqn:Ea; [|discriminate].
    destruct (IH _ _ _ _ H) as [H1 H2].
    destruct q as [r0|e0]; simpl in Ea.
    + destruct (Store.put true Revision.id Revision.set_id r0 (fst st))
        as [s1|] eqn:Ep; [|discriminate].
      inversion Ea; subst; simpl in *. split; auto.
      intros k r Hin. destruct (H1 _ _ Hin) as [Hin1|Hk]; auto.
      destruct (put_own_key _ _ _ _ _ Ep) as (k0 & Hk0).
      destruct (put_explicit_records _ _ _ _ _ _ _ Hk0 Ep _ Hin1) as [Hx|Hx];
        auto.
      inversion Hx; subst. auto.
    + destruct (Store.put true Entry.id Entry.set_id e0 (snd st))
        as [s1|] eqn:Ep; [|discriminate].
      inversion Ea; subst; simpl in *. split; auto.
      intros k e Hin. destruct (H2 _ _ Hin) as [Hin1|Hk]; auto.
      destruct (put_own_key _ _ _ _ _ Ep) as (k0 & Hk0).
      destruct (put_explicit_records _ _ _ _ _ _ _ Hk0 Ep _ Hin1) as [Hx|Hx];
        auto.
      inversion Hx; subst. auto.
Qed.

Lemma put_loop_ids (es : list Orig.t) :
  forall tx tx',
    put_loop es tx = (tx', None) ->
    forall o, In o es -> Orig.id o <> PUndef.
Proof.
  induction es as [|o0 es IH]; simpl; intros tx tx' H o Ho; [contradiction|].
  destruct (_putEntry o0 tx) as [tx1 [x|]] eqn:Ep; [discriminate|].
  destruct Ho as [->|Ho]; [|eauto].
  unfold _putEntry in Ep.
  destruct (tags_split (Orig.tags o)) as [tags|]; [|discriminate].
  unfold Store.put_accepts in Ep. cbn [revision_of Revision.id] in Ep.
  intros E. rewrite E in Ep. discriminate.
Qed.

(** X7. [putEntries] never stores a record under a key of its own
    making: every record it leaves in either store was there before or
    lies under the key that is its own id. [_putEntry] always sets the
    [id] property of both records, so an entry given without an id is not
    given one by a key generator: such an entry anywhere in the batch
    makes the call fail. *)
Theorem putEntries_keys_are_ids (es : list Orig.t) (io : option nat)
    (st : stores) :
  (forall k e,
      In (k, e) (Store.records (snd (after (putEntries es io st)))) ->
      In (k, e) (Store.records (snd st))
      \/ Store.to_key (Entry.id e) = Some k)
  /\ (forall k r,
        In (k, r) (Store.records (fst (after (putEntries es io st)))) ->
        In (k, r) (Store.records (fst st))
        \/ Store.to_key (Revision.id r) = Some k)
  /\ (forall o, In o es -> Orig.id o = PUndef ->
        rejected (putEntries es io st) <> None).
Proof.
  unfold putEntries. destruct (put_loop es []) as [tx raised] eqn:El.
  destruct (run_queue tx 0 io st) as [st'|] eqn:Er; simpl.
  - destruct (run_queue_keys _ _ _ _ _ Er) as [H1 H2].
    split; [exact H2|]. split; [exact H1|].
    intros o Ho Hid Hr. subst raised.
    now apply (put_loop_ids _ _ _ El o Ho).
  - split; [auto|]. split; [auto|].
    intros o Ho Hid. destruct raised; discriminate.
Qed.

Lemma putEntries_keys_are_ids_witness :
  rejected (putEntries [sample_orig (PNum (Fin 1)) (VPrim (PStr "a"));
                        sample_orig PUndef (VPrim (PStr "b"))]
                       None empty_stores) <> None
  /\ (In (Store.KInt 1,
           entry_of (sample_orig (PNum (Fin 1)) (VPrim (PStr "a"))) ["a"%string])
          (Store.records (snd empty_stores))
      \/ Store.to_key
           (Entry.id (entry_of (sample_orig (PNum (Fin 1)) (VPrim (PStr "a")))
                               ["a"%string]))
         = Some (Store.KInt 1)).
Proof.
  destruct (putEntries_keys_are_ids
              [sample_orig (PNum (Fin 1)) (VPrim (PStr "a"));
               sample_orig PUndef (VPrim (PStr "b"))] None empty_stores)
    as (H1 & _ & H3).
  split.
  - apply (H3 (sample_orig PUndef (VPrim (PStr "b"))));
      [right; left|]; reflexivity.
  - apply H1. vm_compute. left. reflexivity.
Defined.

Lemma put_keeps_present {R : Type} (own : bool) (get_key : R -> prim)
    (set_key : R -> prim -> R) (r : R) (s s' : Store.t R) (k : Store.key) :
  Store.put own get_key set_key r s = Some s' ->
  Store.get k s <> None -> Store.get k s' <> None.
Proof.
  unfold Store.put, Store.get. intros Hp Hk.
  assert (Hins : forall k0 r0,
             Store.lookup k (Store.insert k0 r0 (Store.records s)) <> None).
  { intros k0 r0. destruct (Store.key_eqb k k0) eqn:E.
    - apply key_eqb_eq in E. subst. rewrite lookup_insert_same. discriminate.
    - apply key_eqb_neq in E. now rewrite lookup_insert_other. }
  destruct (get_key r).
  - destruct own; [discriminate|].
    destruct (Store.keygen s <=? Store.max_generated); [|discriminate].
    inversion Hp; subst; simpl. apply Hins.
  - discriminate.
  - discriminate.
  - destruct (Store.to_key (PNum n)); [|discriminate].
    inversion Hp; subst; simpl. apply Hins.
  - destruct (Store.to_key (PStr s0)); [|discriminate].
    inversion Hp; subst; simpl. apply Hins.
Qed.

Lemma run_queue_present (k : Store.key) (tx : transaction) :
  forall n io st st',
    run_queue tx n io st = Some st' ->
    (exists e, In (PutEntry e) tx /\ Store.to_key (Entry.id e) = Some k)
    \/ Store.get k (snd st) <> None ->
    Store.get k (snd st') <> None.
Proof.
  induction tx as [|q tx IH]; simpl; intros n io st st' H Hk.
  - inversion H; subst. destruct Hk as [(e & [] & _)|Hk]; auto.
  - destruct (match io with Some k0 => Nat.eqb k0 n | None => false end);
      [discriminate|].
    destruct (apply_request q st) as [st1|] eqn:Ea; [|discriminate].
    apply (IH _ _ _ _ H).
    destruct Hk as [(e & [He|He] & Hke)|Hk].
    + right. subst q. simpl in Ea.
      destruct (put_explicit true Entry.id Entry.set_id e (snd st) k Hke)
        as (s1 & Hp & Hg & _).
      rewrite Hp in Ea. inversion Ea; subst; simpl. congruence.
    + left. eauto.
    + right. destruct q as [r|e]; simpl in Ea.
      * destruct (Store.put true Revision.id Revision.set_id r (fst st));
          [|discriminate].
        inversion Ea; subst; simpl. auto.
      * destruct (Store.put true Entry.id Entry.set_id e (snd st)) as [s1|] eqn:Ep;
          [|discriminate].
        inversion Ea; subst; simpl. eapply put_keeps_present; eauto.
Qed.

Lemma get_some_listed (k : Store.key) (st : stores) :
  Store.get k (snd st) <> None -> In (Store.of_key k) (listEntries st).
Proof.
  unfold Store.get, listEntries, Store.getAllKeys. intros H.
  destruct (Store.lookup k (Store.records (snd st))) as [r|] eqn:E;
    [|congruence].
  apply lookup_some_in in E. apply in_map.
  apply (in_map fst) in E. exact E.
Qed.

(** X8. When [putEntries] resolves, [listEntries] lists the id of every
    entry of the batch whose id is a valid key, and it still lists every
    id it listed before. *)
Theorem putEntries_then_list (es : list Orig.t) (st : stores) :
  rejected (putEntries es None st) = None ->
  (forall o k, In o es -> Store.to_key (Orig.id o) = Some k ->
     In (Orig.id o) (listEntries (after (putEntries es None st))))
  /\ (forall i, In i (listEntries st) ->
        In i (listEntries (after (putEntries es None st)))).
Proof.
  unfold putEntries. destruct (put_loop es []) as [tx raised] eqn:El.
  destruct (run_queue tx 0 None st) as [st'|] eqn:Er;
    [|destruct raised; discriminate].
  simpl. intros ->. split.
  - intros o k Ho Hk.
    destruct (put_loop_accepts _ _ _ El o Ho) as [tags Ht].
    rewrite <- (of_key_to_key _ _ Hk). apply get_some_listed.
    apply (run_queue_present k tx 0%nat None st st' Er).
    left. exists (entry_of o tags). split; [|exact Hk].
    apply put_loop_ok in El. simpl in El. subst tx.
    apply in_flat_map. exists o. split; auto.
    unfold queued. rewrite Ht. simpl; auto.
  - intros i Hi. unfold listEntries, Store.getAllKeys in Hi.
    apply in_map_iff in Hi. destruct Hi as (k & <- & Hk).
    apply get_some_listed.
    apply (run_queue_present k tx 0%nat None st st' Er). right.
    unfold Store.get. intros Hn.
    now apply (lookup_none_not_in k (Store.records (snd st))).
Qed.

Lemma putEntries_then_list_witness :
  In (PNum (Fin 7))
     (listEntries (after (putEntries [sample_orig (PNum (Fin 7)) (VPrim PNull)]
                                     None (Store.empty, scenario_entries))))
  /\ In (PNum (Fin 2))
        (listEntries (after (putEntries [sample_orig (PNum (Fin 7)) (VPrim PNull)]
                                        None (Store.empty, scenario_entries)))).
Proof.
  destruct (putEntries_then_list [sample_orig (PNum (Fin 7)) (VPrim PNull)]
              (Store.empty, scenario_entries) eq_refl) as [H1 H2].
  split.
  - apply (H1 (sample_orig (PNum (Fin 7)) (VPrim PNull)) (Store.KInt 7));
      [left|]; reflexivity.
  - apply H2. right. left. reflexivity.
Defined.

(** ** Opening and upgrading the database *)

Lemma has_index_appended (d : DB) (name : string) (r : option (Store.t Revision.t))
    (e : option (Store.t Entry.t)) (f : option (Store.t Feed.t)) (v : Z) :
  has_index name (mkDB v r e f (indices d ++ [name])) = true.
Proof.
  unfold has_index; simpl. rewrite existsb_app. simpl.
  rewrite String.eqb_refl. now rewrite orb_true_r.
Qed.

Lemma rewrite_store_reads (s : Store.t Entry.t) (k : Store.key) (e : Entry.t) :
  In (k, e) (Store.records (rewrite_store s)) ->
  Entry.read e = PNum (Fin 0) \/ Entry.read e = PNum (Fin 1).
Proof.
  unfold rewrite_store; simpl. rewrite in_map_iff.
  intros ([k0 e0] & E & _). inversion E; subst. unfold rewrite_read; simpl.
  destruct (truthy (Entry.read e0)); auto.
Qed.

(** What [open_db] does from one of the versions 0, 10 and 20 when it
    succeeds: the last step rewrites the entry store and adds the
    composite index. *)
Lemma open_db_labelled (disk db : DB) :
  version disk = 0 \/ version disk = 10 \/ version disk = 20 ->
  open_db disk = inl db ->
  version db = target_version
  /\ has_index composite_index db = true
  /\ exists es0,
       entries db = Some (rewrite_store es0)
       /\ (version disk = 0 -> es0 = Store.empty)
       /\ (version disk <> 0 ->
           entries disk = Some es0 /\ revisions db = revisions disk).
Proof.
  destruct disk as [v r e f idx]. simpl. intros Hv.
  unfold open_db, upgrade, upgrade_steps. simpl.
  destruct Hv as [->|[->| ->]]; simpl.
  - destruct r; [discriminate|]. destruct e; [discriminate|]. simpl.
    destruct f; [discriminate|]. simpl.
    intros H; inversion H; subst; simpl.
    split; auto. split; auto. exists Store.empty.
    split; auto. split; auto. intros Hc; congruence.
  - destruct f; [discriminate|]. simpl.
    destruct e as [es|]; [|discriminate].
    destruct (has_index composite_index _) eqn:Ei; [discriminate|].
    intros H; inversion H; subst; simpl.
    split; auto.
    split; [apply (has_index_appended
                     (mkDB 10 r (Some es) (Some Store.empty) idx))|].
    exists es. split; auto. split; auto. intros Hc; discriminate.
  - destruct e as [es|]; [|discriminate].
    destruct (has_index composite_index _) eqn:Ei; [discriminate|].
    intros H; inversion H; subst; simpl.
    split; auto.
    split; [apply (has_index_appended (mkDB 20 r (Some es) f idx))|].
    exists es. split; auto. split; auto. intros Hc; discriminate.
Qed.

(** X9. After the database has been opened from version 0, 10 or 20, the
    entry store has the composite index and the [read] field of every
    entry is the number 0 or 1. *)
Theorem open_db_read_encoding (disk db : DB) :
  version disk = 0 \/ version disk = 10 \/ version disk = 20 ->
  open_db disk = inl db ->
  has_index composite_index db = true
  /\ exists es,
       entries db = Some es
       /\ forall k e, In (k, e) (Store.records es) ->
            Entry.read e = PNum (Fin 0) \/ Entry.read e = PNum (Fin 1).
Proof.
  intros Hv Ho.
  destruct (open_db_labelled disk db Hv Ho) as (_ & Hi & es0 & He & _).
  split; auto. exists (rewrite_store es0). split; auto.
  intros k e. apply rewrite_store_reads.
Qed.

Lemma open_db_read_encoding_witness :
  exists db,
    open_db disk_v10 = inl db
    /\ has_index composite_index db = true
    /\ exists es,
         entries db = Some es
         /\ forall k e, In (k, e) (Store.records es) ->
              Entry.read e = PNum (Fin 0) \/ Entry.read e = PNum (Fin 1).
Proof.
  destruct (open_db disk_v10) as [db|x] eqn:E; [|discriminate].
  exists db. split; [reflexivity|].
  apply (open_db_read_encoding disk_v10 db).
  - right. left. reflexivity.
  - exact E.
Defined.

(** X10. Opening a database of version 10 or 20 neither adds, drops nor
    re-keys an entry: the entry store keeps its keys and its key
    generator, each record is the old one with [read] replaced by 1 when
    it was truthy and by 0 otherwise, and the revision store is left as
    it was. *)
Theorem open_db_keeps_entries (disk db : DB) (es0 : Store.t Entry.t) :
  version disk = 10 \/ version disk = 20 ->
  entries disk = Some es0 ->
  open_db disk = inl db ->
  revisions db = revisions disk
  /\ exists es,
       entries db = Some es
       /\ Store.getAllKeys es = Store.getAllKeys es0
       /\ Store.keygen es = Store.keygen es0
       /\ forall k e,
            Store.get k es0 = Some e ->
            Store.get k es
            = Some (Entry.set_read e
                      (PNum (Fin (if truthy (Entry.read e) then 1 else 0)))).
Proof.
  intros Hv He Ho.
  assert (Hv' : version disk = 0 \/ version disk = 10 \/ version disk = 20)
    by tauto.
  destruct (open_db_labelled disk db Hv' Ho) as (_ & _ & es1 & He1 & _ & Hk).
  destruct Hk as [He0 Hr]; [destruct Hv as [-> | ->]; discriminate|].
  assert (es1 = es0) by congruence. subst es1.
  split; auto. exists (rewrite_store es0). split; auto.
  unfold Store.getAllKeys, Store.get, rewrite_store; simpl.
  rewrite map_map; simpl. repeat split; auto.
  intros k e. induction (Store.records es0) as [|[k' e'] l IH]; simpl;
    [discriminate|].
  destruct (Store.key_eqb k k'); auto.
  intros H; inversion H; subst. reflexivity.
Qed.

Lemma open_db_keeps_entries_witness :
  exists db es,
    open_db disk_v10 = inl db
    /\ entries db = Some es
    /\ Store.getAllKeys es = [Store.KInt 1]
    /\ Store.get (Store.KInt 1) es = Some (sample_entry 1 (PNum (Fin 0))).
Proof.
  destruct (open_db disk_v10) as [db|x] eqn:E; [|discriminate].
  destruct (open_db_keeps_entries disk_v10 db
              (Store.mk [(Store.KInt 1, sample_entry 1 (PBool false))] 2)
              (or_introl eq_refl) eq_refl E)
    as (_ & es & He & Hk & _ & Hg).
  exists db, es. repeat split; auto.
  apply (Hg (Store.KInt 1) (sample_entry 1 (PBool false))). reflexivity.
Defined.

(** X11. A database that was opened is at version 30, and opening it
    again changes nothing; a database whose version on disk is above 30
    is not opened at all. *)
Theorem open_db_settles (disk : DB) :
  (forall db, open_db disk = inl db ->
     version db = target_version /\ open_db db = inl db)
  /\ (target_version < version disk -> open_db disk = inr VersionError).
Proof.
  split.
  - intros db H.
    assert (Hv : version db = target_version).
    { unfold open_db in H.
      destruct (version disk <? target_version).
      - destruct (upgrade (version disk) disk); inversion H; reflexivity.
      - destruct (version disk =? target_version) eqn:E; [|discriminate].
        inversion H; subst. now apply Z.eqb_eq. }
    split; auto. unfold open_db. rewrite Hv.
    now rewrite Z.ltb_irrefl, Z.eqb_refl.
  - intros H. unfold open_db.
    assert (H1 : (version disk <? target_version) = false)
      by (apply Z.ltb_ge; lia).
    assert (H2 : (version disk =? target_version) = false)
      by (apply Z.eqb_neq; lia).
    now rewrite H1, H2.
Qed.

Lemma open_db_settles_witness :
  exists db,
    open_db disk_v10 = inl db
    /\ version db = target_version /\ open_db db = inl db
    /\ open_db (set_version 31 disk_v10) = inr VersionError.
Proof.
  destruct (open_db disk_v10) as [db|x] eqn:E; [|discriminate].
  exists db. split; [reflexivity|].
  destruct (proj1 (open_db_settles disk_v10) db E) as [H1 H2].
  split; [exact H1|]. split; [exact H2|].
  apply (proj2 (open_db_settles (set_version 31 disk_v10))).
  unfold target_version. simpl. lia.
Defined.

(** X12. From a version below 30 that is none of 0, 10 and 20 the
    database is opened without any migration: only its version number
    changes, to 30; no store or index is created and no entry is
    rewritten. *)
Theorem open_db_unlabelled_version (disk : DB) :
  version disk < target_version ->
  version disk <> 0 -> version disk <> 10 -> version disk <> 20 ->
  open_db disk = inl (set_version target_version disk).
Proof.
  intros Hlt H0 H10 H20. unfold open_db, upgrade, upgrade_steps, cases.
  apply Z.ltb_lt in Hlt. rewrite Hlt. simpl.
  apply Z.eqb_neq in H0, H10, H20. now rewrite H0, H10, H20.
Qed.

Lemma open_db_unlabelled_version_witness :
  open_db (set_version 15 disk_v10) = inl (set_version 30 disk_v10).
Proof.
  apply (open_db_unlabelled_version (set_version 15 disk_v10)).
  - unfold target_version. simpl. lia.
  - discriminate.
  - discriminate.
  - discriminate.
Defined.

(** ** [init] and the feed list *)

Lemma saveFeeds_keeps (fs : list Feed.t) (w : World) :
  opened (fst (saveFeeds fs w)) = opened w
  /\ _feeds (fst (saveFeeds fs w)) = _feeds w
  /\ revisions (disk (fst (saveFeeds fs w))) = revisions (disk w)
  /\ entries (disk (fst (saveFeeds fs w))) = entries (disk w)
  /\ version (disk (fst (saveFeeds fs w))) = version (disk w)
  /\ indices (disk (fst (saveFeeds fs w))) = indices (disk w).
Proof.
  unfold saveFeeds. destruct (opened w) eqn:Ho; simpl;
    [|rewrite ?Ho; repeat split; reflexivity].
  destruct (feeds (disk w)) as [s|]; simpl;
    [|rewrite ?Ho; repeat split; reflexivity].
  destruct (save_queue fs) as [q raised].
  destruct (run_feed_queue q (Store.clear s)); simpl;
    [|rewrite ?Ho; repeat split; reflexivity].
  destruct raised; simpl; rewrite ?Ho; repeat split; reflexivity.
Qed.

Lemma loadFeeds_keeps (w : World) :
  opened (fst (loadFeeds w)) = opened w
  /\ revisions (disk (fst (loadFeeds w))) = revisions (disk w)
  /\ entries (disk (fst (loadFeeds w))) = entries (disk w)
  /\ version (disk (fst (loadFeeds w))) = version (disk w)
  /\ indices (disk (fst (loadFeeds w))) = indices (disk w).
Proof.
  unfold loadFeeds. destruct (opened w) eqn:Ho; simpl;
    [|rewrite ?Ho; repeat split; reflexivity].
  destruct (feeds (disk w)) as [s|] eqn:Ef; simpl;
    [|rewrite ?Ho; repeat split; reflexivity].
  destruct (List.length (Store.getAll s) =? 0)%nat; simpl;
    [|rewrite ?Ho; repeat split; reflexivity].
  destruct (List.length (local_backup w) =? 0)%nat; simpl.
  - destruct (saveFeeds_keeps (sync_backup w)
                (emit [EvSyncGet] (emit [EvLocalGet] (emit [EvFeedsGetAll] w))))
      as (H1 & _ & H3 & H4 & H5 & H6).
    simpl in *. rewrite H1, H3, H4, H5, H6, ?Ho. repeat split; reflexivity.
  - destruct (saveFeeds_keeps (local_backup w)
                (emit [EvLocalGet] (emit [EvFeedsGetAll] w)))
      as (H1 & _ & H3 & H4 & H5 & H6).
    simpl in *. rewrite H1, H3, H4, H5, H6, ?Ho. repeat split; reflexivity.
Qed.

Lemma loadFeeds_during_keeps (ev : list event) (w : World) :
  opened (fst (loadFeeds_during ev w)) = opened w
  /\ revisions (disk (fst (loadFeeds_during ev w))) = revisions (disk w)
  /\ entries (disk (fst (loadFeeds_during ev w))) = entries (disk w)
  /\ version (disk (fst (loadFeeds_during ev w))) = version (disk w)
  /\ indices (disk (fst (loadFeeds_during ev w))) = indices (disk w).
Proof.
  unfold loadFeeds_during. destruct (opened w) eqn:Ho; simpl;
    [|rewrite ?Ho; repeat split; reflexivity].
  destruct (feeds (disk w)) as [s|] eqn:Ef; simpl;
    [|rewrite ?Ho; repeat split; reflexivity].
  destruct (List.length (Store.getAll s) =? 0)%nat; simpl;
    [|rewrite ?Ho; repeat split; reflexivity].
  destruct (List.length (local_backup w) =? 0)%nat; simpl.
  - destruct (saveFeeds_keeps (sync_backup w)
                (emit [EvSyncGet] (emit [EvLocalGet]
                   (emit (EvFeedsGetAll :: ev) w))))
      as (H1 & _ & H3 & H4 & H5 & H6).
    simpl in *. rewrite H1, H3, H4, H5, H6, ?Ho. repeat split; reflexivity.
  - destruct (saveFeeds_keeps (local_backup w)
                (emit [EvLocalGet] (emit (EvFeedsGetAll :: ev) w)))
      as (H1 & _ & H3 & H4 & H5 & H6).
    simpl in *. rewrite H1, H3, H4, H5, H6, ?Ho. repeat split; reflexivity.
Qed.

Lemma open_db_version (disk db : DB) :
  open_db disk = inl db -> version db = target_version.
Proof.
  unfold open_db. intros H.
  destruct (version disk <? target_version).
  - destruct (upgrade (version disk) disk); inversion H; reflexivity.
  - destruct (version disk =? target_version) eqn:E; [|discriminate].
    inversion H; subst. now apply Z.eqb_eq.
Qed.

(** X13. [init] is safe to call again after it succeeded: [_db] is set
    and a further [init] does nothing at all. When [init] fails, either
    the database could not be opened, and then [_db] is still unset and
    the database on disk and the feed list are what they were; or the
    database was opened but has no entry store, so that listing the keys
    failed with a NotFoundError: then [_db] is set all the same, the
    database is at version 30, and a further [init] returns at once
    without an error. *)
Theorem init_again (w : World) :
  (snd (init w) = None ->
   opened (fst (init w)) = true
   /\ init (fst (init w)) = (fst (init w), None))
  /\ (forall x, snd (init w) = Some x ->
        (open_db (disk w) = inr x
         /\ opened (fst (init w)) = false
         /\ disk (fst (init w)) = disk w
         /\ _feeds (fst (init w)) = _feeds w)
        \/ (x = NotFoundError
            /\ (exists d, open_db (disk w) = inl d /\ entries d = None)
            /\ opened (fst (init w)) = true
            /\ entries (disk (fst (init w))) = None
            /\ version (disk (fst (init w))) = target_version
            /\ init (fst (init w)) = (fst (init w), None))).
Proof.
  assert (Hagain : forall w0, opened w0 = true -> init w0 = (w0, None))
    by (intros w0 H0; unfold init; now rewrite H0).
  unfold init. destruct (opened w) eqn:Ho.
  - cbn [fst snd]. split; [|discriminate].
    intros _. split; auto. rewrite Ho. reflexivity.
  - cbn [emit disk]. destruct (open_db (disk w)) as [d|y] eqn:Eo.
    + destruct (entries d) as [es|] eqn:Ee; cbn [fst snd].
      * split; [|discriminate]. intros _.
        destruct (loadFeeds_during_keeps [EvEntriesGetAllKeys]
                    (set_opened (set_disk d
                       (emit (if version (disk w) <? target_version
                              then upgrade_reads (disk w) else [])
                          (emit [EvPreferenceGet; EvOpenDatabase] w)))))
          as (H1 & _).
        split; [exact H1|]. now apply Hagain.
      * split; [discriminate|]. intros x Hx. inversion Hx; subst x.
        right.
        destruct (loadFeeds_during_keeps []
                    (set_opened (set_disk d
                       (emit (if version (disk w) <? target_version
                              then upgrade_reads (disk w) else [])
                          (emit [EvPreferenceGet; EvOpenDatabase] w)))))
          as (H1 & _ & H3 & H4 & _).
        split; [reflexivity|]. split; [eauto|]. split; [exact H1|].
        split; [rewrite H3; exact Ee|].
        split; [rewrite H4; now apply (open_db_version (disk w))|].
        now apply Hagain.
    + cbn [fst snd]. split; [discriminate|].
      intros x Hx. inversion Hx; subst. left. auto.
Qed.

Lemma init_again_witness :
  opened (fst (init scenario)) = true
  /\ init (fst (init scenario)) = (fst (init scenario), None)
  /\ opened (fst (init (mkWorld (set_version 31 disk_v10) false [] [] [] [])))
     = false
  /\ snd (init (mkWorld (set_version 5 fresh_disk) false [] [] [] []))
     = Some NotFoundError
  /\ opened (fst (init (mkWorld (set_version 5 fresh_disk) false [] [] [] [])))
     = true.
Proof.
  destruct (init_again scenario) as [H _].
  destruct (H eq_refl) as [H1 H2].
  destruct (init_again (mkWorld (set_version 31 disk_v10) false [] [] [] []))
    as [_ H3].
  destruct (H3 VersionError eq_refl)
    as [(_ & H4 & _)|(Hx & _)]; [|discriminate].
  destruct (init_again (mkWorld (set_version 5 fresh_disk) false [] [] [] []))
    as [_ H5].
  destruct (H5 NotFoundError eq_refl)
    as [(Hx & _)|(_ & _ & H6 & _)]; [discriminate|].
  repeat split; assumption.
Defined.

Lemma run_feed_queue_total (q : list Feed.t) :
  forall s,
    (forall f, In f q -> Store.to_key (Feed.feedID f) <> None) ->
    exists s',
      run_feed_queue q s = Some s'
      /\ (forall k f, In (k, f) (Store.records s') ->
            In (k, f) (Store.records s) \/ In f q).
Proof.
  induction q as [|f q IH]; simpl; intros s Hv.
  - exists s. auto.
  - assert (Hf : Store.to_key (Feed.feedID f) <> None) by (apply Hv; auto).
    destruct (Store.to_key (Feed.feedID f)) as [k|] eqn:Ek; [clear Hf|congruence].
    destruct (put_explicit false Feed.feedID Feed.set_feedID f s k Ek)
      as (s1 & Hp & _ & _).
    rewrite Hp.
    destruct (IH s1 (fun g Hg => Hv g (or_intror Hg))) as (s' & Hrun & Hrec).
    exists s'. split; auto.
    intros k0 g Hin. destruct (Hrec _ _ Hin) as [Hin1|Hin1]; auto.
    destruct (put_explicit_records _ _ _ _ _ _ _ Ek Hp _ Hin1) as [Hx|Hx]; auto.
    inversion Hx; subst. auto.
Qed.

(** X14. [saveFeeds] on an open database, for feeds with distinct valid
    ids: the feed store afterwards holds exactly the given feeds, each
    under its id, whatever it held before; both backups hold the
    minimized list; and the in-memory feed list [_feeds] is not touched
    (only [loadFeeds] sets it). *)
Theorem saveFeeds_replaces (fs : list Feed.t) (w : World) (s : Store.t Feed.t) :
  opened w = true -> feeds (disk w) = Some s ->
  (forall f, In f fs -> Store.to_key (Feed.feedID f) <> None) ->
  NoDup (map Feed.feedID fs) ->
  snd (saveFeeds fs w) = None
  /\ _feeds (fst (saveFeeds fs w)) = _feeds w
  /\ local_backup (fst (saveFeeds fs w)) = map minimize fs
  /\ sync_backup (fst (saveFeeds fs w)) = map minimize fs
  /\ exists s',
       feeds (disk (fst (saveFeeds fs w))) = Some s'
       /\ (forall f, In f fs ->
             exists k, Store.to_key (Feed.feedID f) = Some k
                       /\ Store.get k s' = Some f)
       /\ (forall k f, In (k, f) (Store.records s') -> In f fs).
Proof.
  intros Ho Hf Hvalid Hnd.
  destruct (run_feed_queue_spec fs (Store.clear s) Hvalid Hnd)
    as (s' & Hrun & Hget & _ & Hrec).
  unfold saveFeeds. rewrite Ho, Hf. cbn [negb].
  rewrite (save_queue_all _ Hvalid). cbn [emit disk]. rewrite Hrun.
  cbn. repeat split; auto.
  exists s'. repeat split; auto.
  intros k f Hin. destruct (Hrec _ _ Hin) as [[]|H]; auto.
Qed.

Lemma saveFeeds_replaces_witness :
  _feeds (fst (saveFeeds [sample_feed (PNum (Fin 7)) PNull] scenario_open))
  = [sample_feed (PNum (Fin 1)) PNull]
  /\ local_backup (fst (saveFeeds [sample_feed (PNum (Fin 7)) PNull]
                                  scenario_open))
     = [sample_feed (PNum (Fin 7)) PUndef]
  /\ option_map Store.getAll
       (feeds (disk (fst (saveFeeds [sample_feed (PNum (Fin 7)) PNull]
                                    scenario_open))))
     = Some [sample_feed (PNum (Fin 7)) PNull].
Proof.
  destruct (saveFeeds_replaces [sample_feed (PNum (Fin 7)) PNull]
              scenario_open scenario_feeds eq_refl eq_refl)
    as (_ & H1 & H2 & _ & _).
  - intros f [<-|[]]. discriminate.
  - repeat constructor. intros [].
  - split; [exact H1|]. split; [exact H2|]. reflexivity.
Defined.

Lemma drop_null_not_null (p : prim) : drop_null p <> PNull.
Proof. destruct p; simpl; discriminate. Qed.

Lemma drop_null_twice (p : prim) : drop_null (drop_null p) = drop_null p.
Proof. now destruct p. Qed.

(** X15. The feeds [_saveFeedBackups] writes carry no favicon and no
    null-valued field, the two backups get the same list, of the same
    length as the list given, and minimizing a feed again changes
    nothing. *)
Theorem saveFeedBackups_minimized (fs : list Feed.t) (w : World) :
  (forall f, In f (local_backup (_saveFeedBackups fs w)) ->
     Feed.favicon f = PUndef /\ no_null_field f /\ minimize f = f)
  /\ sync_backup (_saveFeedBackups fs w) = local_backup (_saveFeedBackups fs w)
  /\ List.length (local_backup (_saveFeedBackups fs w)) = List.length fs.
Proof.
  unfold _saveFeedBackups; simpl. split; [|split; [reflexivity|apply length_map]].
  intros f Hf. apply in_map_iff in Hf. destruct Hf as (g & <- & _).
  unfold minimize, no_null_field; simpl.
  split; [reflexivity|]. split.
  - repeat split; try apply drop_null_not_null. discriminate.
  - now rewrite !drop_null_twice.
Qed.

Lemma saveFeedBackups_minimized_witness :
  local_backup (_saveFeedBackups
                  [Feed.mk (PNum (Fin 1)) PNull (PBool false) PNull
                           (PStr "t") (PStr "u") (PStr "icon")] scenario_open)
  = [Feed.mk (PNum (Fin 1)) PUndef (PBool false) PUndef (PStr "t") (PStr "u")
             PUndef]
  /\ Feed.favicon
       (Feed.mk (PNum (Fin 1)) PUndef (PBool false) PUndef (PStr "t") (PStr "u")
                PUndef) = PUndef.
Proof.
  split; [reflexivity|].
  destruct (saveFeedBackups_minimized
              [Feed.mk (PNum (Fin 1)) PNull (PBool false) PNull
                       (PStr "t") (PStr "u") (PStr "icon")] scenario_open)
    as [H _].
  apply (H (Feed.mk (PNum (Fin 1)) PUndef (PBool false) PUndef (PStr "t")
                    (PStr "u") PUndef)).
  left. reflexivity.
Defined.

Lemma save_queue_invalid (good rest : list Feed.t) (bad : Feed.t) :
  (forall f, In f good -> Store.to_key (Feed.feedID f) <> None) ->
  Store.put_accepts false Feed.feedID bad = false ->
  save_queue (good ++ bad :: rest) = (good, Some DataError).
Proof.
  intros Hgood Hbad. induction good as [|f good IH]; simpl.
  - now rewrite Hbad.
  - assert (Ha : Store.put_accepts false Feed.feedID f = true).
    { assert (Hf : Store.to_key (Feed.feedID f) <> None)
        by (apply Hgood; simpl; auto).
      unfold Store.put_accepts.
      destruct (Feed.feedID f) as [| |b|[]|]; simpl in *; congruence. }
    rewrite Ha, IH; auto. intros g Hg. apply Hgood. simpl; auto.
Qed.

(** X16. When [put] refuses the id of one of the feeds (it is neither
    undefined nor a valid key), [saveFeeds] on an open database is
    rejected with a DataError after the feed store has been cleared: the
    store is left with the feeds before the refused one only, whatever it
    held before, and the backups are not written. *)
Theorem saveFeeds_invalid_id (good rest : list Feed.t) (bad : Feed.t)
    (w : World) (s : Store.t Feed.t) :
  opened w = true -> feeds (disk w) = Some s ->
  (forall f, In f good -> Store.to_key (Feed.feedID f) <> None) ->
  Store.put_accepts false Feed.feedID bad = false ->
  snd (saveFeeds (good ++ bad :: rest) w) = Some DataError
  /\ local_backup (fst (saveFeeds (good ++ bad :: rest) w)) = local_backup w
  /\ sync_backup (fst (saveFeeds (good ++ bad :: rest) w)) = sync_backup w
  /\ exists s',
       feeds (disk (fst (saveFeeds (good ++ bad :: rest) w))) = Some s'
       /\ run_feed_queue good (Store.clear s) = Some s'
       /\ (forall k f, In (k, f) (Store.records s') -> In f good).
Proof.
  intros Ho Hf Hgood Hbad.
  destruct (run_feed_queue_total good (Store.clear s) Hgood)
    as (s' & Hrun & Hrec).
  unfold saveFeeds. rewrite Ho, Hf. cbn [negb].
  rewrite (save_queue_invalid good rest bad Hgood Hbad).
  cbn [emit disk]. rewrite Hrun. cbn.
  repeat split; auto. exists s'. repeat split; auto.
  intros k f Hin. destruct (Hrec _ _ Hin) as [[]|H]; auto.
Qed.

Lemma saveFeeds_invalid_id_witness :
  snd (saveFeeds ([] ++ sample_feed (PBool true) PNull :: []) scenario_open)
  = Some DataError
  /\ option_map Store.getAll
       (feeds (disk (fst (saveFeeds ([] ++ sample_feed (PBool true) PNull :: [])
                                    scenario_open))))
     = Some [].
Proof.
  destruct (saveFeeds_invalid_id [] [] (sample_feed (PBool true) PNull)
              scenario_open scenario_feeds eq_refl eq_refl)
    as (H1 & _ & _ & _).
  - intros f [].
  - reflexivity.
  - split; [exact H1|reflexivity].
Defined.

(** X17. With a feed store that is not empty, [loadFeeds] on an open
    database takes the feed list from the store, in key order; it reads
    no backup and writes nothing: the database on disk and both backups
    are what they were. *)
Theorem loadFeeds_from_store (w : World) (s : Store.t Feed.t) :
  opened w = true -> feeds (disk w) = Some s -> Store.records s <> [] ->
  snd (loadFeeds w) = None
  /\ _feeds (fst (loadFeeds w)) = Store.getAll s
  /\ disk (fst (loadFeeds w)) = disk w
  /\ local_backup (fst (loadFeeds w)) = local_backup w
  /\ sync_backup (fst (loadFeeds w)) = sync_backup w
  /\ log (fst (loadFeeds w)) = log w ++ [EvFeedsGetAll].
Proof.
  intros Ho Hf Hs. unfold loadFeeds. rewrite Ho, Hf. cbn [negb].
  assert (E : (List.length (Store.getAll s) =? 0)%nat = false).
  { apply length_eqb_nonempty. unfold Store.getAll.
    destruct (Store.records s); [congruence|discriminate]. }
  rewrite E. cbn. repeat split; reflexivity.
Qed.

Lemma loadFeeds_from_store_witness :
  _feeds (fst (loadFeeds scenario_open)) = [sample_feed (PNum (Fin 1)) PNull]
  /\ log (fst (loadFeeds scenario_open)) = [EvFeedsGetAll].
Proof.
  destruct (loadFeeds_from_store scenario_open scenario_feeds eq_refl eq_refl)
    as (_ & H1 & _ & _ & _ & H2).
  - discriminate.
  - split; assumption.
Defined.

(** ** More on [_filters] *)

Lemma filter_twice {A : Type} (p q : A -> bool) (l : list A) :
  filter p (filter q l) = filter (fun x => q x && p x) l.
Proof.
  induction l as [|x l IH]; simpl; auto.
  destruct (q x); simpl; [destruct (p x)|]; now rewrite IH.
Qed.

Lemma filter_true {A : Type} (l : list A) : filter (fun _ => true) l = l.
Proof. induction l as [|x l IH]; simpl; congruence. Qed.

(** The feed stage of [_filters] after the folder expansion. *)
Lemma _filters_feed_stage (fuel : nat) (q q' : Query) (fs : list Feed.t)
    (filters : Filters) :
  _filters fuel q fs = Some (inl filters, q') ->
  exists active,
    fl_feeds filters = map Feed.feedID (filter (passes_feed_filters q) active)
    /\ (q_folders q = None -> active = fs /\ q' = q)
    /\ (forall folders, q_folders q = Some folders ->
          q' = set_folders (Some []) q
          /\ exists nodes,
               traverse fuel (build_children_map fs) folders [] = Some nodes
               /\ active = filter (fun feed => includes nodes (Feed.feedID feed)) fs).
Proof.
  unfold _filters, passes_feed_filters. intros H.
  destruct (q_folders q) as [folders|] eqn:Efo.
  - destruct (traverse fuel (build_children_map fs) folders []) as [nodes|] eqn:Et;
      [|discriminate].
    exists (filter (fun feed => includes nodes (Feed.feedID feed)) fs).
    destruct (negb (strict_eq (q_sortOrder q) PUndef)
              && negb (strict_eq (q_sortOrder q) (PStr "date")))%bool eqn:Es.
    + destruct (q_feeds q); discriminate.
    + split; [|split; [discriminate|]].
      * destruct (q_feeds q) as [feeds|];
          destruct (q_includeHiddenFeeds q);
          destruct (q_includeFeedsExcludedFromGlobalViews q);
          cbn [negb orb andb] in *; inversion H; subst; cbn [fl_feeds];
          rewrite ?filter_twice; f_equal; apply filter_ext; intros f;
          cbn; rewrite ?andb_true_r; reflexivity.
      * intros folders' E. inversion E; subst folders'.
        split; [|eauto].
        destruct (q_feeds q) as [feeds|];
          destruct (q_includeHiddenFeeds q);
          destruct (q_includeFeedsExcludedFromGlobalViews q);
          cbn [negb orb andb] in *; inversion H; reflexivity.
  - exists fs.
    destruct (negb (strict_eq (q_sortOrder q) PUndef)
              && negb (strict_eq (q_sortOrder q) (PStr "date")))%bool eqn:Es.
    + destruct (q_feeds q); discriminate.
    + split; [|split; [|discriminate]].
      * destruct (q_feeds q) as [feeds|];
          destruct (q_includeHiddenFeeds q);
          destruct (q_includeFeedsExcludedFromGlobalViews q);
          cbn [negb orb andb] in *; inversion H; subst; cbn [fl_feeds];
          rewrite ?filter_twice; f_equal;
          try (symmetry; apply filter_true);
          apply filter_ext; intros f;
          cbn; rewrite ?andb_true_r; reflexivity.
      * intros _. split; auto.
        destruct (q_feeds q) as [feeds|];
          destruct (q_includeHiddenFeeds q);
          destruct (q_includeFeedsExcludedFromGlobalViews q);
          cbn [negb orb andb] in *; inversion H; reflexivity.
Qed.

(** X18. Without folders and with a sort order it accepts, [_filters]
    returns for any feed list and leaves the query as it is; the feeds it
    selects are, in the order of the feed list, those that pass the feed
    filters: with an explicit [feeds] list the listed feeds, hidden ones
    included; without one the feeds that are not hidden, or all when
    [includeHiddenFeeds] is set; in both cases less the feeds marked
    [omitInUnread] unless [includeFeedsExcludedFromGlobalViews] is set. *)
Theorem filters_visibility (fuel : nat) (q : Query) (fs : list Feed.t) :
  q_folders q = None ->
  q_sortOrder q = PUndef \/ q_sortOrder q = PStr "date" ->
  exists filters,
    _filters fuel q fs = Some (inl filters, q)
    /\ fl_feeds filters
       = map Feed.feedID (filter (passes_feed_filters q) fs)
    /\ (forall l f, q_feeds q = Some l -> In f fs ->
          passes_feed_filters q f
          = includes l (Feed.feedID f)
            && (q_includeFeedsExcludedFromGlobalViews q
                || negb (truthy (Feed.omitInUnread f)))).
Proof.
  intros Hfo Hsort.
  assert (Hs : (negb (strict_eq (q_sortOrder q) PUndef)
                && negb (strict_eq (q_sortOrder q) (PStr "date")))%bool = false)
    by (destruct Hsort as [-> | ->]; reflexivity).
  assert (Hex : exists filters, _filters fuel q fs = Some (inl filters, q)).
  { unfold _filters. rewrite Hfo.
    destruct (q_feeds q); rewrite Hs; eexists; reflexivity. }
  destruct Hex as (filters & Hf). exists filters. split; auto.
  destruct (_filters_feed_stage _ _ _ _ _ Hf) as (active & Ha & Hnone & _).
  destruct (Hnone Hfo) as [-> _]. split; auto.
  intros l f Hl _. unfold passes_feed_filters. now rewrite Hl.
Qed.

Lemma filters_visibility_witness :
  exists filters,
    _filters 0 default_query feed_chain = Some (inl filters, default_query)
    /\ fl_feeds filters = [PNum (Fin 1); PNum (Fin 2); PNum (Fin 3)].
Proof.
  destruct (filters_visibility 0 default_query feed_chain eq_refl
              (or_introl eq_refl)) as (filters & H1 & H2 & _).
  exists filters. split; [exact H1|]. rewrite H2. reflexivity.
Defined.

Lemma set_folders_twice (l : option (list prim)) (q : Query) :
  set_folders l (set_folders l q) = set_folders l q.
Proof. reflexivity. Qed.

Lemma filter_includes_nil (fs : list Feed.t) :
  filter (fun feed => includes [] (Feed.feedID feed)) fs = [].
Proof. induction fs as [|f l IH]; simpl; auto. Qed.

(** X19. [_filters] empties the [folders] array of the query it is
    called on (the loop pops the array itself): whenever it returns, with
    filters or with an exception, the query is left with [folders: []].
    A further call on that query selects no feed, so its filter function
    rejects every entry. *)
Theorem filters_empties_folders (s2n : string -> num) (fuel : nat)
    (q q' : Query) (fs : list Feed.t) (folders : list prim)
    (r : Filters + exn) :
  q_folders q = Some folders ->
  _filters fuel q fs = Some (r, q') ->
  q' = set_folders (Some []) q
  /\ (forall fuel' filters q'',
        _filters fuel' q' fs = Some (inl filters, q'') ->
        q'' = q' /\ fl_feeds filters = []
        /\ forall e, filterFunction s2n filters e = false).
Proof.
  intros Hfo H.
  assert (Hq : q' = set_folders (Some []) q).
  { unfold _filters in H. rewrite Hfo in H.
    destruct (traverse fuel (build_children_map fs) folders []); [|discriminate].
    destruct (q_feeds q);
      destruct (negb (strict_eq (q_sortOrder q) PUndef)
                && negb (strict_eq (q_sortOrder q) (PStr "date")))%bool;
      inversion H; reflexivity. }
  split; auto. intros fuel' filters q'' H'.
  destruct (_filters_feed_stage _ _ _ _ _ H') as (active & Ha & _ & Hsome).
  destruct (Hsome [] (eq_trans (f_equal q_folders Hq) eq_refl))
    as (Hq'' & nodes & Ht & Hact).
  assert (nodes = []) by (destruct fuel'; simpl in Ht; congruence). subst nodes.
  rewrite filter_includes_nil in Hact. subst active. simpl in Ha.
  split; [rewrite Hq'', Hq; reflexivity|]. split; auto.
  intros e. unfold filterFunction, clause_feeds. rewrite Ha. reflexivity.
Qed.

Lemma filters_empties_folders_witness :
  exists filters,
    _filters 5 (set_folders (Some []) (folder_query [PNum (Fin 1)])) feed_chain
    = Some (inl filters, set_folders (Some []) (folder_query [PNum (Fin 1)]))
    /\ fl_feeds filters = []
    /\ filterFunction no_string_dates filters (sample_entry 1 (PNum (Fin 0)))
       = false.
Proof.
  destruct (_filters 10 (folder_query [PNum (Fin 1)]) feed_chain)
    as [[r q']|] eqn:E; [|discriminate].
  destruct (filters_empties_folders no_string_dates 10
              (folder_query [PNum (Fin 1)]) q' feed_chain [PNum (Fin 1)] r
              eq_refl E) as [Hq H].
  destruct (_filters 5 (set_folders (Some []) (folder_query [PNum (Fin 1)]))
                     feed_chain) as [[[filters|x] q'']|] eqn:E2;
    [|discriminate|discriminate].
  rewrite <- Hq in E2. destruct (H 5%nat filters q'' E2) as (H1 & H2 & H3).
  exists filters. rewrite <- Hq, <- H1. auto.
Defined.

(** X20. An entry the filter function accepts belongs to a feed of the
    in-memory feed list that passes the feed filters of the query:
    entries of unknown feeds, and by default entries of hidden feeds, are
    never counted. *)
Theorem filterFunction_known_feed (s2n : string -> num) (fuel : nat)
    (q q' : Query) (fs : list Feed.t) (filters : Filters) (e : Entry.t) :
  _filters fuel q fs = Some (inl filters, q') ->
  filterFunction s2n filters e = true ->
  exists f, In f fs /\ Feed.feedID f = Entry.feedID e
            /\ passes_feed_filters q f = true.
Proof.
  intros Hf He.
  destruct (_filters_feed_stage _ _ _ _ _ Hf) as (active & Ha & Hnone & Hsome).
  assert (Hsub : forall f, In f active -> In f fs).
  { destruct (q_folders q) as [folders|] eqn:Efo.
    - destruct (Hsome folders eq_refl) as (_ & nodes & _ & ->).
      intros f Hin. now apply filter_In in Hin.
    - destruct (Hnone eq_refl) as [-> _]. auto. }
  unfold filterFunction in He.
  repeat (apply andb_true_iff in He; destruct He as [He ?]).
  unfold clause_feeds in He. rewrite Ha in He.
  apply includes_In in He. apply in_map_iff in He.
  destruct He as (f & Hid & Hin). apply filter_In in Hin.
  destruct Hin as [Hin Hp]. exists f. auto.
Qed.

Lemma filterFunction_known_feed_witness :
  exists f, In f [sample_feed (PNum (Fin 1)) PNull]
            /\ Feed.feedID f = Entry.feedID (sample_entry 1 (PNum (Fin 0)))
            /\ passes_feed_filters query_unread_undeleted f = true.
Proof.
  apply (filterFunction_known_feed no_string_dates 0 query_unread_undeleted
           query_unread_undeleted [sample_feed (PNum (Fin 1)) PNull]
           _ (sample_entry 1 (PNum (Fin 0))) eq_refl).
  reflexivity.
Defined.

(** ** More on [count] *)

Lemma scan_answer_general (f : Entry.t -> bool)
    (rs : list (Store.key * Entry.t)) :
  forall o l a c rk,
    answer (scan f rs (mkScan o l a c rk))
    = a + paged (effective_offset o) (effective_limit l) (matching f rs).
Proof.
  induction rs as [|[k e] rs IH]; intros o l a c rk.
  - cbn [scan answer]. unfold matching, paged; cbn.
    destruct o as [|o|], l as [|l|]; cbn; lia.
  - rewrite matching_cons. pose proof (matching_nonneg f rs) as Hm.
    cbn [scan sc_limit sc_offset answer].
    destruct l as [|l|], o as [|o|]; cbn [num_leb num_ltb num_pred];
      try (destruct (l <=? 0) eqn:El;
           [apply Z.leb_le in El|apply Z.leb_gt in El]);
      try (destruct (0 <? o) eqn:Eo;
           [apply Z.ltb_lt in Eo|apply Z.ltb_ge in Eo]);
      destruct (f e); cbn [answer]; rewrite ?IH;
      unfold paged, effective_offset, effective_limit; lia.
Qed.

Lemma count_runs_scan (s2n : string -> num) (fuel : nat) (q q' : Query)
    (w : World) (es : Store.t Entry.t) (filters : Filters) :
  opened w = true -> entries (disk w) = Some es ->
  has_index composite_index (disk w) = true ->
  _filters fuel q (_feeds w) = Some (inl filters, q') ->
  q_sortDirection q = PStr "desc" ->
  count s2n fuel q w
  = Some (emit (EvIndexCursorOpen
                  :: map EvCursorReadEntry
                       (read_keys (scan (filterFunction s2n filters)
                                        (index_records es)
                                        (initial_scan filters)))) w,
          q',
          inl (answer (scan (filterFunction s2n filters) (index_records es)
                            (initial_scan filters)))).
Proof.
  intros Ho He Hi Hf Hd.
  destruct (_filters_entry_sort _ _ _ _ _ Hf) as [_ Hs].
  unfold count, init. rewrite Ho, Hf. unfold _searchEngine.
  rewrite Hs. cbn [sort direction]. rewrite Hd. cbn [strict_eq negb].
  rewrite String.eqb_refl. cbn [negb]. rewrite He, Hi. cbn [negb].
  reflexivity.
Qed.

Lemma index_insert_length (x : index_entry) (l : list index_entry) :
  List.length (index_insert x l) = S (List.length l).
Proof.
  induction l as [|y l IH]; simpl; auto.
  destruct (keys_compare (fst x) (fst y)); simpl; auto.
Qed.

Lemma index_of_length (rs : list (Store.key * Entry.t)) :
  (List.length (index_of rs) <= List.length rs)%nat.
Proof.
  induction rs as [|[k e] rs IH]; simpl; auto.
  destruct (index_key e); [rewrite index_insert_length|]; lia.
Qed.

Lemma matching_le_stored (f : Entry.t -> bool) (es : Store.t Entry.t) :
  matching f (index_records es) <= Z.of_nat (List.length (Store.records es)).
Proof.
  unfold matching, index_records.
  pose proof (filter_length_le (fun r => f (snd r))
                (map snd (index_of (rev (Store.records es))))) as H1.
  rewrite length_map in H1.
  pose proof (index_of_length (rev (Store.records es))) as H2.
  rewrite length_rev in H2.
  apply Nat2Z.inj_le. eapply Nat.le_trans; [exact H1|exact H2].
Qed.

(** X21. On an open database, for [offset] and [limit] each undefined, a
    whole number, NaN or +Infinity, [count] answers the size of the page of the
    index records that pass the filter function, where an offset that is
    undefined, NaN, zero or negative skips nothing, an infinite offset
    skips everything, a limit that is zero or negative admits nothing and
    a limit that is undefined, NaN or infinite admits everything. The
    answer is never negative and never above the number of stored
    entries. With a limit that is zero or negative no entry record is
    read: the cursor is opened and the first callback returns. *)
Theorem count_pagination_edges (s2n : string -> num) (fuel : nat)
    (q q' : Query) (w : World) (es : Store.t Entry.t) (filters : Filters) :
  opened w = true -> entries (disk w) = Some es ->
  has_index composite_index (disk w) = true ->
  _filters fuel q (_feeds w) = Some (inl filters, q') ->
  q_sortDirection q = PStr "desc" ->
  exists w' n,
    count s2n fuel q w = Some (w', q', inl n)
    /\ n = paged (effective_offset (initial_offset (q_offset q)))
                 (effective_limit (initial_limit (q_limit q)))
                 (matching (filterFunction s2n filters) (index_records es))
    /\ 0 <= n <= Z.of_nat (List.length (Store.records es))
    /\ (forall L, q_limit q = Some (Fin L) -> L <= 0 ->
          n = 0 /\ log w' = log w ++ [EvIndexCursorOpen]).
Proof.
  intros Ho He Hi Hf Hd.
  rewrite (count_runs_scan s2n fuel q q' w es filters Ho He Hi Hf Hd).
  destruct (_filters_entry_sort _ _ _ _ _ Hf) as [_ Hs].
  eexists _, _. split; [reflexivity|].
  unfold initial_scan. rewrite Hs. cbn [sort offset limit].
  rewrite scan_answer_general.
  pose proof (matching_nonneg (filterFunction s2n filters) (index_records es))
    as Hm0.
  pose proof (matching_le_stored (filterFunction s2n filters) es) as Hm1.
  split; [lia|]. split.
  - unfold paged.
    destruct (effective_offset (initial_offset (q_offset q))) as [o|] eqn:Eo;
      [|lia].
    assert (0 <= o).
    { destruct (initial_offset (q_offset q)); simpl in Eo; inversion Eo; lia. }
    destruct (effective_limit (initial_limit (q_limit q))) as [l|] eqn:El;
      [|lia].
    assert (0 <= l).
    { destruct (initial_limit (q_limit q)); simpl in El; inversion El; lia. }
    lia.
  - intros L HL HL0. rewrite HL. cbn [initial_limit]. split.
    + unfold paged, effective_limit.
      destruct (effective_offset (initial_offset (q_offset q))); lia.
    + assert (Hstop : num_leb (sc_limit (mkScan (initial_offset (q_offset q))
                                            (Fin L) 0 0 [])) (Fin 0) = true)
        by (cbn; now apply Z.leb_le).
      destruct (scan_stopped (filterFunction s2n filters) (index_records es)
                  _ Hstop) as (_ & _ & _ & Hr & _).
      cbn [emit log]. rewrite Hr. reflexivity.
Qed.

Lemma count_pagination_edges_witness :
  exists w' n,
    count no_string_dates 0
          (mkQuery None None None (FBool false) PUndef (FBool false) PUndef
                   None None (Some NaN) (Some (Fin (-3))) PUndef (PStr "desc")
                   false true)
          scenario_open
    = Some (w', mkQuery None None None (FBool false) PUndef (FBool false)
                        PUndef None None (Some NaN) (Some (Fin (-3))) PUndef
                        (PStr "desc") false true, inl n)
    /\ n = 1.
Proof.
  destruct (count_pagination_edges no_string_dates 0
              (mkQuery None None None (FBool false) PUndef (FBool false) PUndef
                       None None (Some NaN) (Some (Fin (-3))) PUndef
                       (PStr "desc") false true)
              _ scenario_open scenario_entries _
              eq_refl eq_refl eq_refl eq_refl eq_refl)
    as (w' & n & Hc & Hn & _).
  exists w', n. split; [exact Hc|]. rewrite Hn. reflexivity.
Defined.

(** X22. [count] on an open database never writes: whenever it returns,
    with an answer or with an exception, the database on disk, the feed
    list and both backups are what they were, and the database is still
    open. *)
Theorem count_reads_only (s2n : string -> num) (fuel : nat) (q q' : Query)
    (w w' : World) (r : Z + exn) :
  opened w = true ->
  count s2n fuel q w = Some (w', q', r) ->
  disk w' = disk w /\ _feeds w' = _feeds w
  /\ local_backup w' = local_backup w /\ sync_backup w' = sync_backup w
  /\ opened w' = true.
Proof.
  intros Ho. unfold count, init. rewrite Ho.
  destruct (_filters fuel q (_feeds w)) as [[[filters|x] q1]|]; [| |discriminate].
  - destruct (_searchEngine s2n filters) as [[name f]|x].
    + destruct (entries (disk w)) as [es|].
      * destruct (negb (has_index name (disk w)));
          intros H; inversion H; subst; cbn; auto.
      * intros H; inversion H; subst; auto.
    + intros H; inversion H; subst; auto.
  - intros H; inversion H; subst; auto.
Qed.

Lemma count_reads_only_witness :
  exists w' q' r,
    count no_string_dates 1 query_unread_undeleted scenario_open
    = Some (w', q', r)
    /\ disk w' = disk scenario_open /\ _feeds w' = _feeds scenario_open
    /\ local_backup w' = local_backup scenario_open
    /\ sync_backup w' = sync_backup scenario_open
    /\ opened w' = true.
Proof.
  destruct (count no_string_dates 1 query_unread_undeleted scenario_open)
    as [[[w' q'] r]|] eqn:E; [|discriminate].
  exists w', q', r. split; [reflexivity|].
  apply (count_reads_only no_string_dates 1 query_unread_undeleted q'
           scenario_open w' r eq_refl E).
Defined.

(** X23. An entry whose [read] or [deleted] is stored as a boolean, as
    [putEntries] stores it when it is given one, has no record in the
    composite index and is rejected by the filter function of every
    query: [_filters] always compares these two fields with a number. *)
Theorem boolean_flags_never_match (s2n : string -> num) (fuel : nat)
    (q q' : Query) (fs : list Feed.t) (filters : Filters) (e : Entry.t)
    (b : bool) :
  _filters fuel q fs = Some (inl filters, q') ->
  Entry.read e = PBool b \/ Entry.deleted e = PBool b ->
  filterFunction s2n filters e = false
  /\ index_key e = None
  /\ (forall o tags, Orig.read o = PBool b ->
        filterFunction s2n filters (entry_of o tags) = false).
Proof.
  intros Hf Hb. destruct (_filters_entry_sort _ _ _ _ _ Hf) as [He _].
  assert (Hread : forall e', Entry.read e' = PBool b ->
                    clause_read filters e' = false).
  { intros e' E. unfold clause_read. rewrite He, E. reflexivity. }
  assert (Hdel : forall e', Entry.deleted e' = PBool b ->
                   clause_deleted filters e' = false).
  { intros e' E. unfold clause_deleted. rewrite He, E. reflexivity. }
  split; [|split].
  - unfold filterFunction. destruct Hb as [Hb|Hb].
    + rewrite (Hread e Hb). now rewrite !andb_false_r.
    + rewrite (Hdel e Hb). now rewrite !andb_false_r.
  - unfold index_key. destruct Hb as [-> | ->]; simpl; auto.
    now destruct (Store.to_key (Entry.deleted e)).
  - intros o tags Ho. unfold filterFunction.
    rewrite (Hread (entry_of o tags) Ho). now rewrite !andb_false_r.
Qed.

Lemma boolean_flags_never_match_witness :
  filterFunction no_string_dates (filters_with_tags [""%string])
                 (sample_entry 1 (PBool false)) = false
  /\ index_key (sample_entry 1 (PBool false)) = None.
Proof.
  destruct (boolean_flags_never_match no_string_dates 0
              (mkQuery None None (Some [""%string]) (FBool false) PUndef
                       (FBool false) PUndef None None None (Some (Fin 0))
                       PUndef (PStr "desc") false true)
              _ [sample_feed (PNum (Fin 1)) PNull]
              (filters_with_tags [""%string])
              (sample_entry 1 (PBool false)) false eq_refl
              (or_introl eq_refl)) as (H1 & H2 & _).
  split; assumption.
Defined.

(** ** [split] and [join] *)

Lemma string_app_nil_r (s : string) : (s ++ "")%string = s.
Proof. induction s as [|c s IH]; simpl; congruence. Qed.

Lemma string_app_assoc (a b c : string) :
  ((a ++ b) ++ c)%string = (a ++ (b ++ c))%string.
Proof. induction a as [|x a IH]; simpl; congruence. Qed.

Lemma rev_string_acc (s acc : string) :
  rev_string acc s = (rev_string EmptyString s ++ acc)%string.
Proof.
  revert acc. induction s as [|c s IH]; intros acc; simpl; auto.
  rewrite (IH (String c acc)), (IH (String c EmptyString)).
  now rewrite string_app_assoc.
Qed.

Lemma join_cons (p : string) (l : list string) :
  l <> [] ->
  join_comma_space (p :: l) = (p ++ ", " ++ join_comma_space l)%string.
Proof. destruct l; [congruence|reflexivity]. Qed.

Lemma split_go_two (cur : string) (c c' : ascii) (rest : string) :
  split_go cur (String c (String c' rest))
  = if (Ascii.eqb c "," && Ascii.eqb c' " ")%bool
    then rev_string EmptyString cur :: split_go EmptyString rest
    else split_go (String c cur) (String c' rest).
Proof. reflexivity. Qed.

Lemma join_split_go (n : nat) :
  forall s cur,
    (String.length s <= n)%nat ->
    join_comma_space (split_go cur s)
    = (rev_string EmptyString cur ++ s)%string.
Proof.
  induction n as [|n IH]; intros s cur Hn.
  - destruct s; [|simpl in Hn; lia]. simpl. now rewrite string_app_nil_r.
  - destruct s as [|c s]; [simpl; now rewrite string_app_nil_r|].
    destruct s as [|c' rest].
    + simpl. rewrite rev_string_acc. reflexivity.
    + rewrite split_go_two.
      destruct (Ascii.eqb c "," && Ascii.eqb c' " ")%bool eqn:E.
      * apply andb_true_iff in E. destruct E as [E1 E2].
        apply Ascii.eqb_eq in E1, E2. subst c c'.
        rewrite join_cons by apply split_go_nonempty.
        simpl in Hn. apply le_S_n in Hn.
        rewrite IH by (apply Nat.lt_le_incl; exact Hn). reflexivity.
      * simpl in Hn. apply le_S_n in Hn.
        rewrite IH by exact Hn.
        cbn [rev_string]. rewrite rev_string_acc.
        rewrite string_app_assoc. reflexivity.
Qed.

(** X24. Splitting a string at [', '] loses nothing: joining the pieces
    with [', '] gives the string back, for every string; so the [tags]
    array [_putEntry] stores determines the [tags] string it was given. *)
Theorem join_split (s : string) :
  join_comma_space (split_comma_space s) = s
  /\ (forall o tags,
        Orig.tags o = VPrim (PStr s) -> s <> EmptyString ->
        tags_split (Orig.tags o) = Some tags ->
        join_comma_space (Entry.tags (entry_of o tags)) = s).
Proof.
  assert (H : join_comma_space (split_comma_space s) = s)
    by (unfold split_comma_space;
        now rewrite (join_split_go (String.length s) s EmptyString (le_n _))).
  split; auto.
  intros o tags Ho Hs Ht. rewrite Ho in Ht. unfold tags_split in Ht.
  assert (E : truthy (PStr s) = true).
  { simpl. destruct (String.eqb s "") eqn:E; auto.
    apply String.eqb_eq in E. contradiction. }
  rewrite E in Ht. inversion Ht; subst. exact H.
Qed.

Lemma join_split_witness :
  join_comma_space (split_comma_space "news, tech,x, ") = "news, tech,x, "%string
  /\ join_comma_space
       (Entry.tags (entry_of (sample_orig (PNum (Fin 1)) (VPrim (PStr "a, b")))
                             ["a"; "b"]%string)) = "a, b"%string.
Proof.
  destruct (join_split "news, tech,x, ") as [H1 _].
  destruct (join_split "a, b") as [_ H2].
  split; [exact H1|].
  apply (H2 (sample_orig (PNum (Fin 1)) (VPrim (PStr "a, b"))) ["a"; "b"]%string);
    [reflexivity|discriminate|reflexivity].
Defined.

(** ** Writing a batch twice *)

Section PutAll.
Context {R : Type}.
Variable own : bool.
Variable get_key : R -> prim.
Variable set_key : R -> prim -> R.

Lemma put_all_total (rs : list R) :
  forall s,
    (forall r, In r rs -> Store.to_key (get_key r) <> None) ->
    exists s', put_all own get_key set_key rs s = Some s'.
Proof.
  induction rs as [|r rs IH]; simpl; intros s Hv; [eauto|].
  assert (Hk : Store.to_key (get_key r) <> None) by (apply Hv; auto).
  destruct (Store.to_key (get_key r)) as [k|] eqn:Ek; [|congruence].
  destruct (put_explicit own get_key set_key r s k Ek) as (s1 & Hp & _).
  rewrite Hp. apply IH. auto.
Qed.

Lemma put_all_other (k : Store.key) (rs : list R) :
  forall s s',
    (forall r, In r rs -> Store.to_key (get_key r) <> None) ->
    writes_key get_key k rs = false ->
    put_all own get_key set_key rs s = Some s' ->
    Store.get k s' = Store.get k s.
Proof.
  induction rs as [|r rs IH]; simpl; intros s s' Hv Hw H.
  - now inversion H.
  - destruct (Store.put own get_key set_key r s) as [s1|] eqn:Ep; [|discriminate].
    apply orb_false_iff in Hw. destruct Hw as [Hw1 Hw2].
    rewrite (IH _ _ (fun r' Hr' => Hv r' (or_intror Hr')) Hw2 H).
    assert (Hk : Store.to_key (get_key r) <> None) by (apply Hv; auto).
    destruct (Store.to_key (get_key r)) as [k'|] eqn:Ek; [|congruence].
    apply key_eqb_neq in Hw1.
    eapply put_explicit_other; eauto.
Qed.

(** What a list of records with valid keys leaves under a key it writes
    to does not depend on the store it started from. *)
Lemma put_all_determines (k : Store.key) (rs : list R) :
  forall s s' s0 s0',
    (forall r, In r rs -> Store.to_key (get_key r) <> None) ->
    writes_key get_key k rs = true ->
    put_all own get_key set_key rs s = Some s' ->
    put_all own get_key set_key rs s0 = Some s0' ->
    Store.get k s' = Store.get k s0'.
Proof.
  induction rs as [|r rs IH]; simpl; intros s s' s0 s0' Hv Hw H H0;
    [discriminate|].
  destruct (Store.put own get_key set_key r s) as [s1|] eqn:Ep; [|discriminate].
  destruct (Store.put own get_key set_key r s0) as [s01|] eqn:Ep0; [|discriminate].
  assert (Hv' : forall r', In r' rs -> Store.to_key (get_key r') <> None)
    by auto.
  destruct (writes_key get_key k rs) eqn:Hw'.
  - eapply IH; eauto.
  - rewrite (put_all_other k rs _ _ Hv' Hw' H).
    rewrite (put_all_other k rs _ _ Hv' Hw' H0).
    rewrite orb_false_r in Hw.
    destruct (Store.to_key (get_key r)) as [k'|] eqn:Ek; [|discriminate].
    apply key_eqb_eq in Hw. subst k'.
    destruct (put_explicit own get_key set_key r s k Ek) as (x & Hx & Hgx & _).
    destruct (put_explicit own get_key set_key r s0 k Ek) as (y & Hy & Hgy & _).
    congruence.
Qed.

Lemma put_all_twice (rs : list R) (s s1 : Store.t R) :
  (forall r, In r rs -> Store.to_key (get_key r) <> None) ->
  put_all own get_key set_key rs s = Some s1 ->
  exists s2,
    put_all own get_key set_key rs s1 = Some s2
    /\ forall k, Store.get k s2 = Store.get k s1.
Proof.
  intros Hv H. destruct (put_all_total rs s1 Hv) as (s2 & H2).
  exists s2. split; auto. intros k.
  destruct (writes_key get_key k rs) eqn:Hw.
  - eapply put_all_determines; eauto.
  - eapply put_all_other; eauto.
Qed.

End PutAll.

(** The backend runs a queue on the two stores independently. *)
Lemma run_queue_split (tx : transaction) :
  forall n st,
    run_queue tx n None st
    = match put_all true Revision.id Revision.set_id (revisions_of tx) (fst st),
            put_all true Entry.id Entry.set_id (entries_of tx) (snd st) with
      | Some a, Some b => Some (a, b)
      | _, _ => None
      end.
Proof.
  induction tx as [|q tx IH]; intros n st; simpl.
  - now destruct st.
  - destruct q as [r|e]; simpl.
    + destruct (Store.put true Revision.id Revision.set_id r (fst st)) as [s1|];
        simpl; [rewrite IH; reflexivity|reflexivity].
    + destruct (Store.put true Entry.id Entry.set_id e (snd st)) as [s1|]; simpl.
      * rewrite IH. reflexivity.
      * now destruct (put_all true Revision.id Revision.set_id (revisions_of tx) (fst st)).
Qed.

Lemma queue_ids (tx : transaction) :
  (forall q, In q tx -> Store.to_key (request_id q) <> None) ->
  (forall r, In r (revisions_of tx) -> Store.to_key (Revision.id r) <> None)
  /\ (forall e, In e (entries_of tx) -> Store.to_key (Entry.id e) <> None).
Proof.
  induction tx as [|q tx IH]; simpl; intros Hv; [split; intros ? []|].
  destruct (IH (fun q' Hq' => Hv q' (or_intror Hq'))) as [H1 H2].
  destruct q as [r|e]; simpl; split; auto.
  - intros r' [<-|Hr]; auto. apply (Hv (PutRevision r)). auto.
  - intros e' [<-|He]; auto. apply (Hv (PutEntry e)). auto.
Qed.

(** X25. Writes are upserts: when [putEntries] of a batch whose ids are
    all valid keys has resolved, [putEntries] of the same batch again
    resolves too and leaves under every key, in both stores, the record
    that was there after the first call. *)
Theorem putEntries_twice (es : list Orig.t) (st : stores) :
  (forall o, In o es -> Store.to_key (Orig.id o) <> None) ->
  rejected (putEntries es None st) = None ->
  rejected (putEntries es None (after (putEntries es None st))) = None
  /\ forall k,
       Store.get k (fst (after (putEntries es None
                                  (after (putEntries es None st)))))
       = Store.get k (fst (after (putEntries es None st)))
       /\ Store.get k (snd (after (putEntries es None
                                     (after (putEntries es None st)))))
          = Store.get k (snd (after (putEntries es None st))).
Proof.
  intros Hv. unfold putEntries.
  destruct (put_loop es []) as [tx raised] eqn:El.
  assert (Hq : forall q, In q tx -> Store.to_key (request_id q) <> None).
  { intros q Hin.
    destruct (put_loop_queue _ _ _ _ El _ Hin) as [[]|(o & Ho & E)].
    rewrite E. auto. }
  destruct (queue_ids tx Hq) as [Hr He].
  destruct (run_queue tx 0 None st) as [st1|] eqn:E1;
    [|destruct raised; discriminate].
  cbn [rejected after]. intros ->.
  rewrite run_queue_split in E1.
  destruct (put_all true Revision.id Revision.set_id (revisions_of tx) (fst st))
    as [a|] eqn:Ea; [|discriminate].
  destruct (put_all true Entry.id Entry.set_id (entries_of tx) (snd st))
    as [b|] eqn:Eb; [|discriminate].
  inversion E1; subst st1. clear E1.
  destruct (put_all_twice true Revision.id Revision.set_id _ _ _ Hr Ea)
    as (a2 & Ha2 & Hga).
  destruct (put_all_twice true Entry.id Entry.set_id _ _ _ He Eb)
    as (b2 & Hb2 & Hgb).
  rewrite run_queue_split. cbn [fst snd]. rewrite Ha2, Hb2.
  cbn [rejected after fst snd]. auto.
Qed.

Lemma putEntries_twice_witness :
  Store.get (Store.KInt 1)
    (snd (after (putEntries [sample_orig (PNum (Fin 1)) (VPrim (PStr "a"))]
                            None
            (after (putEntries
                      [sample_orig (PNum (Fin 1)) (VPrim (PStr "a"))]
                      None empty_stores)))))
  = Store.get (Store.KInt 1)
      (snd (after (putEntries
                     [sample_orig (PNum (Fin 1)) (VPrim (PStr "a"))]
                     None empty_stores))).
Proof.
  destruct (putEntries_twice [sample_orig (PNum (Fin 1)) (VPrim (PStr "a"))]
              empty_stores) as [_ H].
  - intros o [<-|[]]. discriminate.
  - reflexivity.
  - apply (H (Store.KInt 1)).
Defined.
